(** * Schema merging of the federation gateway (federation/schema.go)

    A shallow embedding of [parseSchema], the three validators and
    [ConvertVersionedSchemas], and the properties of the merger proved
    about them.

    Conventions of the embedding.
    - A Go function returning [(T, error)] becomes a function into
      [result T]: [Ok v], [Err e], or [Panic p] when the Go code
      dereferences a nil pointer or a type assertion without comma-ok fails.
    - A Go [map[string]V] is a [gmap string V]; a nil map and an empty map
      read alike, so both are [∅].
    - The graphql types built by [parseSchema] form a cyclic pointer graph.
      Every named type is allocated exactly once, in pass 1, under its own
      name, so a pointer to a named type is modelled by that name
      ([TNamed]) and the table [all] plays the role of the heap.
    - A [*graphql.Field] is allocated once per (object, field name) kept in
      an object's [Fields] map; its address is modelled by that pair, and
      the nil pointer by [None]. *)

From Stdlib Require Import String Ascii List.
From stdpp Require Import base option list gmap strings fin_maps sorting.
Import ListNotations.
Local Open Scope string_scope.

(** ** Introspection model (package federation, introspection types) *)

(** [introspectionTypeRef]: [Kind], [Name], [OfType *introspectionTypeRef]. *)
Local Unset Elimination Schemes.
Inductive introspectionTypeRef : Type :=
  mkTypeRef (Kind Name : string) (OfType : option introspectionTypeRef).
Local Set Elimination Schemes.

Definition ref_Kind (t : introspectionTypeRef) : string :=
  match t with mkTypeRef k _ _ => k end.
Definition ref_Name (t : introspectionTypeRef) : string :=
  match t with mkTypeRef _ n _ => n end.
Definition ref_OfType (t : introspectionTypeRef) : option introspectionTypeRef :=
  match t with mkTypeRef _ _ o => o end.

Record introspectionInputField : Type := mkInputField {
  input_Name : string;
  input_Type : option introspectionTypeRef
}.

Record introspectionField : Type := mkField {
  field_Name : string;
  field_Type : option introspectionTypeRef;
  field_Args : list introspectionInputField
}.

Record introspectionEnumValue : Type := mkEnumValue {
  enum_Name : string
}.

Record introspectionType : Type := mkType {
  type_Name : string;
  type_Kind : string;
  type_Fields : list introspectionField;
  type_InputFields : list introspectionInputField;
  type_PossibleTypes : list introspectionTypeRef;
  type_EnumValues : list introspectionEnumValue
}.

Record introspectionSchema : Type := mkSchema {
  Types : list introspectionType
}.

Record IntrospectionQueryResult : Type := mkResult {
  Schema : introspectionSchema
}.

(** ** Merged types (package graphql) *)

(** The value of a [graphql.Type] interface as [lookupTypeRef] builds it:
    a pointer to a named top-level type, or a fresh [List]/[NonNull]
    wrapper around such a value. *)
Inductive TypeExpr : Type :=
  | TNamed (name : string)
  | TList (inner : TypeExpr)
  | TNonNull (inner : TypeExpr).

(** [graphql.Field] with the members the merger touches. [FederatedKey] is
    a Go map that starts nil ([None]) and is made on first use. *)
Record Field : Type := mkGField {
  Args : gmap string TypeExpr;
  FType : TypeExpr;
  FederatedKey : option (gmap string bool)
}.

(** The five top-level graphql types. [Union] maps the name of a member
    to the pointer to that object, which again is its name. *)
Inductive GType : Type :=
  | Object (Name : string) (Fields : gmap string Field)
  | InputObject (Name : string) (InputFields : gmap string TypeExpr)
  | Scalar (Type_ : string)
  | Union (Name : string) (UTypes : gmap string string)
  | Enum (Type_ : string) (Values : list string) (ReverseMap : gmap string string).

(** ** Outcomes *)

Inductive panic : Type :=
  | NilDereference
  | FailedTypeAssertion.

(** One constructor per place of schema.go that builds an error. *)
Inductive error : Type :=
  | EMalformedTypeRef
  | EUnknownTypeKind (kind : string)
  | ETypeNotFound (name : string)
  | EDuplicateType (name : string)
  | EInputFieldBadTyp (field kind : string)
  | EFieldBadTyp (field : string) (cause : error)
  | ETypFieldBadTyp (typ field : string) (cause : error)
  | EFieldInput (field : string) (cause : error)
  | ETypInput (typ : string) (cause : error)
  | EPossibleTypeNotObject (typ : string) (other : introspectionTypeRef)
  | EInvalidFederationKey (key : string)
  | ENotFederated (obj : string)
  | EReturnTypeNotObject (name : string)
  | EShadowType (field obj : string)
  | EExpectedFederated (obj : string) (cause : error)
  | ENoObjectName (field : string)
  | EExpectedObject (obj : string)
  | ENotInputObject (root field : string)
  | ENotAFieldOnObject (input root : string)
  | EShadowObjects (cause : error)
  | EMerge (message : string).

Inductive result (A : Type) : Type :=
  | Ok (a : A)
  | Err (e : error)
  | Panic (p : panic).
Arguments Ok {A} a.
Arguments Err {A} e.
Arguments Panic {A} p.

#[global] Instance result_bind : MBind result := fun A B k r =>
  match r with
  | Ok a => k a
  | Err e => Err e
  | Panic p => Panic p
  end.

(** [if err != nil { return nil, wrap(err) }] *)
Definition wrapErr {A : Type} (w : error -> error) (r : result A) : result A :=
  match r with
  | Err e => Err (w e)
  | other => other
  end.

(** A Go [for _, x := range xs] over a slice whose body may return early:
    the loop state is threaded, the first failure ends the loop. *)
Fixpoint forM {A S : Type} (xs : list A) (body : A -> S -> result S) (s : S)
  : result S :=
  match xs with
  | [] => Ok s
  | x :: rest => s' ← body x s; forM rest body s'
  end.

Definition is_ok {A : Type} (r : result A) : Prop := exists a, r = Ok a.
Definition is_err {A : Type} (r : result A) : Prop := exists e, r = Err e.

(** ** Type references *)

Definition getRootType' : introspectionTypeRef -> introspectionTypeRef :=
  fix go (typ : introspectionTypeRef) : introspectionTypeRef :=
    match ref_OfType typ with
    | None => typ
    | Some inner => go inner
    end.

(** [getRootType] reads [typ.OfType] first: a nil [typ] panics. *)
Definition getRootType (typ : option introspectionTypeRef)
  : result introspectionTypeRef :=
  match typ with
  | None => Panic NilDereference
  | Some t => Ok (getRootType' t)
  end.

Definition namedKinds : list string :=
  ["SCALAR"; "OBJECT"; "UNION"; "INPUT_OBJECT"; "ENUM"].

Definition isNamedKind (k : string) : bool := bool_decide (k ∈ namedKinds).
Definition isWrapperKind (k : string) : bool :=
  bool_decide (k = "LIST") || bool_decide (k = "NON_NULL").

(** [lookupType]: the innermost reference below the LIST/NON_NULL wrappers.
    The argument [all] of the Go function is unused and is left out. *)
Fixpoint lookupType' (t : introspectionTypeRef) : result introspectionTypeRef :=
  if isNamedKind (ref_Kind t) then Ok t
  else if isWrapperKind (ref_Kind t) then
    match ref_OfType t with
    | None => Err EMalformedTypeRef
    | Some inner => lookupType' inner
    end
  else Err (EUnknownTypeKind (ref_Kind t)).

Definition lookupType (t : option introspectionTypeRef)
  : result introspectionTypeRef :=
  match t with
  | None => Err EMalformedTypeRef
  | Some t => lookupType' t
  end.

Fixpoint lookupTypeRef' (t : introspectionTypeRef) (all : gmap string GType)
  : result TypeExpr :=
  if isNamedKind (ref_Kind t) then
    match all !! ref_Name t with
    | None => Err (ETypeNotFound (ref_Name t))
    | Some _ => Ok (TNamed (ref_Name t))
    end
  else if bool_decide (ref_Kind t = "LIST") then
    match ref_OfType t with
    | None => Err EMalformedTypeRef
    | Some inner => inner' ← lookupTypeRef' inner all; Ok (TList inner')
    end
  else if bool_decide (ref_Kind t = "NON_NULL") then
    match ref_OfType t with
    | None => Err EMalformedTypeRef
    | Some inner => inner' ← lookupTypeRef' inner all; Ok (TNonNull inner')
    end
  else Err (EUnknownTypeKind (ref_Kind t)).

Definition lookupTypeRef (t : option introspectionTypeRef) (all : gmap string GType)
  : result TypeExpr :=
  match t with
  | None => Err EMalformedTypeRef
  | Some t => lookupTypeRef' t all
  end.

(** ** parseInputFields *)

(** One iteration of the loop of [parseInputFields]. When [lookupType]
    fails, the Go code formats [rawType.Name] with [rawType] nil: a nil
    pointer dereference, not an error value. *)
Definition parseInputField (all : gmap string GType)
    (field : introspectionInputField) (fields : gmap string TypeExpr)
  : result (gmap string TypeExpr) :=
  match lookupType (input_Type field) with
  | Err _ => Panic NilDereference
  | Panic p => Panic p
  | Ok rawType =>
      if bool_decide (ref_Kind rawType ∈ ["INPUT_OBJECT"; "SCALAR"; "ENUM"]) then
        inputType ← wrapErr (EFieldBadTyp (input_Name field))
                       (lookupTypeRef (input_Type field) all);
        Ok (<[input_Name field := inputType]> fields)
      else Err (EInputFieldBadTyp (input_Name field) (ref_Kind rawType))
  end.

Definition parseInputFields (source : list introspectionInputField)
    (all : gmap string GType) : result (gmap string TypeExpr) :=
  forM source (parseInputField all) ∅.

(** ** parseSchema *)

(** Pass 1, one type: reject a name already present, else store the shell. *)
Definition declareType (typ : introspectionType) (all : gmap string GType)
  : result (gmap string GType) :=
  match all !! type_Name typ with
  | Some _ => Err (EDuplicateType (type_Name typ))
  | None =>
      if bool_decide (type_Kind typ = "OBJECT") then
        Ok (<[type_Name typ := Object (type_Name typ) ∅]> all)
      else if bool_decide (type_Kind typ = "INPUT_OBJECT") then
        Ok (<[type_Name typ := InputObject (type_Name typ) ∅]> all)
      else if bool_decide (type_Kind typ = "SCALAR") then
        Ok (<[type_Name typ := Scalar (type_Name typ)]> all)
      else if bool_decide (type_Kind typ = "UNION") then
        Ok (<[type_Name typ := Union (type_Name typ) ∅]> all)
      else if bool_decide (type_Kind typ = "ENUM") then
        Ok (<[type_Name typ := Enum (type_Name typ) [] ∅]> all)
      else Err (EUnknownTypeKind (type_Kind typ))
  end.

(** Pass 2, one field of an OBJECT. *)
Definition parseField (typName : string) (all : gmap string GType)
    (field : introspectionField) (fields : gmap string Field)
  : result (gmap string Field) :=
  fieldTyp ← wrapErr (ETypFieldBadTyp typName (field_Name field))
                (lookupTypeRef (field_Type field) all);
  parsed ← wrapErr (EFieldInput (field_Name field))
              (parseInputFields (field_Args field) all);
  Ok (<[field_Name field :=
          {| Args := parsed; FType := fieldTyp; FederatedKey := None |}]> fields).

(** Pass 2, one possible type of a UNION. In the Go loop body
    the comma-ok assertion of [all[other.Name]] to an object pointer
    declares a new [typ]; when the assertion fails that [typ] is nil and
    the error message reads [typ.Name] through it. *)
Definition parsePossibleType (typName : string) (all : gmap string GType)
    (other : introspectionTypeRef) (types : gmap string string)
  : result (gmap string string) :=
  if bool_decide (ref_Kind other = "OBJECT") then
    match all !! ref_Name other with
    | Some (Object name _) => Ok (<[name := ref_Name other]> types)
    | _ => Panic NilDereference
    end
  else Err (EPossibleTypeNotObject typName other).

(** Pass 2, one type. The assertions of [all[typ.Name]] to the pointer
    type of its kind are written without comma-ok. *)
Definition populateType (typ : introspectionType) (all : gmap string GType)
  : result (gmap string GType) :=
  if bool_decide (type_Kind typ = "OBJECT") then
    fields ← forM (type_Fields typ) (parseField (type_Name typ) all) ∅;
    match all !! type_Name typ with
    | Some (Object name _) => Ok (<[type_Name typ := Object name fields]> all)
    | _ => Panic FailedTypeAssertion
    end
  else if bool_decide (type_Kind typ = "INPUT_OBJECT") then
    parsed ← wrapErr (ETypInput (type_Name typ))
                (parseInputFields (type_InputFields typ) all);
    match all !! type_Name typ with
    | Some (InputObject name _) =>
        Ok (<[type_Name typ := InputObject name parsed]> all)
    | _ => Panic FailedTypeAssertion
    end
  else if bool_decide (type_Kind typ = "UNION") then
    types ← forM (type_PossibleTypes typ)
               (parsePossibleType (type_Name typ) all) ∅;
    match all !! type_Name typ with
    | Some (Union name _) => Ok (<[type_Name typ := Union name types]> all)
    | _ => Panic FailedTypeAssertion
    end
  else if bool_decide (type_Kind typ = "ENUM") then
    let values := map enum_Name (type_EnumValues typ) in
    let reverseMap : gmap string string :=
      fold_left (fun m v => <[v := v]> m) values ∅ in
    match all !! type_Name typ with
    | Some (Enum name _ _) =>
        Ok (<[type_Name typ := Enum name values reverseMap]> all)
    | _ => Panic FailedTypeAssertion
    end
  else if bool_decide (type_Kind typ = "SCALAR") then Ok all
  else Err (EUnknownTypeKind (type_Kind typ)).

Definition parseSchema (schema : IntrospectionQueryResult)
  : result (gmap string GType) :=
  all ← forM (Types (Schema schema)) declareType ∅;
  forM (Types (Schema schema)) populateType all.

(** ** Pieces of the package that schema.go uses and does not define *)

(** Modelled from the spec: the constant [federationField], the name of the
    marker field of a federated object ("a field named [_federation]"). *)
Definition federationField : string := "_federation".

(** Modelled from the spec: the text [fmt.Sprintf] prints for the root type
    reference of a field when it builds the entry name ([S_T] with [T] the
    return type): the name of the referenced type. *)
Definition typeRefString (t : introspectionTypeRef) : string := ref_Name t.

(** The two policies of [mergeSchemaSlice]. *)
Inductive MergeMode : Type := Union_ | Intersection.

(** Go leaves the order of [range] over a map unspecified. The embedding
    takes the order as a parameter: any enumeration of the entries. *)
Record MapOrder : Type := mkMapOrder {
  range : forall {A : Type}, gmap string A -> list (string * A);
  range_perm : forall (A : Type) (m : gmap string A), range m ≡ₚ map_to_list m
}.

Definition stdOrder : MapOrder :=
  {| range := fun A => map_to_list;
     range_perm := fun A m => reflexivity (map_to_list m) |}.

(** [sort.Strings]: ascending in the bytewise order of Go strings. *)
Definition string_le (a b : string) : Prop := String.leb a b = true.
#[global] Instance string_le_dec (a b : string) : Decision (string_le a b) :=
  decide (String.leb a b = true).
Definition sortStrings (l : list string) : list string := merge_sort string_le l.

(** [strings.SplitN(s, "_", 2)]: cut at the first underscore. *)
Fixpoint cutUnderscore (s : string) : option (string * string) :=
  match s with
  | EmptyString => None
  | String c rest =>
      if Ascii.eqb c "_"%char then Some (EmptyString, rest)
      else match cutUnderscore rest with
           | Some (before, after) => Some (String c before, after)
           | None => None
           end
  end.

Definition SplitN2 (s : string) : list string :=
  match cutUnderscore s with
  | Some (before, after) => [before; after]
  | None => [s]
  end.

(** ** Annotations *)

Record FieldInfo : Type := mkFieldInfo {
  Services : gmap string bool
}.

(** The address of a [graphql.Field]: the object and the name it is filed
    under, or nil. *)
Definition FieldPtr : Type := option (string * string).

Record graphqlSchema : Type := mkGraphqlSchema {
  Query : option TypeExpr;
  Mutation : option TypeExpr
}.

Record SchemaWithFederationInfo : Type := mkSchemaWithFederationInfo {
  swf_Schema : graphqlSchema;
  swf_Fields : gmap FieldPtr FieldInfo
}.

(** [m[k]] for a [map[string]bool]: false when absent. *)
Definition lookupBool (m : gmap string bool) (k : string) : bool :=
  default false (m !! k).

(** [obj.Fields[name]] as a pointer: nil when the object has no such field. *)
Definition fieldPtr (objName : string) (fields : gmap string Field)
    (name : string) : FieldPtr :=
  match fields !! name with
  | Some _ => Some (objName, name)
  | None => None
  end.

(** [types[name]] as an interface value: the pointer stored under [name],
    or nil. *)
Definition typePtr (types : gmap string GType) (name : string) : option TypeExpr :=
  match types !! name with
  | Some _ => Some (TNamed name)
  | None => None
  end.

(** [obj.Fields] read through a pointer [obj] to the object filed under
    [objName]. *)
Definition objectFields (types : gmap string GType) (objName : string)
  : gmap string Field :=
  match types !! objName with
  | Some (Object _ fields) => fields
  | _ => ∅
  end.

(** [obj.Name] read through the same pointer. *)
Definition objectName (types : gmap string GType) (objName : string) : string :=
  match types !! objName with
  | Some (Object name _) => name
  | _ => ""
  end.

(** A loop that threads no state. *)
Definition forEach {A : Type} (xs : list A) (body : A -> result unit)
  : result unit :=
  forM xs (fun x _ => body x) tt.

(** [serviceSchemasByName[service].Schema.Types]: reading [Schema] through
    the nil pointer of an absent key panics. *)
Definition typesOf (serviceSchemasByName : gmap string IntrospectionQueryResult)
    (service : string) : result (list introspectionType) :=
  match serviceSchemasByName !! service with
  | Some s => Ok (Types (Schema s))
  | None => Panic NilDereference
  end.

(** The inner loops that search [typ.Fields] for a field name. *)
Definition hasField (name : string) (typ : introspectionType) : bool :=
  existsb (fun f => String.eqb (field_Name f) name) (type_Fields typ).

(** ** The validators *)

(** The Go function takes the object [obj] and reads only [obj.Name]; the
    embedding takes that name. *)
Definition validateFederationKeys (serviceNames : list string)
    (serviceSchemasByName : gmap string IntrospectionQueryResult)
    (objName keyField : string) : result unit :=
  forEach serviceNames (fun service =>
    types ← typesOf serviceSchemasByName service;
    forEach types (fun typ =>
      if bool_decide (type_Name typ = objName) then
        let isRootObject := hasField federationField typ in
        let validFederatedKey := isRootObject && hasField keyField typ in
        if isRootObject && negb validFederatedKey
        then Err (EInvalidFederationKey keyField)
        else Ok tt
      else Ok tt)).

Definition validateFederatedObjects (serviceNames : list string)
    (serviceSchemasByName : gmap string IntrospectionQueryResult)
    (objName : string) : result unit :=
  federatedOnOneService ←
    forM serviceNames (fun service found =>
      types ← typesOf serviceSchemasByName service;
      forM types (fun typ found =>
        if bool_decide (type_Name typ = objName) && hasField federationField typ
        then Ok true else Ok found) found) false;
  if federatedOnOneService
     && negb (bool_decide (objName = "Query"))
     && negb (bool_decide (objName = "Mutation"))
  then
    forEach serviceNames (fun service =>
      types ← typesOf serviceSchemasByName service;
      forEach types (fun typ =>
        if bool_decide (type_Name typ = objName) then
          if negb (hasField federationField typ)
          then Err (ENotFederated objName)
          else Ok tt
        else Ok tt))
  else Ok tt.

Section Merger.

Context (O : MapOrder).

(** [mergeSchemaSlice] lives in another file of the package; the merger is
    verified for every function of its signature. *)
Context (mergeSchemaSlice :
  list IntrospectionQueryResult -> MergeMode -> result IntrospectionQueryResult).

(** The body of [for name, f := range returnObj.Fields] in
    [validateFieldsReturningFederatedObject]. *)
Definition checkShadow (service : string) (field : introspectionField)
    (fieldReturnType : introspectionTypeRef) (returnObjName : string)
    (returnObjFields : gmap string Field)
    (types : gmap string GType) (fieldInfos : gmap FieldPtr FieldInfo)
    (name : string) : result unit :=
  if bool_decide (name = federationField) then
    match fieldInfos !! fieldPtr (ref_Name fieldReturnType) returnObjFields name with
    | None => Panic NilDereference
    | Some info =>
        if negb (lookupBool (Services info) service) then
          let federatedFieldName := service ++ "_" ++ typeRefString fieldReturnType in
          if bool_decide (field_Name field = federatedFieldName) then Ok tt
          else
            match types !! "Federation" with
            | Some (Object _ fedFields) =>
                forEach (range O fedFields) (fun '(fName, _) =>
                  if bool_decide (fName = federatedFieldName)
                  then Err (EShadowType (field_Name field) returnObjName)
                  else Ok tt)
            | _ => Ok tt
            end
        else Ok tt
    end
  else Ok tt.

Definition validateFieldsReturningFederatedObject
    (serviceNames : list string)
    (serviceSchemasByName : gmap string IntrospectionQueryResult)
    (types : gmap string GType) (fieldInfos : gmap FieldPtr FieldInfo)
  : result unit :=
  forEach (range O serviceSchemasByName) (fun '(service, serviceSchema) =>
    forEach (Types (Schema serviceSchema)) (fun typ =>
      if negb (bool_decide (type_Kind typ = "OBJECT")) then Ok tt
      else
        forEach (type_Fields typ) (fun field =>
          fieldReturnType ← getRootType (field_Type field);
          if negb (bool_decide (ref_Kind fieldReturnType = "OBJECT")) then Ok tt
          else
            match types !! ref_Name fieldReturnType with
            | Some (Object returnObjName returnObjFields) =>
                forEach (range O returnObjFields) (fun '(name, _) =>
                  checkShadow service field fieldReturnType returnObjName
                    returnObjFields types fieldInfos name)
            | _ => Err (EReturnTypeNotObject (ref_Name fieldReturnType))
            end))).

(** ** ConvertVersionedSchemas *)

(** The state of the annotation loop: the type table, whose fields carry
    [FederatedKey], and the side table [fieldInfos]. *)
Definition AnnState : Type := (gmap string GType * gmap FieldPtr FieldInfo)%type.

(** [f.FederatedKey[service] = true], making the map when it is nil, for
    the field [fName] of the object [objName]. *)
Definition setFederatedKey (objName fName service : string)
    (types : gmap string GType) : gmap string GType :=
  match types !! objName with
  | Some (Object name fields) =>
      match fields !! fName with
      | Some f =>
          let keys := default ∅ (FederatedKey f) in
          let f' := {| Args := Args f; FType := FType f;
                       FederatedKey := Some (<[service := true]> keys) |} in
          <[objName := Object name (<[fName := f']> fields)]> types
      | None => types
      end
  | _ => types
  end.

(** [info.Services[service] = true] on the entry of [f], created when
    missing. *)
Definition addService (f : FieldPtr) (service : string)
    (fieldInfos : gmap FieldPtr FieldInfo) : gmap FieldPtr FieldInfo :=
  let info := default {| Services := ∅ |} (fieldInfos !! f) in
  <[f := {| Services := <[service := true]> (Services info) |}]> fieldInfos.

(** One argument of a Federation entry: check the input fields, then mark
    the federated keys. *)
Definition annotateArg (serviceNames : list string)
    (serviceSchemasByName : gmap string IntrospectionQueryResult)
    (service : string) (field : introspectionField) (objName : string)
    (arg : introspectionInputField) (types : gmap string GType)
  : result (gmap string GType) :=
  rootType ← getRootType (input_Type arg);
  match types !! ref_Name rootType with
  | Some (InputObject _ inputFields) =>
      _ ← forEach (range O inputFields) (fun '(fName, _) =>
            _ ← validateFederationKeys serviceNames serviceSchemasByName
                  (objectName types objName) fName;
            if bool_decide (is_Some (objectFields types objName !! fName))
            then Ok tt
            else Err (ENotAFieldOnObject fName (ref_Name rootType)));
      Ok (fold_left (fun tys '(fName, _) =>
             if bool_decide (is_Some (inputFields !! fName))
             then setFederatedKey objName fName service tys
             else tys) (range O (objectFields types objName)) types)
  | _ => Err (ENotInputObject (ref_Name rootType) (field_Name field))
  end.

(** One field of a type named Federation. *)
Definition annotateEntry (serviceNames : list string)
    (serviceSchemasByName : gmap string IntrospectionQueryResult)
    (service : string) (field : introspectionField) (types : gmap string GType)
  : result (gmap string GType) :=
  match SplitN2 (field_Name field) with
  | [_; objName] =>
      match types !! objName with
      | Some (Object _ _) =>
          forM (field_Args field)
            (annotateArg serviceNames serviceSchemasByName service field objName)
            types
      | _ => Err (EExpectedObject objName)
      end
  | _ => Err (ENoObjectName (field_Name field))
  end.

(** One type of one service schema: the body of the inner loop of the
    annotation pass. *)
Definition annotateType (serviceNames : list string)
    (serviceSchemasByName : gmap string IntrospectionQueryResult)
    (service : string) (typ : introspectionType) (st : AnnState)
  : result AnnState :=
  types ← (if bool_decide (type_Name typ = "Federation")
           then forM (type_Fields typ)
                  (annotateEntry serviceNames serviceSchemasByName service)
                  st.1
           else Ok st.1);
  if bool_decide (type_Kind typ = "OBJECT") then
    match types !! type_Name typ with
    | Some (Object _ fields) =>
        Ok (types,
            fold_left (fun infos field =>
                         addService
                           (fieldPtr (type_Name typ) fields (field_Name field))
                           service infos)
              (type_Fields typ) st.2)
    | _ => Panic FailedTypeAssertion
    end
  else Ok (types, st.2).

Definition annotate (serviceNames : list string)
    (serviceSchemasByName : gmap string IntrospectionQueryResult)
    (types : gmap string GType) : result AnnState :=
  forM serviceNames (fun service st =>
    serviceTypes ← typesOf serviceSchemasByName service;
    forM serviceTypes (annotateType serviceNames serviceSchemasByName service) st)
    (types, ∅).

(** The version loop of one service: sorted version names, their schemas,
    merged by intersection. *)
Definition intersectVersions (versions : gmap string IntrospectionQueryResult)
  : result IntrospectionQueryResult :=
  let versionNames := sortStrings (fst <$> range O versions) in
  let versionSchemas := omap (fun version => versions !! version) versionNames in
  mergeSchemaSlice versionSchemas Intersection.

(** The first loop: [serviceSchemasByName] and the slice [serviceSchemas]. *)
Definition intersectServices
    (schemas : gmap string (gmap string IntrospectionQueryResult))
    (serviceNames : list string)
  : result (gmap string IntrospectionQueryResult * list IntrospectionQueryResult) :=
  forM serviceNames (fun service '(byName, slice) =>
    serviceSchema ← intersectVersions (default ∅ (schemas !! service));
    Ok (<[service := serviceSchema]> byName, app slice [serviceSchema]))
    (∅, []).

(** What [ConvertVersionedSchemas] does once the schemas are merged. The
    result pairs the heap of graphql types, reachable from the returned
    pointers, with the returned struct. *)
Definition convertMerged (serviceNames : list string)
    (serviceSchemasByName : gmap string IntrospectionQueryResult)
    (merged : IntrospectionQueryResult)
  : result (gmap string GType * SchemaWithFederationInfo) :=
  types ← parseSchema merged;
  _ ← forEach (range O types) (fun '(name, _) =>
        wrapErr (EExpectedFederated name)
          (validateFederatedObjects serviceNames serviceSchemasByName name));
  '(types, fieldInfos) ← annotate serviceNames serviceSchemasByName types;
  _ ← wrapErr EShadowObjects
        (validateFieldsReturningFederatedObject serviceNames
           serviceSchemasByName types fieldInfos);
  Ok (types,
      {| swf_Schema := {| Query := typePtr types "Query";
                          Mutation := typePtr types "Mutation" |};
         swf_Fields := fieldInfos |}).

Definition ConvertVersionedSchemas
    (schemas : gmap string (gmap string IntrospectionQueryResult))
  : result (gmap string GType * SchemaWithFederationInfo) :=
  let serviceNames := sortStrings (fst <$> range O schemas) in
  '(serviceSchemasByName, serviceSchemas) ← intersectServices schemas serviceNames;
  merged ← mergeSchemaSlice serviceSchemas Union_;
  convertMerged serviceNames serviceSchemasByName merged.

(** [convertSchema]: every service has one version, filed under the empty
    version name. *)
Definition convertSchema (schemas : gmap string IntrospectionQueryResult)
  : result (gmap string GType * SchemaWithFederationInfo) :=
  ConvertVersionedSchemas ((fun schema => {[ "" := schema ]}) <$> schemas).

End Merger.

(** ** A model of the schema merge *)

Fixpoint typeRef_eqb (a b : introspectionTypeRef) : bool :=
  match a, b with
  | mkTypeRef ka na oa, mkTypeRef kb nb ob =>
      String.eqb ka kb && String.eqb na nb &&
      match oa, ob with
      | None, None => true
      | Some a', Some b' => typeRef_eqb a' b'
      | _, _ => false
      end
  end.

Definition optTypeRef_eqb (a b : option introspectionTypeRef) : bool :=
  match a, b with
  | None, None => true
  | Some a', Some b' => typeRef_eqb a' b'
  | _, _ => false
  end.

(** Entries of [b] whose key does not occur in [a]. *)
Definition newEntries {A : Type} (key : A -> string) (a b : list A) : list A :=
  filter (fun y => key y ∉ key <$> a) b.

(** Entries of [a] whose key also occurs in [b]. *)
Definition commonEntries {A : Type} (key : A -> string) (a b : list A) : list A :=
  filter (fun x => key x ∈ key <$> b) a.

Definition findByName {A : Type} (key : A -> string) (name : string) (l : list A)
  : option A :=
  find (fun x => String.eqb (key x) name) l.

(** Modelled from the spec: the merge of the fields of one type declared
    twice. Union keeps the fields of both sides and fails with a
    type-conflict error when a field of both has two different return-type
    references; Intersection keeps the fields present on both sides with
    structurally equal type references. *)
Definition mergeFields (mode : MergeMode) (a b : list introspectionField)
  : result (list introspectionField) :=
  match mode with
  | Union_ =>
      kept ← forM a (fun fa acc =>
                match findByName field_Name (field_Name fa) b with
                | Some fb =>
                    if optTypeRef_eqb (field_Type fa) (field_Type fb)
                    then Ok (app acc [fa])
                    else Err (EMerge "type conflict")
                | None => Ok (app acc [fa])
                end) [];
      Ok (app kept (newEntries field_Name a b))
  | Intersection =>
      Ok (List.filter (fun fa =>
                         match findByName field_Name (field_Name fa) b with
                         | Some fb => optTypeRef_eqb (field_Type fa) (field_Type fb)
                         | None => false
                         end) a)
  end.

(** Modelled from the spec: the merge of two declarations of one type;
    input fields, possible types and enum values are merged by name under
    the same policy as the fields. *)
Definition mergeTypes (mode : MergeMode) (a b : introspectionType)
  : result introspectionType :=
  fields ← mergeFields mode (type_Fields a) (type_Fields b);
  let pick {A : Type} (key : A -> string) (x y : list A) : list A :=
    match mode with
    | Union_ => app x (newEntries key x y)
    | Intersection => commonEntries key x y
    end in
  Ok {| type_Name := type_Name a;
        type_Kind := type_Kind a;
        type_Fields := fields;
        type_InputFields := pick input_Name (type_InputFields a) (type_InputFields b);
        type_PossibleTypes := pick ref_Name (type_PossibleTypes a) (type_PossibleTypes b);
        type_EnumValues := pick enum_Name (type_EnumValues a) (type_EnumValues b) |}.

(** Modelled from the spec: the merge of two schemas. Union retains the
    types of both, merging those declared by both; Intersection retains
    the types declared by both. *)
Definition mergeSchemas (mode : MergeMode) (a b : IntrospectionQueryResult)
  : result IntrospectionQueryResult :=
  let ta := Types (Schema a) in
  let tb := Types (Schema b) in
  merged ← forM ta (fun x acc =>
              match findByName type_Name (type_Name x) tb with
              | Some y => t ← mergeTypes mode x y; Ok (app acc [t])
              | None =>
                  match mode with
                  | Union_ => Ok (app acc [x])
                  | Intersection => Ok acc
                  end
              end) [];
  Ok {| Schema := {| Types :=
          match mode with
          | Union_ => app merged (newEntries type_Name ta tb)
          | Intersection => merged
          end |} |}.

(** Modelled from the spec: [mergeSchemaSlice], absent from the sources at
    hand. The schemas are merged pairwise from the left, in the order of
    the slice (services and versions arrive sorted); a single schema is its
    own merge. The spec does not say what an empty slice gives: the model
    fails there. *)
Definition mergeSchemaSliceModel (schemas : list IntrospectionQueryResult)
    (mode : MergeMode) : result IntrospectionQueryResult :=
  match schemas with
  | [] => Err (EMerge "no schemas")
  | first :: rest => forM rest (fun x acc => mergeSchemas mode acc x) first
  end.

(** ** Vocabulary of the statements *)

(** The kinds [parseInputFields] accepts below the wrappers. *)
Definition inputKinds : list string := ["INPUT_OBJECT"; "SCALAR"; "ENUM"].

(** The shell pass 1 of [parseSchema] stores for a type of a known kind. *)
Definition shellOf (typ : introspectionType) : option GType :=
  if bool_decide (type_Kind typ = "OBJECT") then Some (Object (type_Name typ) ∅)
  else if bool_decide (type_Kind typ = "INPUT_OBJECT") then
    Some (InputObject (type_Name typ) ∅)
  else if bool_decide (type_Kind typ = "SCALAR") then Some (Scalar (type_Name typ))
  else if bool_decide (type_Kind typ = "UNION") then Some (Union (type_Name typ) ∅)
  else if bool_decide (type_Kind typ = "ENUM") then Some (Enum (type_Name typ) [] ∅)
  else None.

(** The names of the type entries of a schema, in list order. *)
Definition typeNames (types : list introspectionType) : list string :=
  type_Name <$> types.

(** A type entry whose kind is one of the five kinds of top-level types. *)
Definition knownKind (typ : introspectionType) : Prop :=
  isNamedKind (type_Kind typ) = true.

(** Two top-level types of the same kind and name; their members may
    differ. *)
Definition sameHead (g g' : GType) : Prop :=
  match g, g' with
  | Object n _, Object n' _ => n = n'
  | InputObject n _, InputObject n' _ => n = n'
  | Scalar t, Scalar t' => t = t'
  | Union n _, Union n' _ => n = n'
  | Enum t _ _, Enum t' _ _ => t = t'
  | _, _ => False
  end.

(** Two type tables with the same names, filed under types of the same
    kind. *)
Definition sameHeads (all all' : gmap string GType) : Prop :=
  forall n, option_Forall2 sameHead (all !! n) (all' !! n).

(** No field of the table carries a [FederatedKey] map yet. *)
Definition noKeys (all : gmap string GType) : Prop :=
  forall n name fields k f,
    all !! n = Some (Object name fields) -> fields !! k = Some f ->
    FederatedKey f = None.

(** The places where [parseSchema] runs [parseInputFields]: an argument of
    a field of an OBJECT, or an input field of an INPUT_OBJECT. *)
Definition inputPosition (schema : IntrospectionQueryResult)
    (f : introspectionInputField) : Prop :=
  exists typ, typ ∈ Types (Schema schema) /\
    ((type_Kind typ = "OBJECT" /\
      exists field, field ∈ type_Fields typ /\ f ∈ field_Args field)
     \/ (type_Kind typ = "INPUT_OBJECT" /\ f ∈ type_InputFields typ)).

(** [f.FederatedKey[service]] for the field [K] of the object [O] of a type
    table; false when there is no such field or the map is nil. *)
Definition keyAt (types : gmap string GType) (O K service : string) : bool :=
  match types !! O with
  | Some (Object _ fields) =>
      match fields !! K with
      | Some f => lookupBool (default ∅ (FederatedKey f)) service
      | None => false
      end
  | _ => false
  end.

(** [fieldInfos[f].Services[service]], false when [f] has no entry. *)
Definition serviceAt (fieldInfos : gmap FieldPtr FieldInfo) (f : FieldPtr)
    (service : string) : bool :=
  match fieldInfos !! f with
  | Some info => lookupBool (Services info) service
  | None => false
  end.

(** The part of a top-level type the annotation pass never changes: all of
    it, except the [FederatedKey] maps of the fields of an object. *)
Definition sameFrame (g g' : GType) : Prop :=
  match g, g' with
  | Object n fields, Object n' fields' =>
      n = n' /\ forall k, is_Some (fields !! k) <-> is_Some (fields' !! k)
  | Object _ _, _ | _, Object _ _ => False
  | _, _ => g = g'
  end.

(** The order in which the annotation pass moves the type table: the same
    types and field names, and federated keys are only added. *)
Definition typesLe (types types' : gmap string GType) : Prop :=
  (forall n, option_Forall2 sameFrame (types !! n) (types' !! n))
  /\ forall O K service,
       keyAt types O K service = true -> keyAt types' O K service = true.

(** The order in which it moves the side table: services are only added. *)
Definition infosLe (infos infos' : gmap FieldPtr FieldInfo) : Prop :=
  forall f service,
    serviceAt infos f service = true -> serviceAt infos' f service = true.

Definition stateLe (st st' : gmap string GType * gmap FieldPtr FieldInfo) : Prop :=
  typesLe st.1 st'.1 /\ infosLe st.2 st'.2.

(** The sorted service names of a table of versioned schemas. *)
Definition serviceNamesOf (O : MapOrder)
    (schemas : gmap string (gmap string IntrospectionQueryResult)) : list string :=
  sortStrings (fst <$> range O schemas).

(** The argument [arg] of a Federation entry resolves, in [types], to an
    input object with the input field [K]. *)
Definition argHasKey (types : gmap string GType) (arg : introspectionInputField)
    (K : string) : Prop :=
  exists root inputName inputFields,
    getRootType (input_Type arg) = Ok root
    /\ types !! ref_Name root = Some (InputObject inputName inputFields)
    /\ is_Some (inputFields !! K).

(** A Federation entry of service [service] for the object [O] with an
    argument whose input object, looked up in [types], has the input field
    [K]. The part of the entry name before the first underscore is free. *)
Definition entryWithKey
    (serviceSchemasByName : gmap string IntrospectionQueryResult)
    (types : gmap string GType) (service O K : string) : Prop :=
  exists schema typ field prefix arg,
    serviceSchemasByName !! service = Some schema
    /\ typ ∈ Types (Schema schema)
    /\ type_Name typ = "Federation"
    /\ field ∈ type_Fields typ
    /\ SplitN2 (field_Name field) = [prefix; O]
    /\ arg ∈ field_Args field
    /\ argHasKey types arg K.

(** A field [fieldName] of an OBJECT type [typName] declared in the schema
    of [service]. *)
Definition declaresField
    (serviceSchemasByName : gmap string IntrospectionQueryResult)
    (service typName fieldName : string) : Prop :=
  exists schema typ field,
    serviceSchemasByName !! service = Some schema
    /\ typ ∈ Types (Schema schema)
    /\ type_Kind typ = "OBJECT"
    /\ type_Name typ = typName
    /\ field ∈ type_Fields typ
    /\ field_Name field = fieldName.


(** What the annotation pass checks of one field of a type named
    Federation before it accepts it. *)
Definition entryAccepted (serviceNames : list string)
    (serviceSchemasByName : gmap string IntrospectionQueryResult)
    (types : gmap string GType) (field : introspectionField) : Prop :=
  exists prefix objName,
    SplitN2 (field_Name field) = [prefix; objName]
    /\ (exists name fields, types !! objName = Some (Object name fields))
    /\ forall arg, arg ∈ field_Args field ->
         (exists root inputName inputFields,
            getRootType (input_Type arg) = Ok root
            /\ types !! ref_Name root = Some (InputObject inputName inputFields))
         /\ forall K, argHasKey types arg K ->
              validateFederationKeys serviceNames serviceSchemasByName
                (objectName types objName) K
              = Ok tt
              /\ is_Some (objectFields types objName !! K).

(** The contribution of one Federation entry to the federated keys. *)
Definition entryKey (types : gmap string GType) (field : introspectionField)
    (O' K : string) : Prop :=
  exists prefix arg,
    SplitN2 (field_Name field) = [prefix; O']
    /\ arg ∈ field_Args field
    /\ argHasKey types arg K.

(** The contribution of one type of a service schema to the federated
    keys and to the services of a field. *)
Definition typeKey (types : gmap string GType) (typ : introspectionType)
    (O' K : string) : Prop :=
  type_Name typ = "Federation"
  /\ exists field, field ∈ type_Fields typ /\ entryKey types field O' K.

Definition typeService (types : gmap string GType) (typ : introspectionType)
    (f : FieldPtr) : Prop :=
  type_Kind typ = "OBJECT"
  /\ exists field, field ∈ type_Fields typ
       /\ f = fieldPtr (type_Name typ) (objectFields types (type_Name typ))
                (field_Name field).

(** An annotation: a federated key of a field for a service, or a service
    of a field. *)
Definition Annotation : Type :=
  (string * string * string + FieldPtr * string)%type.

Definition annotated (st : AnnState) (u : Annotation) : Prop :=
  match u with
  | inl (O', K, service) => keyAt st.1 O' K service = true
  | inr (f, service) => serviceAt st.2 f service = true
  end.

Definition typeAdds (types : gmap string GType) (service : string)
    (typ : introspectionType) (u : Annotation) : Prop :=
  match u with
  | inl (O', K, s) => s = service /\ typeKey types typ O' K
  | inr (f, s) => s = service /\ typeService types typ f
  end.

Definition serviceAdds
    (serviceSchemasByName : gmap string IntrospectionQueryResult)
    (types : gmap string GType) (service : string) (u : Annotation) : Prop :=
  exists schema typ,
    serviceSchemasByName !! service = Some schema
    /\ typ ∈ Types (Schema schema)
    /\ typeAdds types service typ u.

(** What the annotation pass checks of one type of a service schema. *)
Definition typeAccepted (serviceNames : list string)
    (serviceSchemasByName : gmap string IntrospectionQueryResult)
    (types : gmap string GType) (typ : introspectionType) : Prop :=
  (type_Name typ = "Federation" ->
     forall field, field ∈ type_Fields typ ->
       entryAccepted serviceNames serviceSchemasByName types field)
  /\ (type_Kind typ = "OBJECT" ->
        exists name fields, types !! type_Name typ = Some (Object name fields)).

(** ** Vocabulary of the validators *)

(** The type entry [typ] occurs in the schema recorded for [service]. *)
Definition declaresType
    (serviceSchemasByName : gmap string IntrospectionQueryResult)
    (service : string) (typ : introspectionType) : Prop :=
  exists schema,
    serviceSchemasByName !! service = Some schema
    /\ typ ∈ Types (Schema schema).

(** Every service name has a schema on record. *)
Definition allPresent (serviceNames : list string)
    (serviceSchemasByName : gmap string IntrospectionQueryResult) : Prop :=
  forall service, service ∈ serviceNames ->
    is_Some (serviceSchemasByName !! service).

(** Some service declares [objName] with the marker ([marker = true]) or
    without it ([marker = false]). *)
Definition declaredWithMarker (serviceNames : list string)
    (serviceSchemasByName : gmap string IntrospectionQueryResult)
    (objName : string) (marker : bool) : Prop :=
  exists service typ,
    service ∈ serviceNames
    /\ declaresType serviceSchemasByName service typ
    /\ type_Name typ = objName
    /\ hasField federationField typ = marker.

(** Some service declares [objName] with the marker and without a field
    named [K]. *)
Definition keyMissing (serviceNames : list string)
    (serviceSchemasByName : gmap string IntrospectionQueryResult)
    (objName K : string) : Prop :=
  exists service typ,
    service ∈ serviceNames
    /\ declaresType serviceSchemasByName service typ
    /\ type_Name typ = objName
    /\ hasField federationField typ = true
    /\ hasField K typ = false.

(** The string has an underscore in it. *)
Fixpoint containsUnderscore (s : string) : bool :=
  match s with
  | EmptyString => false
  | String c rest => Ascii.eqb c "_"%char || containsUnderscore rest
  end.

(** The version-intersected schema of [service] holds a Federation entry
    named [prefix_objName], for any [prefix] free of underscores, with an
    argument whose input object has the input field [K]. *)
Definition entryInSchemaOf (O : MapOrder)
    (mergeSchemaSlice :
       list IntrospectionQueryResult -> MergeMode -> result IntrospectionQueryResult)
    (schemas : gmap string (gmap string IntrospectionQueryResult))
    (types : gmap string GType) (service objName K : string) : Prop :=
  exists versions schema typ field prefix arg,
    schemas !! service = Some versions
    /\ intersectVersions O mergeSchemaSlice versions = Ok schema
    /\ typ ∈ Types (Schema schema)
    /\ type_Name typ = "Federation"
    /\ field ∈ type_Fields typ
    /\ field_Name field = prefix ++ String "_" objName
    /\ containsUnderscore prefix = false
    /\ arg ∈ field_Args field
    /\ argHasKey types arg K.




(** The inputs on which pass 2 of [parseSchema] can panic: an argument or
    input field whose type reference [lookupType] rejects, or a possible
    type of a UNION, of kind OBJECT, that names no OBJECT of the schema. *)
Definition crashCause (schema : IntrospectionQueryResult) : Prop :=
  (exists f e, inputPosition schema f /\ lookupType (input_Type f) = Err e)
  \/ (exists typ other,
        typ ∈ Types (Schema schema)
        /\ type_Kind typ = "UNION"
        /\ other ∈ type_PossibleTypes typ
        /\ ref_Kind other = "OBJECT"
        /\ forall t, t ∈ Types (Schema schema) ->
             type_Name t = ref_Name other -> type_Kind t <> "OBJECT").

(** ** Vocabulary of the properties of the parser *)

(** The named type a type built by [lookupTypeRef] points to, below its
    List and NonNull wrappers. *)
Fixpoint rootName (e : TypeExpr) : string :=
  match e with
  | TNamed n => n
  | TList inner | TNonNull inner => rootName inner
  end.

(** The wrappers of such a type, outermost first, by the kind they are
    built from. *)
Fixpoint wrappersOf (e : TypeExpr) : list string :=
  match e with
  | TNamed _ => []
  | TList inner => "LIST" :: wrappersOf inner
  | TNonNull inner => "NON_NULL" :: wrappersOf inner
  end.

(** The kinds of a type reference above its first reference of a named
    kind, outermost first. *)
Fixpoint wrapperKinds (t : introspectionTypeRef) : list string :=
  match t with
  | mkTypeRef k _ o =>
      if isNamedKind k then []
      else k :: match o with
                | Some inner => wrapperKinds inner
                | None => []
                end
  end.

(** The kind a top-level type of the table is built from, and the name it
    carries ([Name], or [Type] for a scalar or an enum). *)
Definition kindOf (g : GType) : string :=
  match g with
  | Object _ _ => "OBJECT"
  | InputObject _ _ => "INPUT_OBJECT"
  | Scalar _ => "SCALAR"
  | Union _ _ => "UNION"
  | Enum _ _ _ => "ENUM"
  end.

Definition nameOf (g : GType) : string :=
  match g with
  | Object n _ | InputObject n _ | Scalar n | Union n _ | Enum n _ _ => n
  end.

(** The entry a run that returns a table leaves under the name [n]. *)
Definition entryOf (n : string) (r : result (gmap string GType))
  : result (option GType) :=
  match r with
  | Ok all => Ok (all !! n)
  | Err e => Err e
  | Panic p => Panic p
  end.

(** ** Vocabulary of the properties of the merger *)

(** A field without its federated keys, and a top-level type without the
    federated keys of its fields. *)
Definition eraseKey (f : Field) : Field :=
  {| Args := Args f; FType := FType f; FederatedKey := None |}.

Definition eraseKeys (g : GType) : GType :=
  match g with
  | Object name fields => Object name (eraseKey <$> fields)
  | other => other
  end.

(** A map of services that has an entry and in which every entry is
    true. *)
Definition allTrue (m : gmap string bool) : Prop :=
  m <> ∅ /\ forall s b, m !! s = Some b -> b = true.

(** Every FederatedKey map of the table that has been made is such a map,
    and so is the Services map of every entry of the side table. *)
Definition keysTrue (types : gmap string GType) : Prop :=
  forall n name fields k f keys,
    types !! n = Some (Object name fields) -> fields !! k = Some f ->
    FederatedKey f = Some keys -> allTrue keys.

Definition servicesTrue (infos : gmap FieldPtr FieldInfo) : Prop :=
  forall p info, infos !! p = Some info -> allTrue (Services info).

(** The errors of the annotation pass, all about a field of a type named
    Federation, and the errors of the last validation. *)
Definition entryError (e : error) : Prop :=
  (exists field, e = ENoObjectName field)
  \/ (exists objName, e = EExpectedObject objName)
  \/ (exists root field, e = ENotInputObject root field)
  \/ (exists K, e = EInvalidFederationKey K)
  \/ (exists K root, e = ENotAFieldOnObject K root).

Definition shadowError (e : error) : Prop :=
  (exists name, e = EReturnTypeNotObject name)
  \/ (exists field T, e = EShadowType field T).





(** ** Example schemas *)

Module Examples.

Definition named (kind name : string) : option introspectionTypeRef :=
  Some (mkTypeRef kind name None).

Definition listOf (t : option introspectionTypeRef) : option introspectionTypeRef :=
  Some (mkTypeRef "LIST" "" t).

Definition object (name : string) (fields : list introspectionField)
  : introspectionType :=
  mkType name "OBJECT" fields [] [] [].

Definition inputObject (name : string) (fields : list introspectionInputField)
  : introspectionType :=
  mkType name "INPUT_OBJECT" [] fields [] [].

Definition scalar (name : string) : introspectionType :=
  mkType name "SCALAR" [] [] [] [].

Definition schemaOf (types : list introspectionType) : IntrospectionQueryResult :=
  mkResult (mkSchema types).

(** A service with one version, filed under the empty version name as
    [convertSchema] does. *)
Definition oneVersion (types : list introspectionType)
  : gmap string IntrospectionQueryResult :=
  {[ "" := schemaOf types ]}.

(** The merger as run in the examples: map entries in the order of
    [map_to_list], schemas merged by the model of the merge. *)
Definition convert (schemas : gmap string (gmap string IntrospectionQueryResult))
  : result (gmap string GType * SchemaWithFederationInfo) :=
  ConvertVersionedSchemas stdOrder mergeSchemaSliceModel schemas.




(** A field argument whose innermost type is an OBJECT. *)
Definition objectArgument : introspectionInputField :=
  mkInputField "a" (listOf (named "OBJECT" "Foo")).

Definition queryWithObjectArgument : introspectionType :=
  object "Query" [ mkField "f" (named "SCALAR" "string") [ objectArgument ] ].

Definition schemaWithObjectArgument : IntrospectionQueryResult :=
  schemaOf [ queryWithObjectArgument; object "Foo" []; scalar "string" ].

(** A field argument whose type reference is cut short: a LIST without its
    element type, as an introspection query of too little depth reports a
    deeply wrapped type. *)
Definition truncatedArgument : introspectionInputField :=
  mkInputField "a" (listOf None).

Definition schemaWithTruncatedArgument : IntrospectionQueryResult :=
  schemaOf [ object "Query"
               [ mkField "f" (named "SCALAR" "string") [ truncatedArgument ] ];
             scalar "string" ].

(** A UNION with a possible type of kind OBJECT that names a SCALAR. *)
Definition schemaWithStrayUnionMember : IntrospectionQueryResult :=
  schemaOf [ mkType "U" "UNION" [] [] [ mkTypeRef "OBJECT" "string" None ] [];
             scalar "string" ].

(** The type [Foo] of the test suite alone: its field [s1nest] returns
    [Foo] itself. *)
Definition cyclicFoo : IntrospectionQueryResult :=
  schemaOf [ object "Foo"
               [ mkField "name" (named "SCALAR" "string") [];
                 mkField "s1nest" (named "OBJECT" "Foo") [] ];
             scalar "string" ].

(** The schemas on record after the first loop, their union, and the table
    parsed from it, for a table of versioned schemas. *)
Definition byNameOf (schemas : gmap string (gmap string IntrospectionQueryResult))
  : gmap string IntrospectionQueryResult :=
  match intersectServices stdOrder mergeSchemaSliceModel schemas
          (serviceNamesOf stdOrder schemas) with
  | Ok (byName, _) => byName
  | _ => ∅
  end.

Definition sliceOf (schemas : gmap string (gmap string IntrospectionQueryResult))
  : list IntrospectionQueryResult :=
  match intersectServices stdOrder mergeSchemaSliceModel schemas
          (serviceNamesOf stdOrder schemas) with
  | Ok (_, slice) => slice
  | _ => []
  end.

Definition mergedOf (schemas : gmap string (gmap string IntrospectionQueryResult))
  : IntrospectionQueryResult :=
  match mergeSchemaSliceModel (sliceOf schemas) Union_ with
  | Ok merged => merged
  | _ => schemaOf []
  end.

Definition tableOf (schemas : gmap string (gmap string IntrospectionQueryResult))
  : gmap string GType :=
  match parseSchema (mergedOf schemas) with
  | Ok types => types
  | _ => ∅
  end.

(** The two services of the test suite, with the cyclic field
    [Foo.s1nest : Foo]. *)
Definition schema1 : list introspectionType :=
  [ object "Query"
      [ mkField "s1f" (named "OBJECT" "Foo") [];
        mkField "s1fff" (listOf (named "OBJECT" "Foo")) [];
        mkField "barsFromFederationKeys" (listOf (named "OBJECT" "Bar"))
          [mkInputField "keys" (listOf (named "SCALAR" "int64"))] ];
    object "Foo"
      [ mkField "name" (named "SCALAR" "string") [];
        mkField "federationKey" (named "SCALAR" "string") [];
        mkField "s1hmm" (named "SCALAR" "string") [];
        mkField "s1nest" (named "OBJECT" "Foo") [] ];
    object "Bar"
      [ mkField "id" (named "SCALAR" "int64") [];
        mkField "s1baz" (named "SCALAR" "string") [] ];
    scalar "string"; scalar "int64" ].

Definition schema2 : list introspectionType :=
  [ object "Query"
      [ mkField "foosFromFederationKeys" (listOf (named "OBJECT" "Foo"))
          [mkInputField "keys" (listOf (named "SCALAR" "string"))] ];
    object "Foo"
      [ mkField "name" (named "SCALAR" "string") [];
        mkField "s2ok" (named "SCALAR" "int") [];
        mkField "s2bar" (named "OBJECT" "Bar") [];
        mkField "s2nest" (named "OBJECT" "Foo") [] ];
    object "Bar"
      [ mkField "id" (named "SCALAR" "int64") [];
        mkField "federationKey" (named "SCALAR" "int64") [] ];
    scalar "string"; scalar "int64"; scalar "int" ].

Definition twoServices : gmap string (gmap string IntrospectionQueryResult) :=
  {[ "schema1" := oneVersion schema1; "schema2" := oneVersion schema2 ]}.

(** A federated object: service A declares the root [Foo] with the marker. *)
Definition rootFoo : introspectionType :=
  object "Foo"
    [ mkField "_federation" (named "OBJECT" "Foo") [];
      mkField "name" (named "SCALAR" "string") [] ].

Definition serviceA : list introspectionType := [ rootFoo; scalar "string" ].

(** Service B returns [Foo] from [Query.g], declares neither [Foo] nor a
    Federation type. *)
Definition fieldG : introspectionField :=
  mkField "g" (named "OBJECT" "Foo") [].

Definition queryG : introspectionType := object "Query" [ fieldG ].


(** Service B returns [Foo] from [Query.g] and offers the entry [B_Foo]. *)
Definition fooKeys : introspectionType :=
  inputObject "FooKeys" [ mkInputField "name" (named "SCALAR" "string") ].

Definition argumentKeys : introspectionInputField :=
  mkInputField "keys" (named "INPUT_OBJECT" "FooKeys").

Definition entryB_Foo : introspectionField :=
  mkField "B_Foo" (named "OBJECT" "Foo") [ argumentKeys ].




(** Service B declares [Foo] without the marker. *)
Definition partialFoo
  : gmap string (gmap string IntrospectionQueryResult) :=
  {[ "A" := oneVersion serviceA;
     "B" := oneVersion [ object "Foo" [ mkField "name" (named "SCALAR" "string") [] ];
                         scalar "string" ] ]}.

(** Service B declares the root [Foo] too and files, in its own schema,
    a Federation entry whose name starts with the name of service A. *)
Definition entryA_Foo : introspectionField :=
  mkField "A_Foo" (listOf (named "OBJECT" "Foo"))
    [ mkInputField "keys" (listOf (named "INPUT_OBJECT" "FooKeys")) ].

Definition serviceBWithEntry : list introspectionType :=
  [ object "Foo"
      [ mkField "_federation" (named "OBJECT" "Foo") [];
        mkField "name" (named "SCALAR" "string") [];
        mkField "s2ok" (named "SCALAR" "int") [] ];
    object "Federation" [ entryA_Foo ];
    fooKeys; scalar "string"; scalar "int" ].

Definition entryInB : gmap string (gmap string IntrospectionQueryResult) :=
  {[ "A" := oneVersion serviceA; "B" := oneVersion serviceBWithEntry ]}.

Definition entryInBTypes : gmap string GType :=
  Eval vm_compute in
    match convert entryInB with Ok (types, _) => types | _ => ∅ end.

Definition entryInBInfo : SchemaWithFederationInfo :=
  Eval vm_compute in
    match convert entryInB with
    | Ok (_, info) => info
    | _ => {| swf_Schema := {| Query := None; Mutation := None |};
              swf_Fields := ∅ |}
    end.



(** One service whose Federation entry has no underscore in its name. *)
Definition entryNoUnderscore : introspectionField :=
  mkField "Foo" (named "OBJECT" "Foo") [].

Definition federationNoUnderscore : introspectionType :=
  object "Federation" [ entryNoUnderscore ].

Definition serviceNoUnderscore : list introspectionType :=
  [ rootFoo; federationNoUnderscore; scalar "string" ].

Definition noUnderscore : gmap string (gmap string IntrospectionQueryResult) :=
  {[ "A" := oneVersion serviceNoUnderscore ]}.

(** Service B offers the entry [B_Foo] with the keys [name] and [age];
    the root [Foo] of service A has no field [age]. *)
Definition fooKeysAge : introspectionType :=
  inputObject "FooKeys"
    [ mkInputField "name" (named "SCALAR" "string");
      mkInputField "age" (named "SCALAR" "string") ].


Definition rootFooAge : introspectionType :=
  object "Foo"
    [ mkField "_federation" (named "OBJECT" "Foo") [];
      mkField "name" (named "SCALAR" "string") [];
      mkField "age" (named "SCALAR" "string") [] ].










(** The services of [keyMismatch], the Federation type of service B
    listing an entry without underscore before the entry [B_Foo]. *)
Definition federationMalformedFirst : introspectionType :=
  object "Federation" [ entryNoUnderscore; entryB_Foo ].

Definition serviceBMalformed : list introspectionType :=
  [ rootFooAge; federationMalformedFirst; fooKeysAge; scalar "string" ].

Definition keyMismatchMalformed
  : gmap string (gmap string IntrospectionQueryResult) :=
  {[ "A" := oneVersion serviceA; "B" := oneVersion serviceBMalformed ]}.




(** The outcome of the merger on the two services of the test suite. *)
Definition twoServicesTypes : gmap string GType :=
  Eval vm_compute in
    match convert twoServices with Ok (types, _) => types | _ => ∅ end.

Definition twoServicesInfo : SchemaWithFederationInfo :=
  Eval vm_compute in
    match convert twoServices with
    | Ok (_, info) => info
    | _ => {| swf_Schema := {| Query := None; Mutation := None |};
              swf_Fields := ∅ |}
    end.

(** A schema with a type of every kind: a union of two objects, an input
    object, an enum that lists a value twice, and an object that lists the
    field [name] twice. *)
Definition pet : introspectionType :=
  mkType "Pet" "UNION" [] []
    [ mkTypeRef "OBJECT" "Cat" None; mkTypeRef "OBJECT" "Dog" None ] [].

Definition cat : introspectionType :=
  object "Cat"
    [ mkField "name" (named "SCALAR" "string") [];
      mkField "friends" (listOf (named "UNION" "Pet"))
        [ mkInputField "keys" (named "INPUT_OBJECT" "PetKeys") ];
      mkField "name" (named "ENUM" "Color") [] ].

Definition dog : introspectionType :=
  object "Dog" [ mkField "name" (named "SCALAR" "string") [] ].

Definition petKeys : introspectionType :=
  inputObject "PetKeys" [ mkInputField "name" (named "SCALAR" "string") ].

Definition color : introspectionType :=
  mkType "Color" "ENUM" [] [] []
    [ mkEnumValue "RED"; mkEnumValue "GREEN"; mkEnumValue "RED" ].

Definition zoo : IntrospectionQueryResult :=
  schemaOf [ pet; cat; dog; petKeys; color; scalar "string" ].

Definition zooBackwards : IntrospectionQueryResult :=
  schemaOf [ scalar "string"; color; petKeys; dog; cat; pet ].

Definition zooTable : gmap string GType :=
  Eval vm_compute in
    match parseSchema zoo with Ok types => types | _ => ∅ end.

(** Another order of the map entries: that of [map_to_list], backwards. *)
Definition backwards : MapOrder :=
  {| range := fun A m => rev (map_to_list m);
     range_perm := fun A m => Permutation_sym (Permutation_rev (map_to_list m)) |}.

(** The schema of [schemaWithObjectArgument] with an argument cut short
    listed before the argument of kind OBJECT. *)
Definition objectArgumentB : introspectionInputField :=
  mkInputField "b" (listOf (named "OBJECT" "Foo")).

Definition schemaTruncatedThenObject : IntrospectionQueryResult :=
  schemaOf [ object "Query"
               [ mkField "f" (named "SCALAR" "string")
                   [ truncatedArgument; objectArgumentB ] ];
             object "Foo" []; scalar "string" ].

(** The services of [partialFoo], service B with a field [Query.f] whose
    argument is cut short. *)
Definition partialFooB : introspectionType :=
  object "Foo" [ mkField "name" (named "SCALAR" "string") [] ].

Definition queryTruncated : introspectionType :=
  object "Query"
    [ mkField "f" (named "SCALAR" "string") [ truncatedArgument ] ].

Definition partialFooTruncated
  : gmap string (gmap string IntrospectionQueryResult) :=
  {[ "A" := oneVersion serviceA;
     "B" := oneVersion [ partialFooB; queryTruncated; scalar "string" ] ]}.

Definition partialFooTruncatedByName : gmap string IntrospectionQueryResult :=
  Eval vm_compute in
    match intersectServices stdOrder mergeSchemaSliceModel partialFooTruncated
            (serviceNamesOf stdOrder partialFooTruncated) with
    | Ok (byName, _) => byName
    | _ => ∅
    end.

Definition partialFooTruncatedMerged : IntrospectionQueryResult :=
  Eval vm_compute in
    match intersectServices stdOrder mergeSchemaSliceModel partialFooTruncated
            (serviceNamesOf stdOrder partialFooTruncated) with
    | Ok (_, slice) =>
        match mergeSchemaSliceModel slice Union_ with
        | Ok merged => merged
        | _ => schemaOf []
        end
    | _ => schemaOf []
    end.

End Examples.

(** * Properties *)

(** ** Loops *)

Lemma bind_Ok {A B : Type} (r : result A) (k : A -> result B) (b : B) :
  r ≫= k = Ok b <-> exists a, r = Ok a /\ k a = Ok b.
Proof.
  destruct r as [a|e|p]; simpl; split.
  - intros H. exists a. auto.
  - intros (a' & Ha & Hk). injection Ha as ->. exact Hk.
  - discriminate.
  - intros (a' & Ha & _). discriminate.
  - discriminate.
  - intros (a' & Ha & _). discriminate.
Qed.

Lemma wrapErr_Ok {A : Type} (w : error -> error) (r : result A) (a : A) :
  wrapErr w r = Ok a <-> r = Ok a.
Proof. destruct r; simpl; split; congruence. Qed.


(** A property kept by every successful iteration holds after the loop. *)
Lemma forM_invariant {A S : Type} (P : S -> Prop) (xs : list A)
    (body : A -> S -> result S) (s s' : S) :
  (forall x a b, x ∈ xs -> P a -> body x a = Ok b -> P b) ->
  P s -> forM xs body s = Ok s' -> P s'.
Proof.
  revert s. induction xs as [|x xs IH]; intros s Hstep Hs Hrun; simpl in Hrun.
  - injection Hrun as <-. exact Hs.
  - apply bind_Ok in Hrun as (m & Hm & Hrest).
    apply (IH m); [|eapply Hstep; [left|exact Hs|exact Hm]|exact Hrest].
    intros y a b Hy. apply Hstep. by right.
Qed.

(** When the loop succeeds, the body succeeded at every element, from a
    state reached from the initial one and leading to the final one. *)
Lemma forM_elem {A S : Type} (R : S -> S -> Prop) `{!PreOrder R} (xs : list A)
    (body : A -> S -> result S) (s s' : S) :
  (forall x a b, x ∈ xs -> body x a = Ok b -> R a b) ->
  forM xs body s = Ok s' ->
  forall x, x ∈ xs -> exists a b, R s a /\ body x a = Ok b /\ R b s'.
Proof.
  revert s. induction xs as [|y xs IH]; intros s Hstep Hrun x Hx.
  - by apply elem_of_nil in Hx.
  - simpl in Hrun. apply bind_Ok in Hrun as (m & Hm & Hrest).
    assert (Hsm : R s m) by (eapply Hstep; [left|exact Hm]).
    assert (Hms' : R m s').
    { apply (forM_invariant (R m) xs body m s'); [|reflexivity|exact Hrest].
      intros z a b Hz Ha Hb. etrans; [exact Ha|]. eapply Hstep; [by right|exact Hb]. }
    apply elem_of_cons in Hx as [->|Hx].
    + exists s, m. split; [reflexivity|]. split; assumption.
    + destruct (IH m) with (x := x) as (a & b & Ha & Hb & Hb'); try assumption.
      { intros z a b Hz. apply Hstep. by right. }
      exists a, b. split; [by etrans|]. split; assumption.
Qed.

Lemma forM_rel {A S : Type} (R : S -> S -> Prop) `{!PreOrder R} (xs : list A)
    (body : A -> S -> result S) (s s' : S) :
  (forall x a b, x ∈ xs -> body x a = Ok b -> R a b) ->
  forM xs body s = Ok s' -> R s s'.
Proof.
  intros Hstep Hrun.
  apply (forM_invariant (R s) xs body s s'); [|reflexivity|exact Hrun].
  intros z a b Hz Ha Hb. etrans; [exact Ha|]. eapply Hstep; [exact Hz|exact Hb].
Qed.

Lemma forEach_Ok {A : Type} (xs : list A) (body : A -> result unit) :
  forEach xs body = Ok tt <-> forall x, x ∈ xs -> body x = Ok tt.
Proof.
  unfold forEach. induction xs as [|x xs IH]; simpl.
  - split; [intros _ x Hx; by apply elem_of_nil in Hx|auto].
  - split.
    + intros H. apply bind_Ok in H as ([] & Hx & Hrest).
      intros y Hy. apply elem_of_cons in Hy as [->|Hy]; [exact Hx|].
      by apply IH.
    + intros H. rewrite (H x) by left. simpl. apply IH.
      intros y Hy. apply H. by right.
Qed.

Lemma forEach_Ok_unit {A : Type} (xs : list A) (body : A -> result unit) (u : unit) :
  forEach xs body = Ok u <-> forall x, x ∈ xs -> body x = Ok tt.
Proof. destruct u. apply forEach_Ok. Qed.

(** A loop whose bodies never panic ends in [Ok] or in an error. *)
Lemma forM_no_panic {A S : Type} (xs : list A) (body : A -> S -> result S) (s : S) :
  (forall x a p, x ∈ xs -> body x a <> Panic p) ->
  forall p, forM xs body s <> Panic p.
Proof.
  revert s. induction xs as [|x xs IH]; intros s Hbody p; simpl; [discriminate|].
  destruct (body x s) as [m|e|q] eqn:Hm; simpl; [|discriminate|].
  - apply IH. intros y a q Hy. apply Hbody. by right.
  - exfalso. eapply Hbody; [left|exact Hm].
Qed.


Lemma forEach_not_Ok {A : Type} (xs : list A) (body : A -> result unit) (x : A) :
  x ∈ xs -> body x <> Ok tt -> forEach xs body <> Ok tt.
Proof. intros Hx Hbody H. apply Hbody. by apply (proj1 (forEach_Ok xs body) H). Qed.

Lemma forM_Ok_elem {A S : Type} (xs : list A) (body : A -> S -> result S)
    (s s' : S) :
  forM xs body s = Ok s' ->
  forall x, x ∈ xs -> exists a b, body x a = Ok b.
Proof.
  revert s. induction xs as [|y xs IH]; intros s Hrun x Hx.
  - by apply elem_of_nil in Hx.
  - simpl in Hrun. apply bind_Ok in Hrun as (m & Hm & Hrest).
    apply elem_of_cons in Hx as [->|Hx]; [by exists s, m|].
    by apply (IH m).
Qed.

(** The successful iterations see states that satisfy an invariant. *)
Lemma forM_elem_inv {A S : Type} (I : S -> Prop) (xs : list A)
    (body : A -> S -> result S) (s s' : S) :
  (forall x a b, x ∈ xs -> I a -> body x a = Ok b -> I b) ->
  I s -> forM xs body s = Ok s' ->
  forall x, x ∈ xs -> exists a b, I a /\ body x a = Ok b.
Proof.
  revert s. induction xs as [|y xs IH]; intros s Hstep Hs Hrun x Hx.
  - by apply elem_of_nil in Hx.
  - simpl in Hrun. apply bind_Ok in Hrun as (m & Hm & Hrest).
    apply elem_of_cons in Hx as [->|Hx]; [by exists s, m|].
    apply (IH m); try assumption.
    + intros z a b Hz. apply Hstep. by right.
    + eapply Hstep; [left|exact Hs|exact Hm].
Qed.

(** A loop in which every iteration adds to an observation of the state
    what its element contributes: the loop adds the contributions of all
    elements. *)
Lemma forM_collect {A S U : Type} (I : S -> Prop) (P : S -> U -> Prop)
    (Q : A -> U -> Prop) (xs : list A) (body : A -> S -> result S) (s s' : S) :
  (forall x a b, x ∈ xs -> I a -> body x a = Ok b ->
     I b /\ forall u, P b u <-> P a u \/ Q x u) ->
  I s -> forM xs body s = Ok s' ->
  I s' /\ forall u, P s' u <-> P s u \/ exists x, x ∈ xs /\ Q x u.
Proof.
  revert s. induction xs as [|y xs IH]; intros s Hstep Hs Hrun.
  - injection Hrun as <-. split; [exact Hs|]. intros u. split; [auto|].
    intros [H|(x & Hx & _)]; [exact H|by apply elem_of_nil in Hx].
  - simpl in Hrun. apply bind_Ok in Hrun as (m & Hm & Hrest).
    destruct (Hstep y s m) as [Im Pm]; [left|exact Hs|exact Hm|].
    destruct (IH m) as [Is' Ps']; [|exact Im|exact Hrest|].
    { intros z a b Hz. apply Hstep. by right. }
    split; [exact Is'|]. intros u. rewrite Ps', Pm. split.
    + intros [[H|H]|(x & Hx & H)]; [by left| |].
      * right. exists y. split; [left|exact H].
      * right. exists x. split; [by right|exact H].
    + intros [H|(x & Hx & H)]; [by left; left|].
      apply elem_of_cons in Hx as [->|Hx]; [by left; right|].
      right. eauto.
Qed.

(** A loop whose bodies either pass or fail with one fixed error. *)
Lemma forEach_uniform {A : Type} (xs : list A) (body : A -> result unit)
    (e : error) :
  (forall x, x ∈ xs -> body x = Ok tt \/ body x = Err e) ->
  (forEach xs body = Ok tt /\ forall x, x ∈ xs -> body x = Ok tt)
  \/ (forEach xs body = Err e /\ exists x, x ∈ xs /\ body x = Err e).
Proof.
  unfold forEach. induction xs as [|x xs IH]; intros Hbody; simpl.
  - left. split; [reflexivity|]. intros x Hx. by apply elem_of_nil in Hx.
  - destruct (Hbody x) as [Hx|Hx]; [left| |].
    + rewrite Hx. simpl.
      destruct IH as [[Hrun Hall]|[Hrun (y & Hy & Hbad)]].
      * intros y Hy. apply Hbody. by right.
      * left. split; [exact Hrun|]. intros y Hy.
        apply elem_of_cons in Hy as [->|Hy]; auto.
      * right. split; [exact Hrun|]. exists y. split; [by right|exact Hbad].
    + right. rewrite Hx. split; [reflexivity|]. exists x. split; [left|exact Hx].
Qed.


(** An error of the loop is the error of one of its bodies. *)
Lemma forEach_Err {A : Type} (xs : list A) (body : A -> result unit) (e : error) :
  forEach xs body = Err e -> exists x, x ∈ xs /\ body x = Err e.
Proof.
  unfold forEach. induction xs as [|x xs IH]; simpl; [discriminate|].
  destruct (body x) as [[]|e'|p] eqn:Hx; simpl.
  - intros H. destruct (IH H) as (y & Hy & Hby). exists y. split; [by right|exact Hby].
  - intros [= ->]. exists x. split; [left|exact Hx].
  - discriminate.
Qed.

(** A panic of the loop is the panic of one of its bodies, run from a state
    that satisfies the invariant. *)
Lemma forM_Panic {A S : Type} (I : S -> Prop) (xs : list A)
    (body : A -> S -> result S) (s : S) (p : panic) :
  (forall x a b, x ∈ xs -> I a -> body x a = Ok b -> I b) ->
  I s -> forM xs body s = Panic p ->
  exists x a, x ∈ xs /\ I a /\ body x a = Panic p.
Proof.
  revert s. induction xs as [|y xs IH]; intros s Hstep Hs; simpl; [discriminate|].
  destruct (body y s) as [m|e|q] eqn:Hy; simpl.
  - intros Hrest. destruct (IH m) as (x & a & Hx & Ha & Hbody); try assumption.
    + intros z a b Hz. apply Hstep. by right.
    + eapply Hstep; [left|exact Hs|exact Hy].
    + exists x, a. split; [by right|auto].
  - discriminate.
  - intros [= ->]. exists y, s. split; [left|auto].
Qed.

(** ** Type references *)

Lemma typeRef_ind (P : introspectionTypeRef -> Prop) :
  (forall k n, P (mkTypeRef k n None)) ->
  (forall k n t, P t -> P (mkTypeRef k n (Some t))) ->
  forall t, P t.
Proof.
  intros Hbase Hstep. fix IH 1. intros [k n [t|]].
  - apply Hstep, IH.
  - apply Hbase.
Qed.

(** The reference [lookupType] returns has one of the five named kinds. *)
Lemma lookupType'_named t raw :
  lookupType' t = Ok raw -> isNamedKind (ref_Kind raw) = true.
Proof.
  induction t as [k n|k n t IH] using typeRef_ind; simpl.
  - destruct (isNamedKind k) eqn:Hk.
    + intros [= <-]. exact Hk.
    + destruct (isWrapperKind k); discriminate.
  - destruct (isNamedKind k) eqn:Hk.
    + intros [= <-]. exact Hk.
    + destruct (isWrapperKind k); [exact IH|discriminate].
Qed.

(** [lookupTypeRef] reads the table only to test whether a name is
    present: two tables with the same names resolve every reference alike. *)
Lemma lookupTypeRef'_dom t (all1 all2 : gmap string GType) :
  (forall n, is_Some (all1 !! n) <-> is_Some (all2 !! n)) ->
  lookupTypeRef' t all1 = lookupTypeRef' t all2.
Proof.
  intros Hdom.
  assert (Hn : forall n,
    match all1 !! n with None => Err (ETypeNotFound n) | Some _ => Ok (TNamed n) end
    = match all2 !! n with None => Err (ETypeNotFound n) | Some _ => Ok (TNamed n) end).
  { intros n. specialize (Hdom n).
    destruct (all1 !! n) as [g1|] eqn:H1, (all2 !! n) as [g2|] eqn:H2; try reflexivity.
    - destruct (proj1 Hdom) as [? ?]; [eauto|discriminate].
    - destruct (proj2 Hdom) as [? ?]; [eauto|discriminate]. }
  induction t as [k n|k n t IH] using typeRef_ind; simpl.
  - rewrite (Hn n). reflexivity.
  - rewrite (Hn n), IH. reflexivity.
Qed.

Lemma lookupTypeRef_dom t (all1 all2 : gmap string GType) :
  (forall n, is_Some (all1 !! n) <-> is_Some (all2 !! n)) ->
  lookupTypeRef t all1 = lookupTypeRef t all2.
Proof. intros H. destruct t; simpl; [by apply lookupTypeRef'_dom|reflexivity]. Qed.

(** Neither lookup panics. *)
Lemma lookupTypeRef'_no_panic t all p : lookupTypeRef' t all <> Panic p.
Proof.
  induction t as [k n|k n t IH] using typeRef_ind; simpl.
  - destruct (isNamedKind k); [destruct (all !! n); discriminate|].
    repeat case_bool_decide; discriminate.
  - destruct (isNamedKind k); [destruct (all !! n); discriminate|].
    destruct (lookupTypeRef' t all) eqn:Ht; simpl;
      repeat case_bool_decide; try discriminate; congruence.
Qed.

Lemma lookupTypeRef_no_panic t all p : lookupTypeRef t all <> Panic p.
Proof. destruct t; simpl; [apply lookupTypeRef'_no_panic|discriminate]. Qed.

(** ** parseInputFields *)




(** ** Pass 1 of parseSchema *)

Lemma shellOf_known typ : is_Some (shellOf typ) <-> knownKind typ.
Proof.
  unfold shellOf, knownKind, isNamedKind, namedKinds.
  rewrite bool_decide_eq_true, !elem_of_cons, elem_of_nil.
  repeat case_bool_decide; split; intros HH; eauto 10;
    try (destruct HH as [? HH]; discriminate HH).
  destruct HH as [?|[?|[?|[?|[?|[]]]]]]; congruence.
Qed.

Lemma declareType_fresh typ all :
  all !! type_Name typ = None ->
  declareType typ all
  = match shellOf typ with
    | Some g => Ok (<[type_Name typ := g]> all)
    | None => Err (EUnknownTypeKind (type_Kind typ))
    end.
Proof.
  intros H. unfold declareType, shellOf. rewrite H.
  repeat case_bool_decide; reflexivity.
Qed.

Lemma declareType_dup typ all g :
  all !! type_Name typ = Some g ->
  declareType typ all = Err (EDuplicateType (type_Name typ)).
Proof. intros H. unfold declareType. by rewrite H. Qed.

(** The three ways pass 1 can end. It never panics; an error is the one of
    the first entry that repeats a name or has an unknown kind. *)
Lemma declare_cases types (all0 : gmap string GType) :
  (exists all, forM types declareType all0 = Ok all
     /\ NoDup (typeNames types)
     /\ (forall typ, typ ∈ types -> knownKind typ /\ all0 !! type_Name typ = None)
     /\ (forall typ, typ ∈ types -> all !! type_Name typ = shellOf typ)
     /\ (forall n, n ∉ typeNames types -> all !! n = all0 !! n))
  \/ (exists pre typ post, types = (pre ++ typ :: post)%list
     /\ (type_Name typ ∈ typeNames pre \/ is_Some (all0 !! type_Name typ))
     /\ forM types declareType all0 = Err (EDuplicateType (type_Name typ)))
  \/ (exists typ, typ ∈ types /\ ~ knownKind typ
     /\ forM types declareType all0 = Err (EUnknownTypeKind (type_Kind typ))).
Proof.
  revert all0. induction types as [|typ types IH]; intros all0.
  - left. exists all0. simpl. split; [reflexivity|]. split; [constructor|].
    split; [intros ? H; by apply elem_of_nil in H|].
    split; [intros ? H; by apply elem_of_nil in H|auto].
  - simpl. destruct (all0 !! type_Name typ) as [g|] eqn:Hfresh.
    { right; left. exists [], typ, types. split; [reflexivity|].
      split; [right; eauto|]. by rewrite (declareType_dup typ all0 g). }
    rewrite (declareType_fresh typ all0 Hfresh).
    destruct (shellOf typ) as [g|] eqn:Hshell; simpl.
    2:{ right; right. exists typ. split; [left|]. split; [|reflexivity].
        intros Hk. apply shellOf_known in Hk as [? ?]. congruence. }
    destruct (IH (<[type_Name typ := g]> all0))
      as [(all & Hrun & Hnd & Hin & Hshells & Hout)
         |[(pre & t & post & -> & Hdup & Hrun)|(t & Ht & Hk & Hrun)]].
    + left. exists all. split; [exact Hrun|].
      assert (Hnotin : type_Name typ ∉ typeNames types).
      { intros Hn. apply list_elem_of_fmap in Hn as (t & Hname & Ht).
        destruct (Hin t Ht) as [_ Hnone]. rewrite <- Hname in Hnone.
        by rewrite lookup_insert_eq in Hnone. }
      split; [constructor; assumption|].
      split; [|split].
      * intros t Ht. apply elem_of_cons in Ht as [->|Ht].
        { split; [apply shellOf_known; eauto|exact Hfresh]. }
        destruct (Hin t Ht) as [Hk Hnone]. split; [exact Hk|].
        destruct (decide (type_Name typ = type_Name t)) as [Heq|Hne].
        { rewrite Heq in Hnone. by rewrite lookup_insert_eq in Hnone. }
        by rewrite lookup_insert_ne in Hnone.
      * intros t Ht. apply elem_of_cons in Ht as [->|Ht]; [|by apply Hshells].
        rewrite (Hout _ Hnotin), lookup_insert_eq. by rewrite Hshell.
      * intros n Hn. change (n ∉ type_Name typ :: typeNames types) in Hn.
        apply not_elem_of_cons in Hn as [Hne Hn].
        rewrite (Hout n Hn). by rewrite lookup_insert_ne.
    + right; left. exists (typ :: pre), t, post. split; [reflexivity|].
      split; [|exact Hrun].
      destruct Hdup as [Hdup|Hdup].
      * left. change (type_Name t ∈ type_Name typ :: typeNames pre). by right.
      * destruct (decide (type_Name typ = type_Name t)) as [Heq|Hne].
        { left. change (type_Name t ∈ type_Name typ :: typeNames pre).
          rewrite Heq. left. }
        right. by rewrite lookup_insert_ne in Hdup.
    + right; right. exists t. split; [by right|]. split; assumption.
Qed.

(** ** Pass 2 of parseSchema *)

#[global] Instance sameHead_preorder : PreOrder sameHead.
Proof.
  split.
  - intros []; simpl; reflexivity.
  - intros [] [] []; simpl; try tauto; congruence.
Qed.

#[global] Instance sameHeads_preorder : PreOrder sameHeads.
Proof.
  split.
  - intros all n. destruct (all !! n); constructor. reflexivity.
  - intros a b c Hab Hbc n. specialize (Hab n). specialize (Hbc n).
    destruct Hab; inversion Hbc; subst; constructor. by etrans.
Qed.

Lemma sameHeads_is_Some all all' n :
  sameHeads all all' -> is_Some (all !! n) <-> is_Some (all' !! n).
Proof.
  intros H. specialize (H n). destruct H; split; intros [? ?]; eauto; discriminate.
Qed.

Lemma sameHeads_insert all n g g' :
  all !! n = Some g -> sameHead g g' -> sameHeads all (<[n := g']> all).
Proof.
  intros Hn Hg m. destruct (decide (n = m)) as [<-|Hne].
  - rewrite lookup_insert_eq, Hn. by constructor.
  - rewrite lookup_insert_ne by done. destruct (all !! m); constructor. reflexivity.
Qed.

Lemma noKeys_insert_other all n g :
  (forall name fields, g <> Object name fields) ->
  noKeys all -> noKeys (<[n := g]> all).
Proof.
  intros Hg Hall m name fields k f Hm Hk.
  destruct (decide (n = m)) as [<-|Hne].
  - rewrite lookup_insert_eq in Hm. injection Hm as ->. by destruct (Hg name fields).
  - rewrite lookup_insert_ne in Hm by done. by eapply Hall.
Qed.

Lemma parseField_noKeys typName all field (fields fields' : gmap string Field) :
  (forall k f, fields !! k = Some f -> FederatedKey f = None) ->
  parseField typName all field fields = Ok fields' ->
  forall k f, fields' !! k = Some f -> FederatedKey f = None.
Proof.
  intros Hold. unfold parseField. intros Hrun.
  apply bind_Ok in Hrun as (ft & _ & Hrun).
  apply bind_Ok in Hrun as (parsed & _ & Hrun).
  injection Hrun as <-. intros k f.
  destruct (decide (field_Name field = k)) as [<-|Hne].
  - rewrite lookup_insert_eq. by intros [= <-].
  - rewrite lookup_insert_ne by done. apply Hold.
Qed.

Lemma populateType_Ok typ all all' :
  populateType typ all = Ok all' ->
  sameHeads all all' /\ (noKeys all -> noKeys all').
Proof.
  unfold populateType. repeat case_bool_decide.
  - intros Hrun. apply bind_Ok in Hrun as (fields & Hfields & Hrun).
    destruct (all !! type_Name typ) as [[name old| | | |]|] eqn:Hn; try discriminate.
    injection Hrun as <-. split.
    + by apply (sameHeads_insert all _ (Object name old)).
    + intros Hall m name' fields' k f Hm Hk.
      destruct (decide (type_Name typ = m)) as [<-|Hne].
      * rewrite lookup_insert_eq in Hm. injection Hm as <- <-.
        revert k f Hk.
        apply (forM_invariant
                 (fun fs : gmap string Field =>
                    forall k f, fs !! k = Some f -> FederatedKey f = None)
                 (type_Fields typ) (parseField (type_Name typ) all) ∅ fields);
          [|intros k f; by rewrite lookup_empty|exact Hfields].
        intros x a b _ Ha Hb. by eapply parseField_noKeys.
      * rewrite lookup_insert_ne in Hm by done. by eapply Hall.
  - intros Hrun. apply bind_Ok in Hrun as (parsed & _ & Hrun).
    destruct (all !! type_Name typ) as [[|name old| | |]|] eqn:Hn; try discriminate.
    injection Hrun as <-. split.
    + by apply (sameHeads_insert all _ (InputObject name old)).
    + by apply noKeys_insert_other.
  - intros Hrun. apply bind_Ok in Hrun as (types & _ & Hrun).
    destruct (all !! type_Name typ) as [[| | |name old|]|] eqn:Hn; try discriminate.
    injection Hrun as <-. split.
    + by apply (sameHeads_insert all _ (Union name old)).
    + by apply noKeys_insert_other.
  - destruct (all !! type_Name typ) as [[| | | |name v r]|] eqn:Hn; try discriminate.
    intros [= <-]. split.
    + by apply (sameHeads_insert all _ (Enum name v r)).
    + by apply noKeys_insert_other.
  - intros [= <-]. split; [reflexivity|auto].
  - discriminate.
Qed.

Lemma populate_Ok types all all' :
  forM types populateType all = Ok all' ->
  sameHeads all all' /\ (noKeys all -> noKeys all').
Proof.
  intros Hrun. split.
  - apply (forM_rel sameHeads types populateType all all'); [|exact Hrun].
    intros x a b _ Hb. by apply populateType_Ok in Hb as [? _].
  - intros Hall.
    apply (forM_invariant noKeys types populateType all all'); [|exact Hall|exact Hrun].
    intros x a b _ Ha Hb. apply populateType_Ok in Hb as [_ Hb]. auto.
Qed.

(** What a successful [parseSchema] says about its input and its table. *)
Lemma parseSchema_Ok schema all :
  parseSchema schema = Ok all ->
  NoDup (typeNames (Types (Schema schema)))
  /\ (forall typ, typ ∈ Types (Schema schema) -> knownKind typ)
  /\ (forall n, is_Some (all !! n) <-> n ∈ typeNames (Types (Schema schema)))
  /\ (forall typ g, typ ∈ Types (Schema schema) -> shellOf typ = Some g ->
        exists g', all !! type_Name typ = Some g' /\ sameHead g g')
  /\ noKeys all.
Proof.
  unfold parseSchema. intros Hrun.
  apply bind_Ok in Hrun as (all1 & Hpass1 & Hpass2).
  destruct (declare_cases (Types (Schema schema)) ∅)
    as [(all1' & Hrun1 & Hnd & Hin & Hshells & Hout)
       |[(pre & t & post & _ & _ & Hrun1)|(t & _ & _ & Hrun1)]];
    rewrite Hrun1 in Hpass1; try discriminate.
  injection Hpass1 as ->.
  apply populate_Ok in Hpass2 as [Hheads Hkeys].
  split; [exact Hnd|]. split; [intros typ Ht; by apply Hin|].
  assert (Hdom1 : forall n, is_Some (all1 !! n) <-> n ∈ typeNames (Types (Schema schema))).
  { intros n. split.
    - intros Hn. destruct (decide (n ∈ typeNames (Types (Schema schema)))) as [|Hno];
        [assumption|].
      rewrite (Hout n Hno), lookup_empty in Hn. by destruct Hn.
    - intros Hn. apply list_elem_of_fmap in Hn as (t & -> & Ht).
      rewrite (Hshells t Ht). apply shellOf_known. by apply Hin. }
  split; [|split].
  - intros n. rewrite <- (sameHeads_is_Some all1 all n Hheads). apply Hdom1.
  - intros typ g Ht Hg. specialize (Hheads (type_Name typ)).
    rewrite (Hshells typ Ht), Hg in Hheads. inversion Hheads; subst. eauto.
  - apply Hkeys. intros n name fields k f Hn Hk.
    destruct (decide (n ∈ typeNames (Types (Schema schema)))) as [Hyes|Hno].
    + apply list_elem_of_fmap in Hyes as (t & -> & Ht).
      rewrite (Hshells t Ht) in Hn. unfold shellOf in Hn.
      repeat case_bool_decide; try discriminate.
      injection Hn as <- <-. by rewrite lookup_empty in Hk.
    + by rewrite (Hout n Hno), lookup_empty in Hn.
Qed.

(** Every object of the parsed table is filed under its own name. *)
Lemma parseSchema_object_names schema all n name fields :
  parseSchema schema = Ok all ->
  all !! n = Some (Object name fields) -> name = n.
Proof.
  intros Hparse Hn.
  apply parseSchema_Ok in Hparse as (_ & Hknown & Hdom & Hshells & _).
  assert (Hin : n ∈ typeNames (Types (Schema schema))) by (apply Hdom; eauto).
  apply list_elem_of_fmap in Hin as (typ & -> & Htyp).
  destruct (proj2 (shellOf_known typ) (Hknown typ Htyp)) as [g Hg].
  destruct (Hshells typ g Htyp Hg) as (g' & Hg' & Hsame).
  rewrite Hn in Hg'. injection Hg' as <-.
  unfold shellOf in Hg. repeat case_bool_decide; try discriminate;
    injection Hg as <-; simpl in Hsame; try tauto. congruence.
Qed.



(** ** The annotation pass only adds *)

#[global] Instance sameFrame_preorder : PreOrder sameFrame.
Proof.
  split.
  - intros []; simpl; auto.
  - intros [] [] []; simpl; try tauto; try congruence.
    intros [-> H1] [-> H2]. split; [reflexivity|].
    intros k. by rewrite H1.
Qed.

#[global] Instance typesLe_preorder : PreOrder typesLe.
Proof.
  split.
  - intros t. split; [|auto].
    intros n. destruct (t !! n); constructor. reflexivity.
  - intros a b c [Hab Kab] [Hbc Kbc]. split; [|auto].
    intros n. specialize (Hab n). specialize (Hbc n).
    destruct Hab; inversion Hbc; subst; constructor. by etrans.
Qed.

#[global] Instance infosLe_preorder : PreOrder infosLe.
Proof. split; [intros i f s; auto|intros a b c Hab Hbc f s H; auto]. Qed.

#[global] Instance stateLe_preorder : PreOrder stateLe.
Proof.
  split.
  - intros st. split; reflexivity.
  - intros a b c [H1 H2] [H3 H4]. split; by etrans.
Qed.

Lemma typesLe_lookup_Object types types' n name fields :
  typesLe types types' -> types !! n = Some (Object name fields) ->
  exists fields', types' !! n = Some (Object name fields')
    /\ forall k, is_Some (fields !! k) <-> is_Some (fields' !! k).
Proof.
  intros [H _] Hn. specialize (H n). rewrite Hn in H.
  inversion H as [g g' Hg|]; subst. destruct g'; simpl in Hg; try tauto.
  destruct Hg as [-> Hg]. eauto.
Qed.

Lemma typesLe_lookup_Object_inv types types' n name fields' :
  typesLe types types' -> types' !! n = Some (Object name fields') ->
  exists fields, types !! n = Some (Object name fields)
    /\ forall k, is_Some (fields !! k) <-> is_Some (fields' !! k).
Proof.
  intros [H _] Hn. specialize (H n). rewrite Hn in H.
  inversion H as [g g' Hg|]; subst. destruct g; simpl in Hg; try tauto;
    try discriminate.
  destruct Hg as [-> Hg]. eauto.
Qed.

Lemma typesLe_lookup_other types types' n g :
  typesLe types types' -> types !! n = Some g ->
  (forall name fields, g <> Object name fields) ->
  types' !! n = Some g.
Proof.
  intros [H _] Hn Hg. specialize (H n). rewrite Hn in H.
  inversion H as [g1 g' Hf|]; subst.
  destruct g, g'; simpl in Hf; try tauto; congruence.
Qed.

Lemma typesLe_lookup_None types types' n :
  typesLe types types' -> types !! n = None <-> types' !! n = None.
Proof.
  intros [H _]. specialize (H n). destruct H; split; congruence.
Qed.

Lemma typesLe_objectFields types types' n k :
  typesLe types types' ->
  is_Some (objectFields types n !! k) <-> is_Some (objectFields types' n !! k).
Proof.
  intros Hle. unfold objectFields.
  destruct (types !! n) as [g|] eqn:Hn.
  - destruct g as [name fields| | | |].
    { destruct (typesLe_lookup_Object _ _ _ _ _ Hle Hn) as (fields' & -> & Hk).
      apply Hk. }
    all: rewrite (typesLe_lookup_other _ _ _ _ Hle Hn) by discriminate; reflexivity.
  - apply (typesLe_lookup_None _ _ _ Hle) in Hn. rewrite Hn. reflexivity.
Qed.

Lemma typesLe_objectName types types' n :
  typesLe types types' -> objectName types n = objectName types' n.
Proof.
  intros Hle. unfold objectName.
  destruct (types !! n) as [g|] eqn:Hn.
  - destruct g as [name fields| | | |].
    { by destruct (typesLe_lookup_Object _ _ _ _ _ Hle Hn) as (fields' & -> & _). }
    all: rewrite (typesLe_lookup_other _ _ _ _ Hle Hn) by discriminate; reflexivity.
  - apply (typesLe_lookup_None _ _ _ Hle) in Hn. by rewrite Hn.
Qed.

(** [setFederatedKey] sets the key of its field and moves the table up. *)
Lemma keyAt_setFederatedKey types O K service O' K' service' :
  keyAt (setFederatedKey O K service types) O' K' service'
  = keyAt types O' K' service'
    || (bool_decide (O = O' /\ K = K' /\ service = service')
        && bool_decide (is_Some (objectFields types O !! K))).
Proof.
  assert (Hno : is_Some (objectFields types O !! K) -> 
                exists name fields f, types !! O = Some (Object name fields)
                                      /\ fields !! K = Some f).
  { unfold objectFields. destruct (types !! O) as [[name fields| | | |]|];
      try (rewrite lookup_empty; intros [? ?]; discriminate).
    intros [f Hf]. eauto. }
  destruct (decide (is_Some (objectFields types O !! K))) as [Hyes|Hnot].
  - rewrite (bool_decide_eq_true_2 _ Hyes), andb_true_r.
    destruct (Hno Hyes) as (name & fields & f & HO & HK).
    unfold setFederatedKey. rewrite HO, HK. unfold keyAt.
    destruct (decide (O = O')) as [<-|HneO].
    + rewrite lookup_insert_eq, HO.
      destruct (decide (K = K')) as [<-|HneK].
      * rewrite lookup_insert_eq, HK. simpl. unfold lookupBool.
        destruct (decide (service = service')) as [<-|Hnes].
        -- rewrite lookup_insert_eq. simpl.
           rewrite bool_decide_eq_true_2 by auto. by rewrite orb_true_r.
        -- rewrite lookup_insert_ne by done.
           rewrite bool_decide_eq_false_2 by (intros (_ & _ & ?); done).
           by rewrite orb_false_r.
      * rewrite lookup_insert_ne by done.
        rewrite bool_decide_eq_false_2 by (intros (_ & ? & _); done).
        by rewrite orb_false_r.
    + rewrite lookup_insert_ne by done.
      rewrite bool_decide_eq_false_2 by (intros (? & _ & _); done).
      by rewrite orb_false_r.
  - rewrite (bool_decide_eq_false_2 _ Hnot), andb_false_r, orb_false_r.
    unfold setFederatedKey.
    destruct (types !! O) as [[name fields| | | |]|] eqn:HO; try reflexivity.
    destruct (fields !! K) as [f|] eqn:HK; [|reflexivity].
    exfalso. apply Hnot. unfold objectFields. rewrite HO. eauto.
Qed.

Lemma setFederatedKey_le types O K service :
  typesLe types (setFederatedKey O K service types).
Proof.
  split.
  - intros n. unfold setFederatedKey.
    destruct (types !! O) as [[name fields| | | |]|] eqn:HO;
      try (destruct (types !! n); constructor; reflexivity).
    destruct (fields !! K) as [f|] eqn:HK;
      try (destruct (types !! n); constructor; reflexivity).
    destruct (decide (O = n)) as [<-|Hne].
    + rewrite lookup_insert_eq, HO. constructor. simpl. split; [reflexivity|].
      intros k. destruct (decide (K = k)) as [<-|HneK].
      * rewrite lookup_insert_eq, HK. split; eauto.
      * by rewrite lookup_insert_ne.
    + rewrite lookup_insert_ne by done. destruct (types !! n); constructor. reflexivity.
  - intros O' K' s' H. rewrite keyAt_setFederatedKey, H. reflexivity.
Qed.

Lemma sameFrame_sym g g' : sameFrame g g' -> sameFrame g' g.
Proof.
  destruct g, g'; simpl; try tauto; try congruence.
  intros [-> H]. split; [reflexivity|]. intros k. by rewrite H.
Qed.

Lemma typesLe_lookup_other_inv types types' n g :
  typesLe types types' -> types' !! n = Some g ->
  (forall name fields, g <> Object name fields) ->
  types !! n = Some g.
Proof.
  intros [H _] Hn Hg. specialize (H n). rewrite Hn in H.
  inversion H as [g1 g' Hf|]; subst.
  destruct g1, g; simpl in Hf; try tauto; congruence.
Qed.

Lemma argHasKey_le types types' arg K :
  typesLe types types' -> argHasKey types arg K <-> argHasKey types' arg K.
Proof.
  intros Hle. split; intros (root & iname & ifields & Hroot & Hin & HK);
    exists root, iname, ifields; split; try assumption; split; try assumption.
  - by apply (typesLe_lookup_other _ _ _ _ Hle Hin).
  - by apply (typesLe_lookup_other_inv _ _ _ _ Hle Hin).
Qed.

Section Annotation.

Context (O : MapOrder).

Lemma range_lookup {A : Type} (m : gmap string A) (k : string) (v : A) :
  (k, v) ∈ range O m <-> m !! k = Some v.
Proof. rewrite (range_perm O A m). apply elem_of_map_to_list. Qed.

Lemma range_keys {A : Type} (m : gmap string A) (k : string) :
  k ∈ (fst <$> range O m) <-> is_Some (m !! k).
Proof.
  rewrite list_elem_of_fmap. split.
  - intros ([k' v] & -> & H). apply range_lookup in H. eauto.
  - intros [v H]. exists (k, v). split; [reflexivity|by apply range_lookup].
Qed.

(** The loop of [annotateArg] that marks the federated keys. *)
Lemma markKeys_spec objName service (inputFields : gmap string TypeExpr)
    (l : list (string * Field)) types :
  let types' :=
    fold_left (fun tys '(fName, _) =>
                 if bool_decide (is_Some (inputFields !! fName))
                 then setFederatedKey objName fName service tys
                 else tys) l types in
  typesLe types types'
  /\ forall O' K' s',
       keyAt types' O' K' s' = true <->
       keyAt types O' K' s' = true
       \/ (O' = objName /\ s' = service /\ K' ∈ (fst <$> l)
           /\ is_Some (inputFields !! K')
           /\ is_Some (objectFields types objName !! K')).
Proof.
  revert types. induction l as [|[fName f] l IH]; intros types; simpl.
  - split; [reflexivity|]. intros O' K' s'. split; [auto|].
    intros [H|(_ & _ & H & _)]; [exact H|by apply elem_of_nil in H].
  - set (types1 := if bool_decide (is_Some (inputFields !! fName))
                   then setFederatedKey objName fName service types else types).
    assert (Hle1 : typesLe types types1).
    { unfold types1. case_bool_decide; [apply setFederatedKey_le|reflexivity]. }
    destruct (IH types1) as [Hle Hkeys]. split; [by etrans|].
    intros O' K' s'. rewrite Hkeys.
    assert (Hstep : keyAt types1 O' K' s' = true <->
              keyAt types O' K' s' = true
              \/ (O' = objName /\ s' = service /\ K' = fName
                  /\ is_Some (inputFields !! K')
                  /\ is_Some (objectFields types objName !! K'))).
    { unfold types1. case_bool_decide as Hin.
      - rewrite keyAt_setFederatedKey, orb_true_iff, andb_true_iff,
          !bool_decide_eq_true.
        split; (intros [H|H]; [by left|right]).
        + destruct H as ((-> & -> & ->) & H). auto.
        + destruct H as (-> & -> & -> & _ & H). auto.
      - split; [auto|]. intros [H|(_ & _ & -> & H & _)]; [exact H|by destruct Hin]. }
    rewrite Hstep.
    setoid_rewrite <- (typesLe_objectFields types types1 objName K' Hle1).
    rewrite elem_of_cons. simpl. tauto.
Qed.

Lemma annotateArg_spec serviceNames byName service field objName arg types types' :
  annotateArg O serviceNames byName service field objName arg types = Ok types' ->
  typesLe types types'
  /\ (exists root inputName inputFields,
        getRootType (input_Type arg) = Ok root
        /\ types !! ref_Name root = Some (InputObject inputName inputFields))
  /\ (forall K, argHasKey types arg K ->
        validateFederationKeys serviceNames byName (objectName types objName) K
        = Ok tt
        /\ is_Some (objectFields types objName !! K))
  /\ (forall O' K' s',
        keyAt types' O' K' s' = true <->
        keyAt types O' K' s' = true
        \/ (O' = objName /\ s' = service /\ argHasKey types arg K')).
Proof.
  unfold annotateArg. intros Hrun.
  apply bind_Ok in Hrun as (root & Hroot & Hrun).
  destruct (types !! ref_Name root) as [[|iname inputFields| | |]|] eqn:Hin;
    try discriminate.
  apply bind_Ok in Hrun as (u & Hchecks & Hrun).
  injection Hrun as <-.
  pose proof (proj1 (forEach_Ok_unit _ _ _) Hchecks) as Hchecks'.
  clear Hchecks. rename Hchecks' into Hchecks.
  assert (Hall : forall K, is_Some (inputFields !! K) ->
            validateFederationKeys serviceNames byName (objectName types objName) K
            = Ok tt
            /\ is_Some (objectFields types objName !! K)).
  { intros K [v HK]. specialize (Hchecks (K, v)). simpl in Hchecks.
    apply bind_Ok in Hchecks as ([] & Hv & Hf); [|by apply range_lookup].
    split; [exact Hv|]. case_bool_decide; [assumption|discriminate]. }
  assert (Hkey : forall K, argHasKey types arg K <-> is_Some (inputFields !! K)).
  { intros K. split.
    - intros (root' & iname' & ifields' & Hroot' & Hin' & HK).
      rewrite Hroot in Hroot'. injection Hroot' as <-.
      rewrite Hin in Hin'. by injection Hin' as <- <-.
    - intros HK. exists root, iname, inputFields. auto. }
  destruct (markKeys_spec objName service inputFields
              (range O (objectFields types objName)) types) as [Hle Hkeys].
  split; [exact Hle|]. split; [eauto|]. split.
  - intros K HK. apply Hall. by apply Hkey.
  - intros O' K' s'. rewrite Hkeys. split; (intros [H|H]; [by left|right]).
    + destruct H as (-> & -> & _ & H & _). split; [reflexivity|].
      split; [reflexivity|]. by apply Hkey.
    + destruct H as (-> & -> & H). apply Hkey in H.
      split; [reflexivity|]. split; [reflexivity|].
      split; [apply range_keys; by apply Hall|]. split; [exact H|by apply Hall].
Qed.

End Annotation.

Lemma entryAccepted_le serviceNames byName types types' field :
  typesLe types types' ->
  entryAccepted serviceNames byName types field <->
  entryAccepted serviceNames byName types' field.
Proof.
  intros Hle. split; intros (prefix & objName & Hsplit & (n & fs & Hobj) & Hargs);
    exists prefix, objName; (split; [exact Hsplit|]); split.
  - destruct (typesLe_lookup_Object _ _ _ _ _ Hle Hobj) as (fs' & ? & _). eauto.
  - intros arg Harg. destruct (Hargs arg Harg) as [(root & iname & ifs & Hroot & Hin) HK].
    split.
    + exists root, iname, ifs. split; [exact Hroot|].
      by apply (typesLe_lookup_other _ _ _ _ Hle Hin).
    + intros K HKarg. apply (argHasKey_le _ _ _ _ Hle) in HKarg.
      destruct (HK K HKarg) as [Hv Hf]. split.
      * by rewrite <- (typesLe_objectName _ _ objName Hle).
      * by apply (typesLe_objectFields _ _ objName K Hle).
  - destruct (typesLe_lookup_Object_inv _ _ _ _ _ Hle Hobj) as (fs' & ? & _). eauto.
  - intros arg Harg. destruct (Hargs arg Harg) as [(root & iname & ifs & Hroot & Hin) HK].
    split.
    + exists root, iname, ifs. split; [exact Hroot|].
      by apply (typesLe_lookup_other_inv _ _ _ _ Hle Hin).
    + intros K HKarg. apply (argHasKey_le _ _ _ _ Hle) in HKarg.
      destruct (HK K HKarg) as [Hv Hf]. split.
      * by rewrite (typesLe_objectName _ _ objName Hle).
      * by apply (typesLe_objectFields _ _ objName K Hle).
Qed.

Lemma serviceAt_addService f service infos p s :
  serviceAt (addService f service infos) p s = true <->
  serviceAt infos p s = true \/ (p = f /\ s = service).
Proof.
  unfold addService, serviceAt.
  destruct (decide (f = p)) as [<-|Hne].
  - rewrite lookup_insert_eq. simpl. unfold lookupBool.
    destruct (decide (service = s)) as [<-|Hnes].
    + rewrite lookup_insert_eq. simpl. split; auto.
    + rewrite lookup_insert_ne by done.
      destruct (infos !! f) as [info|]; simpl.
      * split; [auto|]. intros [H|[_ H]]; [exact H|congruence].
      * rewrite lookup_empty. simpl. split; [auto|].
        intros [H|[_ H]]; [exact H|congruence].
  - rewrite lookup_insert_ne by done. split; [auto|].
    intros [H|[H _]]; [exact H|congruence].
Qed.

Lemma addServices_spec typName (fields : gmap string Field) service
    (l : list introspectionField) infos p s :
  serviceAt
    (fold_left (fun infos field =>
                  addService (fieldPtr typName fields (field_Name field))
                    service infos) l infos) p s = true <->
  serviceAt infos p s = true
  \/ (s = service /\ exists field, field ∈ l
        /\ p = fieldPtr typName fields (field_Name field)).
Proof.
  revert infos. induction l as [|field l IH]; intros infos; simpl.
  - split; [auto|]. intros [H|(_ & f & Hf & _)]; [exact H|by apply elem_of_nil in Hf].
  - rewrite IH, serviceAt_addService. split.
    + intros [[H|[-> ->]]|(-> & f & Hf & ->)]; [by left| |].
      * right. split; [reflexivity|]. exists field. split; [left|reflexivity].
      * right. split; [reflexivity|]. exists f. split; [by right|reflexivity].
    + intros [H|(-> & f & Hf & ->)]; [by left; left|].
      apply elem_of_cons in Hf as [->|Hf]; [by left; right|].
      right. split; [reflexivity|]. eauto.
Qed.

Section AnnotationLoops.

Context (O : MapOrder).

Lemma annotateEntry_spec serviceNames byName service field types types' :
  annotateEntry O serviceNames byName service field types = Ok types' ->
  typesLe types types'
  /\ entryAccepted serviceNames byName types field
  /\ (forall O' K' s',
        keyAt types' O' K' s' = true <->
        keyAt types O' K' s' = true
        \/ (s' = service /\ entryKey types field O' K')).
Proof.
  unfold annotateEntry. intros Hrun.
  destruct (SplitN2 (field_Name field)) as [|prefix [|objName [|]]] eqn:Hsplit;
    try discriminate.
  destruct (types !! objName) as [[name fields| | | |]|] eqn:Hobj; try discriminate.
  set (body := annotateArg O serviceNames byName service field objName) in Hrun.
  assert (Hstep : forall arg a b, arg ∈ field_Args field -> typesLe types a ->
            body arg a = Ok b ->
            typesLe types b
            /\ forall u : string * string * string,
                 keyAt b u.1.1 u.1.2 u.2 = true <->
                 keyAt a u.1.1 u.1.2 u.2 = true
                 \/ (u.1.1 = objName /\ u.2 = service
                     /\ argHasKey types arg u.1.2)).
  { intros arg a b _ Ha Hb. apply annotateArg_spec in Hb as (Hab & _ & _ & Hkeys).
    split; [by etrans|]. intros [[O' K'] s']. simpl. rewrite Hkeys.
    by rewrite (argHasKey_le types a arg K' Ha). }
  destruct (forM_collect (typesLe types)
              (fun t (u : string * string * string) =>
                 keyAt t u.1.1 u.1.2 u.2 = true)
              (fun arg (u : string * string * string) =>
                 u.1.1 = objName /\ u.2 = service /\ argHasKey types arg u.1.2)
              (field_Args field) body types types')
    as [Hle Hkeys]; [exact Hstep|reflexivity|exact Hrun|].
  split; [exact Hle|]. split.
  - exists prefix, objName. split; [exact Hsplit|]. split; [eauto|].
    intros arg Harg.
    destruct (forM_elem_inv (typesLe types) (field_Args field) body types types')
      with (x := arg) as (a & b & Ha & Hb); try assumption; try reflexivity.
    { intros x a b Hx Ha Hb. by apply (Hstep x a b). }
    apply annotateArg_spec in Hb as (_ & (root & iname & ifs & Hroot & Hin) & HK & _).
    split.
    + exists root, iname, ifs. split; [exact Hroot|].
      by apply (typesLe_lookup_other_inv _ _ _ _ Ha Hin).
    + intros K HKarg. apply (argHasKey_le _ _ _ _ Ha) in HKarg.
      destruct (HK K HKarg) as [Hv Hf]. split.
      * by rewrite (typesLe_objectName _ _ objName Ha).
      * by apply (typesLe_objectFields _ _ objName K Ha).
  - intros O' K' s'. rewrite (Hkeys (O', K', s')). simpl.
    split; (intros [H|H]; [by left|right]).
    + destruct H as (arg & Harg & -> & -> & HK). split; [reflexivity|].
      exists prefix, arg. auto.
    + destruct H as (-> & prefix' & arg & Hsp & Harg & HK).
      rewrite Hsplit in Hsp. injection Hsp as <- <-. exists arg. auto.
Qed.

End AnnotationLoops.

Lemma fieldPtr_le types types' typName fieldName :
  typesLe types types' ->
  fieldPtr typName (objectFields types typName) fieldName
  = fieldPtr typName (objectFields types' typName) fieldName.
Proof.
  intros Hle. unfold fieldPtr.
  pose proof (typesLe_objectFields types types' typName fieldName Hle) as H.
  destruct (objectFields types typName !! fieldName) as [f|],
           (objectFields types' typName !! fieldName) as [f'|]; try reflexivity.
  - destruct (proj1 H) as [? ?]; [eauto|discriminate].
  - destruct (proj2 H) as [? ?]; [eauto|discriminate].
Qed.

Lemma entryKey_le types types' field O' K :
  typesLe types types' -> entryKey types field O' K <-> entryKey types' field O' K.
Proof.
  intros Hle. split; intros (prefix & arg & Hsp & Harg & HK);
    exists prefix, arg; (split; [exact Hsp|]); (split; [exact Harg|]);
    by apply (argHasKey_le types types' arg K Hle).
Qed.

Lemma typeKey_le types types' typ O' K :
  typesLe types types' -> typeKey types typ O' K <-> typeKey types' typ O' K.
Proof.
  intros Hle. split; intros (Hn & field & Hf & HK); (split; [exact Hn|]);
    exists field; (split; [exact Hf|]); by apply (entryKey_le types types' field O' K Hle).
Qed.

Lemma typeService_le types types' typ f :
  typesLe types types' -> typeService types typ f <-> typeService types' typ f.
Proof.
  intros Hle. unfold typeService.
  split; intros (Hk & field & Hf & ->); (split; [exact Hk|]); exists field;
    (split; [exact Hf|]);
    [apply fieldPtr_le|symmetry; apply fieldPtr_le]; exact Hle.
Qed.

Lemma typeAdds_le types types' service typ u :
  typesLe types types' ->
  typeAdds types service typ u <-> typeAdds types' service typ u.
Proof.
  intros Hle. destruct u as [[[O' K] s]|[f s]]; simpl.
  - by rewrite (typeKey_le types types' typ O' K Hle).
  - by rewrite (typeService_le types types' typ f Hle).
Qed.

Lemma typeAccepted_le serviceNames byName types types' typ :
  typesLe types types' ->
  typeAccepted serviceNames byName types typ <->
  typeAccepted serviceNames byName types' typ.
Proof.
  intros Hle. unfold typeAccepted. split; intros [Hfed Hobj]; split.
  - intros Hn field Hf. apply (entryAccepted_le _ _ types types' field Hle). auto.
  - intros Hk. destruct (Hobj Hk) as (n & fs & Hl).
    destruct (typesLe_lookup_Object _ _ _ _ _ Hle Hl) as (fs' & ? & _). eauto.
  - intros Hn field Hf. apply (entryAccepted_le _ _ types types' field Hle). auto.
  - intros Hk. destruct (Hobj Hk) as (n & fs & Hl).
    destruct (typesLe_lookup_Object_inv _ _ _ _ _ Hle Hl) as (fs' & ? & _). eauto.
Qed.

Section AnnotationPass.

Context (O : MapOrder).

(** The loop over the fields of a type named Federation. *)
Lemma annotateEntries_spec serviceNames byName service
    (fields : list introspectionField) types types' :
  forM fields (annotateEntry O serviceNames byName service) types = Ok types' ->
  typesLe types types'
  /\ (forall field, field ∈ fields ->
        entryAccepted serviceNames byName types field)
  /\ (forall O' K' s',
        keyAt types' O' K' s' = true <->
        keyAt types O' K' s' = true
        \/ (s' = service /\ exists field, field ∈ fields
              /\ entryKey types field O' K')).
Proof.
  intros Hrun.
  set (body := annotateEntry O serviceNames byName service) in Hrun.
  assert (Hstep : forall field a b, field ∈ fields -> typesLe types a ->
            body field a = Ok b ->
            typesLe types b
            /\ forall u : string * string * string,
                 keyAt b u.1.1 u.1.2 u.2 = true <->
                 keyAt a u.1.1 u.1.2 u.2 = true
                 \/ (u.2 = service /\ entryKey types field u.1.1 u.1.2)).
  { intros field a b _ Ha Hb. apply annotateEntry_spec in Hb as (Hab & _ & Hkeys).
    split; [by etrans|]. intros [[O' K'] s']. simpl. rewrite Hkeys.
    by rewrite (entryKey_le types a field O' K' Ha). }
  destruct (forM_collect (typesLe types)
              (fun t (u : string * string * string) =>
                 keyAt t u.1.1 u.1.2 u.2 = true)
              (fun field (u : string * string * string) =>
                 u.2 = service /\ entryKey types field u.1.1 u.1.2)
              fields body types types')
    as [Hle Hkeys]; [exact Hstep|reflexivity|exact Hrun|].
  split; [exact Hle|]. split.
  - intros field Hfield.
    destruct (forM_elem_inv (typesLe types) fields body types types')
      with (x := field) as (a & b & Ha & Hb); try assumption; try reflexivity.
    { intros x a b Hx Ha Hb. by apply (Hstep x a b). }
    apply annotateEntry_spec in Hb as (_ & Hacc & _).
    by apply (entryAccepted_le _ _ types a field Ha).
  - intros O' K' s'. rewrite (Hkeys (O', K', s')). simpl.
    split; (intros [H|H]; [by left|right]).
    + destruct H as (field & Hf & -> & HK). eauto.
    + destruct H as (-> & field & Hf & HK). eauto.
Qed.

Lemma annotateType_spec serviceNames byName service typ (st st' : AnnState) :
  annotateType O serviceNames byName service typ st = Ok st' ->
  typesLe st.1 st'.1
  /\ typeAccepted serviceNames byName st.1 typ
  /\ forall u, annotated st' u <-> annotated st u \/ typeAdds st.1 service typ u.
Proof.
  unfold annotateType. intros Hrun.
  apply bind_Ok in Hrun as (types & Htypes & Hrun).
  assert (Hfed : typesLe st.1 types
            /\ (type_Name typ = "Federation" ->
                  forall field, field ∈ type_Fields typ ->
                    entryAccepted serviceNames byName st.1 field)
            /\ (forall O' K' s',
                  keyAt types O' K' s' = true <->
                  keyAt st.1 O' K' s' = true
                  \/ (s' = service /\ typeKey st.1 typ O' K'))).
  { clear Hrun. destruct (decide (type_Name typ = "Federation")) as [Hn|Hn].
    - rewrite (bool_decide_eq_true_2 _ Hn) in Htypes.
      apply annotateEntries_spec in Htypes as (Hle & Hacc & Hkeys).
      split; [exact Hle|]. split; [auto|].
      intros O' K' s'. rewrite Hkeys. unfold typeKey. tauto.
    - rewrite (bool_decide_eq_false_2 _ Hn) in Htypes.
      injection Htypes as <-. split; [reflexivity|]. split; [tauto|].
      intros O' K' s'. unfold typeKey. tauto. }
  destruct Hfed as (Hle & Hacc & Hkeys).
  case_bool_decide as Hk.
  - destruct (types !! type_Name typ) as [[name fields| | | |]|] eqn:Hobj;
      try discriminate.
    injection Hrun as <-. simpl.
    split; [exact Hle|]. split.
    + split; [exact Hacc|]. intros _.
      destruct (typesLe_lookup_Object_inv _ _ _ _ _ Hle Hobj) as (fs & ? & _). eauto.
    + intros [[[O' K'] s']|[f s']]; simpl.
      * apply Hkeys.
      * rewrite addServices_spec. unfold typeService.
        assert (Hfs : objectFields types (type_Name typ) = fields).
        { unfold objectFields. by rewrite Hobj. }
        setoid_rewrite (fieldPtr_le st.1 types (type_Name typ) _ Hle).
        rewrite Hfs. tauto.
  - injection Hrun as <-. simpl. split; [exact Hle|]. split.
    + split; [exact Hacc|tauto].
    + intros [[[O' K'] s']|[f s']]; simpl.
      * apply Hkeys.
      * unfold typeService. tauto.
Qed.

End AnnotationPass.

Section AnnotationSpec.

Context (O : MapOrder).

(** The loop over the types of one service schema. *)
Lemma annotateTypes_spec serviceNames byName service
    (serviceTypes : list introspectionType) (st st' : AnnState) :
  forM serviceTypes (annotateType O serviceNames byName service) st = Ok st' ->
  typesLe st.1 st'.1
  /\ (forall typ, typ ∈ serviceTypes -> typeAccepted serviceNames byName st.1 typ)
  /\ forall u, annotated st' u <->
       annotated st u
       \/ exists typ, typ ∈ serviceTypes /\ typeAdds st.1 service typ u.
Proof.
  intros Hrun.
  set (body := annotateType O serviceNames byName service) in Hrun.
  assert (Hstep : forall typ (a b : AnnState), typ ∈ serviceTypes ->
            typesLe st.1 a.1 -> body typ a = Ok b ->
            typesLe st.1 b.1
            /\ forall u, annotated b u <->
                 annotated a u \/ typeAdds st.1 service typ u).
  { intros typ a b _ Ha Hb. apply annotateType_spec in Hb as (Hab & _ & Hadds).
    split; [by etrans|]. intros u. rewrite Hadds.
    by rewrite (typeAdds_le st.1 a.1 service typ u Ha). }
  destruct (forM_collect (fun a : AnnState => typesLe st.1 a.1) annotated
              (typeAdds st.1 service) serviceTypes body st st')
    as [Hle Hadds]; [exact Hstep|reflexivity|exact Hrun|].
  split; [exact Hle|]. split; [|exact Hadds].
  intros typ Htyp.
  destruct (forM_elem_inv (fun a : AnnState => typesLe st.1 a.1)
              serviceTypes body st st')
    with (x := typ) as (a & b & Ha & Hb); try assumption; try reflexivity.
  { intros x a b Hx Ha Hb. by apply (Hstep x a b). }
  apply annotateType_spec in Hb as (_ & Hacc & _).
  by apply (typeAccepted_le _ _ st.1 a.1 typ Ha).
Qed.

(** The annotation pass as a whole: what it checks and what it adds. *)
Lemma annotate_spec serviceNames byName types0 types infos :
  annotate O serviceNames byName types0 = Ok (types, infos) ->
  typesLe types0 types
  /\ (forall service, service ∈ serviceNames ->
        exists schema, byName !! service = Some schema
          /\ forall typ, typ ∈ Types (Schema schema) ->
               typeAccepted serviceNames byName types0 typ)
  /\ forall u, annotated (types, infos) u <->
       annotated (types0, ∅) u
       \/ exists service, service ∈ serviceNames
            /\ serviceAdds byName types0 service u.
Proof.
  unfold annotate. intros Hrun.
  set (body := fun (service : string) (st : AnnState) =>
         typesOf byName service ≫=
           fun serviceTypes =>
             forM serviceTypes (annotateType O serviceNames byName service) st)
    in Hrun.
  assert (Hbody : forall service (a b : AnnState), typesLe types0 a.1 ->
            body service a = Ok b ->
            exists schema, byName !! service = Some schema
              /\ typesLe types0 b.1
              /\ (forall typ, typ ∈ Types (Schema schema) ->
                    typeAccepted serviceNames byName types0 typ)
              /\ forall u, annotated b u <->
                   annotated a u \/ serviceAdds byName types0 service u).
  { intros service a b Ha Hb. unfold body in Hb.
    apply bind_Ok in Hb as (serviceTypes & Htypes & Hb). unfold typesOf in Htypes.
    destruct (byName !! service) as [schema|] eqn:Hschema; [|discriminate].
    injection Htypes as <-. exists schema. split; [reflexivity|].
    apply annotateTypes_spec in Hb as (Hab & Hacc & Hadds).
    split; [by etrans|]. split.
    - intros typ Htyp. apply (typeAccepted_le _ _ types0 a.1 typ Ha). auto.
    - intros u. rewrite Hadds. unfold serviceAdds.
      split; (intros [H|H]; [by left|right]).
      + destruct H as (typ & Htyp & H). exists schema, typ.
        split; [exact Hschema|]. split; [exact Htyp|].
        by apply (typeAdds_le types0 a.1 service typ u Ha).
      + destruct H as (schema' & typ & Hs' & Htyp & H).
        rewrite Hschema in Hs'. injection Hs' as <-. exists typ.
        split; [exact Htyp|]. by apply (typeAdds_le types0 a.1 service typ u Ha). }
  destruct (forM_collect (fun a : AnnState => typesLe types0 a.1) annotated
              (serviceAdds byName types0) serviceNames body (types0, ∅) (types, infos))
    as [Hle Hadds]; [|reflexivity|exact Hrun|].
  { intros service a b _ Ha Hb.
    destruct (Hbody service a b Ha Hb) as (schema & _ & Hb1 & _ & Hb2). auto. }
  split; [exact Hle|]. split; [|exact Hadds].
  intros service Hservice.
  destruct (forM_elem_inv (fun a : AnnState => typesLe types0 a.1)
              serviceNames body (types0, ∅) (types, infos))
    with (x := service) as (a & b & Ha & Hb); try assumption; try reflexivity.
  { intros x a b _ Ha Hb.
    destruct (Hbody x a b Ha Hb) as (schema & _ & Hb1 & _). exact Hb1. }
  destruct (Hbody service a b Ha Hb) as (schema & Hschema & _ & Hacc & _). eauto.
Qed.

End AnnotationSpec.

(** ** The validators *)

Lemma typesOf_present byName service :
  is_Some (byName !! service) ->
  exists schema, byName !! service = Some schema
    /\ typesOf byName service = Ok (Types (Schema schema)).
Proof. intros [schema H]. exists schema. unfold typesOf. by rewrite H. Qed.

(** [validateFederationKeys] fails, with the invalid-key error, exactly
    when a root copy of the object lacks the key. *)
Lemma validateFederationKeys_spec serviceNames byName objName K :
  allPresent serviceNames byName ->
  (validateFederationKeys serviceNames byName objName K = Ok tt
   /\ ~ keyMissing serviceNames byName objName K)
  \/ (validateFederationKeys serviceNames byName objName K
      = Err (EInvalidFederationKey K)
      /\ keyMissing serviceNames byName objName K).
Proof.
  intros Hpresent. unfold validateFederationKeys.
  set (inner := fun typ : introspectionType =>
    if bool_decide (type_Name typ = objName)
    then
      if hasField federationField typ
         && negb (hasField federationField typ && hasField K typ)
      then Err (EInvalidFederationKey K) else Ok tt
    else Ok tt).
  assert (Hinner : forall typ,
            (inner typ = Ok tt
             /\ ~ (type_Name typ = objName /\ hasField federationField typ = true
                   /\ hasField K typ = false))
            \/ (inner typ = Err (EInvalidFederationKey K)
                /\ type_Name typ = objName /\ hasField federationField typ = true
                /\ hasField K typ = false)).
  { intros typ. unfold inner. case_bool_decide as Hn; [|left; tauto].
    destruct (hasField federationField typ), (hasField K typ); simpl;
      [left|right|left|left]; try tauto; split; try reflexivity;
      intros (_ & ? & ?); discriminate. }
  set (outer := fun service : string =>
    typesOf byName service ≫= fun types => forEach types inner).
  destruct (forEach_uniform serviceNames outer (EInvalidFederationKey K))
    as [[Hrun Hall]|[Hrun (service & Hservice & Hbad)]].
  - intros service Hservice. unfold outer.
    destruct (typesOf_present byName service (Hpresent service Hservice))
      as (schema & _ & ->). simpl.
    destruct (forEach_uniform (Types (Schema schema)) inner (EInvalidFederationKey K))
      as [[H _]|[H _]]; auto.
    intros typ _. destruct (Hinner typ) as [[? _]|[? _]]; auto.
  - left. split; [exact Hrun|].
    intros (service & typ & Hservice & (schema & Hschema & Htyp) & Hn & Hm & HK).
    specialize (Hall service Hservice). unfold outer, typesOf in Hall.
    rewrite Hschema in Hall. simpl in Hall.
    apply (proj1 (forEach_Ok _ _)) with (x := typ) in Hall; [|exact Htyp].
    destruct (Hinner typ) as [[_ Hno]|[Hyes _]]; [tauto|congruence].
  - right. split; [exact Hrun|].
    unfold outer in Hbad.
    destruct (typesOf_present byName service (Hpresent service Hservice))
      as (schema & Hschema & Htypes).
    rewrite Htypes in Hbad. simpl in Hbad.
    destruct (forEach_uniform (Types (Schema schema)) inner (EInvalidFederationKey K))
      as [[H _]|[_ (typ & Htyp & Hbadtyp)]].
    { intros typ _. destruct (Hinner typ) as [[? _]|[? _]]; auto. }
    { congruence. }
    destruct (Hinner typ) as [[Hok _]|[_ (Hn & Hm & HK)]]; [congruence|].
    exists service, typ. split; [exact Hservice|]. split; [by exists schema|auto].
Qed.

(** A loop that raises a flag: it ends well, with the flag raised exactly
    when it was raised before or some element raises it. *)
Lemma forM_flag {A : Type} (xs : list A) (c : A -> bool) (found : bool) :
  exists b, forM xs (fun x found => if c x then Ok true else Ok found) found = Ok b
    /\ (b = true <-> found = true \/ exists x, x ∈ xs /\ c x = true).
Proof.
  revert found. induction xs as [|x xs IH]; intros found; simpl.
  - exists found. split; [reflexivity|]. split; [auto|].
    intros [H|(x & Hx & _)]; [exact H|by apply elem_of_nil in Hx].
  - destruct (c x) eqn:Hc; simpl.
    + destruct (IH true) as (b & Hrun & Hb). exists b. split; [exact Hrun|].
      rewrite Hb. split; [|auto]. intros _. right. exists x. split; [left|exact Hc].
    + destruct (IH found) as (b & Hrun & Hb). exists b. split; [exact Hrun|].
      rewrite Hb. split; (intros [H|(y & Hy & Hcy)]; [by left|right]).
      * exists y. split; [by right|exact Hcy].
      * apply elem_of_cons in Hy as [->|Hy]; [congruence|eauto].
Qed.

Lemma federatedOnOneService_spec serviceNames byName objName (found : bool) :
  allPresent serviceNames byName ->
  exists b,
    forM serviceNames (fun service found =>
      typesOf byName service ≫= fun types =>
        forM types (fun typ found =>
          if bool_decide (type_Name typ = objName) && hasField federationField typ
          then Ok true else Ok found) found) found = Ok b
    /\ (b = true <->
        found = true \/ declaredWithMarker serviceNames byName objName true).
Proof.
  revert found. induction serviceNames as [|service names IH];
    intros found Hpresent; simpl.
  - exists found. split; [reflexivity|]. split; [auto|].
    intros [H|(s & _ & Hs & _)]; [exact H|by apply elem_of_nil in Hs].
  - destruct (typesOf_present byName service) as (schema & Hschema & ->);
      [apply Hpresent; left|]. simpl.
    destruct (forM_flag (Types (Schema schema))
                (fun typ => bool_decide (type_Name typ = objName)
                            && hasField federationField typ) found)
      as (b1 & -> & Hb1). simpl.
    destruct (IH b1) as (b & Hrun & Hb).
    { intros s Hs. apply Hpresent. by right. }
    exists b. split; [exact Hrun|]. rewrite Hb, Hb1. unfold declaredWithMarker.
    split.
    + intros [[H|(typ & Htyp & Hc)]|(s & typ & Hs & Hd & Hn & Hm)]; [by left| |].
      * right. apply andb_true_iff in Hc as [Hn Hm]. apply bool_decide_eq_true in Hn.
        exists service, typ. split; [left|]. split; [by exists schema|auto].
      * right. exists s, typ. split; [by right|auto].
    + intros [H|(s & typ & Hs & Hd & Hn & Hm)]; [by left; left|].
      apply elem_of_cons in Hs as [->|Hs].
      * left; right. destruct Hd as (schema' & Hs' & Htyp).
        rewrite Hschema in Hs'. injection Hs' as <-. exists typ. split; [exact Htyp|].
        apply andb_true_iff. split; [by apply bool_decide_eq_true|exact Hm].
      * right. exists s, typ. auto.
Qed.

(** [validateFederatedObjects] fails, with the not-federated error, exactly
    when the object is neither Query nor Mutation, some service declares it
    with the marker, and some service declares it without. *)
Lemma validateFederatedObjects_spec serviceNames byName objName :
  allPresent serviceNames byName ->
  let partial :=
    declaredWithMarker serviceNames byName objName true
    /\ objName <> "Query" /\ objName <> "Mutation"
    /\ declaredWithMarker serviceNames byName objName false in
  (validateFederatedObjects serviceNames byName objName = Ok tt /\ ~ partial)
  \/ (validateFederatedObjects serviceNames byName objName
      = Err (ENotFederated objName) /\ partial).
Proof.
  intros Hpresent partial. unfold validateFederatedObjects.
  destruct (federatedOnOneService_spec serviceNames byName objName false Hpresent)
    as (b & -> & Hb). simpl.
  assert (Hfed : b = true <-> declaredWithMarker serviceNames byName objName true).
  { rewrite Hb. split; [|auto]. intros [H|H]; [discriminate|exact H]. }
  clear Hb.
  destruct b; simpl.
  2:{ left. split; [reflexivity|]. intros (H & _). apply Hfed in H. discriminate. }
  repeat case_bool_decide; simpl;
    try (left; split; [reflexivity|]; unfold partial; tauto).
  set (inner := fun typ : introspectionType =>
    if bool_decide (type_Name typ = objName)
    then if negb (hasField federationField typ)
         then Err (ENotFederated objName) else Ok tt
    else Ok tt).
  assert (Hinner : forall typ,
            (inner typ = Ok tt
             /\ ~ (type_Name typ = objName /\ hasField federationField typ = false))
            \/ (inner typ = Err (ENotFederated objName)
                /\ type_Name typ = objName /\ hasField federationField typ = false)).
  { intros typ. unfold inner. case_bool_decide as Hn; [|left; tauto].
    destruct (hasField federationField typ); simpl; [left|right]; try tauto.
    split; [reflexivity|]. intros [_ ?]. discriminate. }
  set (outer := fun service : string =>
    typesOf byName service ≫= fun types => forEach types inner).
  destruct (forEach_uniform serviceNames outer (ENotFederated objName))
    as [[Hrun Hall]|[Hrun (service & Hservice & Hbad)]].
  - intros service Hservice. unfold outer.
    destruct (typesOf_present byName service (Hpresent service Hservice))
      as (schema & _ & ->). simpl.
    destruct (forEach_uniform (Types (Schema schema)) inner (ENotFederated objName))
      as [[Hok _]|[Hno _]]; auto.
    intros typ _. destruct (Hinner typ) as [[? _]|[? _]]; auto.
  - left. split; [exact Hrun|].
    intros (_ & _ & _ & service & typ & Hservice & (schema & Hschema & Htyp) & Hn & Hm).
    specialize (Hall service Hservice). unfold outer, typesOf in Hall.
    rewrite Hschema in Hall. simpl in Hall.
    apply (proj1 (forEach_Ok _ _)) with (x := typ) in Hall; [|exact Htyp].
    destruct (Hinner typ) as [[_ Hno]|[Hyes _]]; [tauto|congruence].
  - right. split; [exact Hrun|].
    unfold outer in Hbad.
    destruct (typesOf_present byName service (Hpresent service Hservice))
      as (schema & Hschema & Htypes).
    rewrite Htypes in Hbad. simpl in Hbad.
    destruct (forEach_uniform (Types (Schema schema)) inner (ENotFederated objName))
      as [[Hok _]|[_ (typ & Htyp & Hbadtyp)]].
    { intros typ _. destruct (Hinner typ) as [[? _]|[? _]]; auto. }
    { congruence. }
    destruct (Hinner typ) as [[Hok _]|[_ (Hn & Hm)]]; [congruence|].
    unfold partial. split; [by apply Hfed|]. split; [assumption|]. split; [assumption|].
    exists service, typ. split; [exact Hservice|]. split; [by exists schema|auto].
Qed.

(** ** The structure of ConvertVersionedSchemas *)

Lemma sortStrings_elem (l : list string) (s : string) :
  s ∈ sortStrings l <-> s ∈ l.
Proof. unfold sortStrings. by rewrite merge_sort_Permutation. Qed.

Section Structure.

Context (O : MapOrder).
Context (mergeSchemaSlice :
  list IntrospectionQueryResult -> MergeMode -> result IntrospectionQueryResult).

Lemma serviceNamesOf_elem schemas service :
  service ∈ serviceNamesOf O schemas <-> is_Some (schemas !! service).
Proof. unfold serviceNamesOf. rewrite sortStrings_elem. apply range_keys. Qed.

(** The first loop records, for every service name and for no other name,
    the intersection of the versions of that service. *)
Lemma intersectServices_spec schemas serviceNames byName slice :
  intersectServices O mergeSchemaSlice schemas serviceNames = Ok (byName, slice) ->
  forall service schema,
    byName !! service = Some schema <->
    service ∈ serviceNames
    /\ intersectVersions O mergeSchemaSlice (default ∅ (schemas !! service))
       = Ok schema.
Proof.
  unfold intersectServices.
  set (body := fun (service : string)
                   '((byName, slice) :
                      gmap string IntrospectionQueryResult
                      * list IntrospectionQueryResult) =>
    intersectVersions O mergeSchemaSlice (default ∅ (schemas !! service))
      ≫= fun serviceSchema =>
           Ok (<[service := serviceSchema]> byName, app slice [serviceSchema])).
  assert (Hgen : forall names b0 l0 b l,
    forM names body (b0, l0) = Ok (b, l) ->
    forall service schema,
      b !! service = Some schema <->
      (service ∈ names
       /\ intersectVersions O mergeSchemaSlice (default ∅ (schemas !! service))
          = Ok schema)
      \/ ((service ∉ names) /\ b0 !! service = Some schema)).
  { induction names as [|name names IH]; intros b0 l0 b l Hrun service schema.
    - injection Hrun as <- <-. split.
      + intros H. right. split; [apply not_elem_of_nil|exact H].
      + intros [[H _]|[_ H]]; [by apply elem_of_nil in H|exact H].
    - simpl in Hrun. apply bind_Ok in Hrun as ([b1 l1] & Hstep & Hrest).
      simpl in Hstep. apply bind_Ok in Hstep as (s1 & Hs1 & Hstep).
      injection Hstep as <- <-.
      rewrite (IH _ _ _ _ Hrest service schema). rewrite !elem_of_cons.
      destruct (decide (service = name)) as [->|Hne].
      + rewrite lookup_insert_eq. split.
        * intros [[_ H]|[_ H]]; left; (split; [by left|]); congruence.
        * intros [[_ H]|[H _]]; [|by destruct H; left].
          destruct (decide (name ∈ names)) as [Hin|Hnot]; [left; auto|].
          right. split; [exact Hnot|congruence].
      + rewrite lookup_insert_ne by done. tauto. }
  intros Hrun service schema. rewrite (Hgen _ _ _ _ _ Hrun service schema).
  rewrite lookup_empty. split; [|auto]. intros [H|[_ H]]; [exact H|discriminate].
Qed.

Lemma intersectServices_present schemas serviceNames byName slice :
  intersectServices O mergeSchemaSlice schemas serviceNames = Ok (byName, slice) ->
  allPresent serviceNames byName.
Proof.
  unfold intersectServices. intros Hrun.
  assert (Hgen : forall names (st st' : gmap string IntrospectionQueryResult
                                 * list IntrospectionQueryResult),
    forM names (fun service '(byName, slice) =>
      intersectVersions O mergeSchemaSlice (default ∅ (schemas !! service))
        ≫= fun serviceSchema =>
             Ok (<[service := serviceSchema]> byName, app slice [serviceSchema]))
      st = Ok st' ->
    forall service, service ∈ names \/ is_Some (st.1 !! service) ->
      is_Some (st'.1 !! service)).
  { induction names as [|name names IH]; intros st st' Hrun' service Hs.
    - injection Hrun' as <-. destruct Hs as [Hs|Hs]; [by apply elem_of_nil in Hs|exact Hs].
    - simpl in Hrun'. apply bind_Ok in Hrun' as (st1 & Hstep & Hrest).
      destruct st as [b0 l0]. simpl in Hstep.
      apply bind_Ok in Hstep as (s1 & Hs1 & Hstep). injection Hstep as <-.
      apply (IH _ _ Hrest). simpl.
      destruct (decide (service = name)) as [->|Hne].
      + right. rewrite lookup_insert_eq. eauto.
      + rewrite lookup_insert_ne by done.
        destruct Hs as [Hs|Hs]; [|by right].
        apply elem_of_cons in Hs as [?|?]; [congruence|by left]. }
  intros service Hs. apply (Hgen _ _ _ Hrun service). by left.
Qed.

(** The shape of a successful run of the part after the merges. *)
Lemma convertMerged_Ok serviceNames byName merged types info :
  convertMerged O serviceNames byName merged = Ok (types, info) ->
  exists types0,
    parseSchema merged = Ok types0
    /\ (forall n, is_Some (types0 !! n) ->
          validateFederatedObjects serviceNames byName n = Ok tt)
    /\ annotate O serviceNames byName types0 = Ok (types, swf_Fields info)
    /\ validateFieldsReturningFederatedObject O serviceNames byName types
         (swf_Fields info) = Ok tt
    /\ swf_Schema info = {| Query := typePtr types "Query";
                            Mutation := typePtr types "Mutation" |}.
Proof.
  unfold convertMerged. intros Hrun.
  apply bind_Ok in Hrun as (types0 & Hparse & Hrun). exists types0.
  split; [exact Hparse|].
  apply bind_Ok in Hrun as (u & Hfed & Hrun).
  apply bind_Ok in Hrun as ([types1 infos] & Hann & Hrun).
  apply bind_Ok in Hrun as ([] & Hshadow & Hrun).
  injection Hrun as <- <-. simpl.
  apply wrapErr_Ok in Hshadow.
  split; [|auto].
  intros n [g Hn].
  pose proof (proj1 (forEach_Ok_unit _ _ _) Hfed (n, g)) as H. simpl in H.
  apply wrapErr_Ok in H; [exact H|]. by apply range_lookup.
Qed.

Lemma ConvertVersionedSchemas_Ok schemas r :
  ConvertVersionedSchemas O mergeSchemaSlice schemas = Ok r ->
  exists byName slice merged,
    intersectServices O mergeSchemaSlice schemas (serviceNamesOf O schemas)
    = Ok (byName, slice)
    /\ mergeSchemaSlice slice Union_ = Ok merged
    /\ convertMerged O (serviceNamesOf O schemas) byName merged = Ok r.
Proof.
  unfold ConvertVersionedSchemas. fold (serviceNamesOf O schemas). intros Hrun.
  apply bind_Ok in Hrun as ([byName slice] & Hint & Hrun).
  apply bind_Ok in Hrun as (merged & Hmerge & Hrun).
  exists byName, slice, merged. auto.
Qed.


(** The schema recorded for a service by a successful first loop is the
    intersection of the versions of that service. *)
Lemma intersected_on_record schemas byName slice service versions schema :
  intersectServices O mergeSchemaSlice schemas (serviceNamesOf O schemas)
  = Ok (byName, slice) ->
  schemas !! service = Some versions ->
  intersectVersions O mergeSchemaSlice versions = Ok schema ->
  service ∈ serviceNamesOf O schemas /\ byName !! service = Some schema.
Proof.
  intros Hint Hversions Hschema.
  assert (Hin : service ∈ serviceNamesOf O schemas).
  { apply serviceNamesOf_elem. eauto. }
  split; [exact Hin|].
  apply (intersectServices_spec _ _ _ _ Hint).
  split; [exact Hin|]. by rewrite Hversions.
Qed.

End Structure.

(** ** The examples, evaluated *)

Lemma twoServices_converted :
  Examples.convert Examples.twoServices
  = Ok (Examples.twoServicesTypes, Examples.twoServicesInfo).
Proof. vm_compute. reflexivity. Qed.

Lemma entryInB_converted :
  Examples.convert Examples.entryInB
  = Ok (Examples.entryInBTypes, Examples.entryInBInfo).
Proof. vm_compute. reflexivity. Qed.

(** * Annotations of a merged schema *)

Section ServicesRecorded.

Context (O : MapOrder).
Context (mergeSchemaSlice :
  list IntrospectionQueryResult -> MergeMode -> result IntrospectionQueryResult).

(** C4. Whenever ConvertVersionedSchemas succeeds, every field of an OBJECT
    type of the version-intersected schema of a service S is annotated with
    S: the entry of the side table for the merged field (the pointer
    [obj.Fields[field.Name]] of the merged object) has [Services[S] = true]. *)
Theorem services_recorded schemas types info :
  ConvertVersionedSchemas O mergeSchemaSlice schemas = Ok (types, info) ->
  forall service versions schema typ field,
    schemas !! service = Some versions ->
    intersectVersions O mergeSchemaSlice versions = Ok schema ->
    typ ∈ Types (Schema schema) ->
    type_Kind typ = "OBJECT" ->
    field ∈ type_Fields typ ->
    exists fieldInfo,
      swf_Fields info
        !! fieldPtr (type_Name typ) (objectFields types (type_Name typ))
             (field_Name field) = Some fieldInfo
      /\ Services fieldInfo !! service = Some true.
Proof.
  intros Hrun service versions schema typ field Hversions Hschema Htyp Hkind Hfield.
  apply ConvertVersionedSchemas_Ok in Hrun as (byName & slice & merged & Hint & _ & Hrun).
  apply convertMerged_Ok in Hrun as (types0 & _ & _ & Hann & _).
  destruct (intersected_on_record O mergeSchemaSlice _ _ _ _ _ _ Hint Hversions Hschema) as [Hin Hrec].
  apply annotate_spec in Hann as (Hle & _ & Hadds).
  set (f := fieldPtr (type_Name typ) (objectFields types (type_Name typ))
              (field_Name field)).
  assert (Hf : annotated (types, swf_Fields info) (inr (f, service))).
  { apply Hadds. right. exists service. split; [exact Hin|].
    exists schema, typ. split; [exact Hrec|]. split; [exact Htyp|].
    simpl. split; [reflexivity|]. split; [exact Hkind|].
    exists field. split; [exact Hfield|]. unfold f. symmetry. by apply fieldPtr_le. }
  simpl in Hf. unfold serviceAt in Hf.
  destruct (swf_Fields info !! f) as [fieldInfo|]; [|discriminate].
  exists fieldInfo. split; [reflexivity|].
  unfold lookupBool in Hf. by destruct (Services fieldInfo !! service) as [[]|].
Qed.

End ServicesRecorded.

Lemma services_recorded_witness :
  exists fieldInfo,
    swf_Fields Examples.twoServicesInfo !! Some ("Foo", "name") = Some fieldInfo
    /\ Services fieldInfo !! "schema2" = Some true.
Proof.
  apply (services_recorded stdOrder mergeSchemaSliceModel Examples.twoServices
           Examples.twoServicesTypes Examples.twoServicesInfo
           twoServices_converted
           "schema2" (Examples.oneVersion Examples.schema2)
           (Examples.schemaOf Examples.schema2)
           (Examples.object "Foo"
              [ mkField "name" (Examples.named "SCALAR" "string") [];
                mkField "s2ok" (Examples.named "SCALAR" "int") [];
                mkField "s2bar" (Examples.named "OBJECT" "Bar") [];
                mkField "s2nest" (Examples.named "OBJECT" "Foo") [] ])
           (mkField "name" (Examples.named "SCALAR" "string") [])).
  - vm_compute. reflexivity.
  - vm_compute. reflexivity.
  - apply list_elem_of_In. simpl. auto.
  - reflexivity.
  - apply list_elem_of_In. simpl. auto.
Defined.

(** ** Splitting an entry name *)


Lemma cutUnderscore_Some s before after :
  cutUnderscore s = Some (before, after) <->
  s = before ++ String "_" after /\ containsUnderscore before = false.
Proof.
  revert before. induction s as [|c s IH]; intros before; simpl.
  - split; [discriminate|]. intros [H _]. by destruct before.
  - destruct (Ascii.eqb_spec c "_") as [->|Hc].
    + split.
      * intros [= <- <-]. auto.
      * intros [H Hno]. destruct before as [|c' before]; simpl in *.
        -- by injection H as <-.
        -- injection H as <- _. simpl in Hno. discriminate.
    + split.
      * destruct (cutUnderscore s) as [[a b]|] eqn:Hcut; [|discriminate].
        intros [= <- <-]. destruct (proj1 (IH a) eq_refl) as [-> Hno].
        split; [reflexivity|].
        simpl. rewrite Hno. by destruct (Ascii.eqb_spec c "_").
      * intros [H Hno]. destruct before as [|c' before]; simpl in *.
        -- injection H as -> _. by destruct Hc.
        -- injection H as <- ->. apply orb_false_iff in Hno as [_ Hno].
           by rewrite (proj2 (IH before) (conj eq_refl Hno)).
Qed.

(** [SplitN2] yields two parts exactly when the name has an underscore:
    the text before the first one and all the text after it. *)
Lemma SplitN2_two name prefix rest :
  SplitN2 name = [prefix; rest] <->
  name = prefix ++ String "_" rest /\ containsUnderscore prefix = false.
Proof.
  unfold SplitN2. rewrite <- cutUnderscore_Some.
  destruct (cutUnderscore name) as [[a b]|]; split; congruence.
Qed.


(** ** Federated keys *)

Lemma keyAt_true types objName K service :
  keyAt types objName K service = true <->
  exists f keys, objectFields types objName !! K = Some f
    /\ FederatedKey f = Some keys /\ keys !! service = Some true.
Proof.
  unfold keyAt, lookupBool. split.
  - destruct (types !! objName) as [[name fields| | | |]|] eqn:Hobj;
      try discriminate.
    destruct (fields !! K) as [f|] eqn:Hf; [|discriminate].
    destruct (FederatedKey f) as [keys|] eqn:Hk; simpl;
      [|rewrite lookup_empty; discriminate].
    destruct (keys !! service) as [[]|] eqn:Hs; try discriminate.
    intros _. exists f, keys. unfold objectFields. rewrite Hobj. auto.
  - intros (f & keys & Hf & Hk & Hs). unfold objectFields in Hf.
    destruct (types !! objName) as [[name fields| | | |]|];
      try (rewrite lookup_empty in Hf; discriminate).
    rewrite Hf, Hk. simpl. by rewrite Hs.
Qed.

Lemma noKeys_keyAt types objName K service :
  noKeys types -> keyAt types objName K service = false.
Proof.
  intros Hno. unfold keyAt.
  destruct (types !! objName) as [[name fields| | | |]|] eqn:Hobj; try reflexivity.
  destruct (fields !! K) as [f|] eqn:Hf; [|reflexivity].
  by rewrite (Hno _ _ _ _ _ Hobj Hf).
Qed.

Section FederatedKeys.

Context (O : MapOrder).
Context (mergeSchemaSlice :
  list IntrospectionQueryResult -> MergeMode -> result IntrospectionQueryResult).

(** The federated keys of a merged schema are those of the Federation
    entries of the services, each filed under the service whose schema
    holds the entry. *)
Lemma federated_keys_exact schemas types info :
  ConvertVersionedSchemas O mergeSchemaSlice schemas = Ok (types, info) ->
  exists byName slice,
    intersectServices O mergeSchemaSlice schemas (serviceNamesOf O schemas)
    = Ok (byName, slice)
    /\ forall objName K service,
         keyAt types objName K service = true <->
         service ∈ serviceNamesOf O schemas
         /\ entryWithKey byName types service objName K.
Proof.
  intros Hrun.
  apply ConvertVersionedSchemas_Ok in Hrun as (byName & slice & merged & Hint & _ & Hrun).
  apply convertMerged_Ok in Hrun as (types0 & Hparse & _ & Hann & _).
  exists byName, slice. split; [exact Hint|].
  apply parseSchema_Ok in Hparse as (_ & _ & _ & _ & Hno).
  apply annotate_spec in Hann as (Hle & _ & Hadds).
  assert (Hentry : forall service objName K,
            entryWithKey byName types0 service objName K
            <-> entryWithKey byName types service objName K).
  { intros service objName K.
    split; intros (schema & typ & field & prefix & arg & H1 & H2 & H3 & H4 & H5 & H6 & H7);
      exists schema, typ, field, prefix, arg; repeat (split; [assumption|]);
      by apply (argHasKey_le types0 types arg K Hle). }
  intros objName K service.
  specialize (Hadds (inl (objName, K, service))). simpl in Hadds.
  rewrite Hadds, (noKeys_keyAt types0 objName K service Hno). split.
  - intros [H|(s & Hs & schema & typ & Hrec & Htyp & -> & Hn & field & Hf & prefix & arg & Hsp & Harg & HK)];
      [discriminate|].
    split; [exact Hs|]. apply Hentry.
    exists schema, typ, field, prefix, arg. auto 10.
  - intros [Hs Hent]. right. exists service. split; [exact Hs|].
    apply Hentry in Hent
      as (schema & typ & field & prefix & arg & H1 & H2 & H3 & H4 & H5 & H6 & H7).
    exists schema, typ. split; [exact H1|]. split; [exact H2|].
    split; [reflexivity|]. split; [exact H3|]. exists field. split; [exact H4|].
    exists prefix, arg. auto.
Qed.

(** C5. Whenever ConvertVersionedSchemas succeeds, for every Federation
    entry for the object O in the version-intersected schema of a service S
    and every name K that is an input field of the input object of an
    argument of the entry and a field of the merged object O, the merged
    field O.K has [FederatedKey[S] = true]. *)
Theorem federated_keys_recorded schemas types info :
  ConvertVersionedSchemas O mergeSchemaSlice schemas = Ok (types, info) ->
  forall service versions schema typ field prefix objName arg root
         inputName inputFields K,
    schemas !! service = Some versions ->
    intersectVersions O mergeSchemaSlice versions = Ok schema ->
    typ ∈ Types (Schema schema) ->
    type_Name typ = "Federation" ->
    field ∈ type_Fields typ ->
    SplitN2 (field_Name field) = [prefix; objName] ->
    arg ∈ field_Args field ->
    getRootType (input_Type arg) = Ok root ->
    types !! ref_Name root = Some (InputObject inputName inputFields) ->
    is_Some (inputFields !! K) ->
    is_Some (objectFields types objName !! K) ->
    exists f keys,
      objectFields types objName !! K = Some f
      /\ FederatedKey f = Some keys
      /\ keys !! service = Some true.
Proof.
  intros Hrun service versions schema typ field prefix objName arg root
    inputName inputFields K Hversions Hschema Htyp Hname Hfield Hsplit Harg
    Hroot Hinput HK _.
  destruct (federated_keys_exact schemas types info Hrun)
    as (byName & slice & Hint & Hkeys).
  destruct (intersected_on_record O mergeSchemaSlice _ _ _ _ _ _ Hint Hversions Hschema)
    as [Hin Hrec].
  apply keyAt_true, Hkeys. split; [exact Hin|].
  exists schema, typ, field, prefix, arg. repeat (split; [assumption|]).
  exists root, inputName, inputFields. auto.
Qed.

End FederatedKeys.

Lemma federated_keys_recorded_witness :
  exists f keys,
    objectFields Examples.entryInBTypes "Foo" !! "name" = Some f
    /\ FederatedKey f = Some keys
    /\ keys !! "B" = Some true.
Proof.
  apply (federated_keys_recorded stdOrder mergeSchemaSliceModel Examples.entryInB
           Examples.entryInBTypes Examples.entryInBInfo entryInB_converted
           "B" (Examples.oneVersion Examples.serviceBWithEntry)
           (Examples.schemaOf Examples.serviceBWithEntry)
           (Examples.object "Federation" [ Examples.entryA_Foo ])
           Examples.entryA_Foo "A" "Foo"
           (mkInputField "keys"
              (Examples.listOf (Examples.named "INPUT_OBJECT" "FooKeys")))
           (mkTypeRef "INPUT_OBJECT" "FooKeys" None)
           "FooKeys" {[ "name" := TNamed "string" ]} "name").
  - vm_compute. reflexivity.
  - vm_compute. reflexivity.
  - apply list_elem_of_In. simpl. auto.
  - reflexivity.
  - apply list_elem_of_In. simpl. auto.
  - vm_compute. reflexivity.
  - apply list_elem_of_In. simpl. auto.
  - reflexivity.
  - vm_compute. reflexivity.
  - vm_compute. eauto.
  - vm_compute. eauto.
Defined.

Section FederatedKeyService.

Context (O : MapOrder).
Context (mergeSchemaSlice :
  list IntrospectionQueryResult -> MergeMode -> result IntrospectionQueryResult).

(** C9. In a merged schema the service recorded in a FederatedKey
    annotation of the field O.K is a service whose own schema holds a
    Federation entry for O with the key K, and every such service is
    recorded. The entry name is cut at its first underscore; the object name
    is all that follows, and the text before the underscore, [prefix], plays
    no part: it need not be the name of the service. *)
Theorem federated_key_service schemas types info :
  ConvertVersionedSchemas O mergeSchemaSlice schemas = Ok (types, info) ->
  forall objName K service,
    keyAt types objName K service = true <->
    entryInSchemaOf O mergeSchemaSlice schemas types service objName K.
Proof.
  intros Hrun objName K service.
  destruct (federated_keys_exact O mergeSchemaSlice schemas types info Hrun)
    as (byName & slice & Hint & Hkeys).
  rewrite Hkeys. split.
  - intros [Hin (schema & typ & field & prefix & arg & Hrec & Htyp & Hn & Hf & Hsp & Harg & HK)].
    apply (intersectServices_spec O mergeSchemaSlice _ _ _ _ Hint) in Hrec as [_ Hrec].
    apply serviceNamesOf_elem in Hin as [versions Hversions].
    rewrite Hversions in Hrec. simpl in Hrec.
    apply SplitN2_two in Hsp as [Hname Hprefix].
    exists versions, schema, typ, field, prefix, arg. auto 10.
  - intros (versions & schema & typ & field & prefix & arg
            & Hversions & Hschema & Htyp & Hn & Hf & Hname & Hprefix & Harg & HK).
    destruct (intersected_on_record O mergeSchemaSlice _ _ _ _ _ _ Hint Hversions Hschema)
      as [Hin Hrec].
    split; [exact Hin|].
    exists schema, typ, field, prefix, arg. repeat (split; [assumption|]).
    split; [by apply SplitN2_two|]. auto.
Qed.

End FederatedKeyService.

(** The entry [A_Foo] filed in the schema of service B marks the key for B
    and not for A. *)
Lemma federated_key_service_witness :
  (keyAt Examples.entryInBTypes "Foo" "name" "B" = true <->
   entryInSchemaOf stdOrder mergeSchemaSliceModel Examples.entryInB
     Examples.entryInBTypes "B" "Foo" "name")
  /\ keyAt Examples.entryInBTypes "Foo" "name" "B" = true
  /\ keyAt Examples.entryInBTypes "Foo" "name" "A" = false.
Proof.
  split; [|split; vm_compute; reflexivity].
  apply (federated_key_service stdOrder mergeSchemaSliceModel Examples.entryInB
           Examples.entryInBTypes Examples.entryInBInfo entryInB_converted).
Defined.

(** * Validations of the merger *)

Section FederationConsistency.

Context (O : MapOrder).
Context (mergeSchemaSlice :
  list IntrospectionQueryResult -> MergeMode -> result IntrospectionQueryResult).



End FederationConsistency.



(** C2. A partially federated object makes ConvertVersionedSchemas return
    the not-federated error once the merged schema has been parsed,
    [federation_consistency]; but the parser runs first. In
    [partialFooTruncated] service A declares Foo with the _federation field
    and service B declares it without, so that validateFederatedObjects
    fails on Foo; service B also has a field whose argument is cut short, on
    which parseSchema panics: the merge returns neither a schema nor an
    error. Without that field, [partialFoo], it returns the not-federated
    error. *)
Theorem partial_object_behind_crash :
  let names := serviceNamesOf stdOrder Examples.partialFooTruncated in
  (exists slice,
     intersectServices stdOrder mergeSchemaSliceModel
       Examples.partialFooTruncated names
     = Ok (Examples.partialFooTruncatedByName, slice)
     /\ mergeSchemaSliceModel slice Union_
        = Ok Examples.partialFooTruncatedMerged)
  /\ declaredWithMarker names Examples.partialFooTruncatedByName "Foo" true
  /\ declaredWithMarker names Examples.partialFooTruncatedByName "Foo" false
  /\ validateFederatedObjects names Examples.partialFooTruncatedByName "Foo"
     = Err (ENotFederated "Foo")
  /\ parseSchema Examples.partialFooTruncatedMerged = Panic NilDereference
  /\ Examples.convert Examples.partialFooTruncated = Panic NilDereference
  /\ Examples.convert Examples.partialFoo
     = Err (EExpectedFederated "Foo" (ENotFederated "Foo")).
Proof.
  split; [eexists; split; vm_compute; reflexivity|].
  split.
  { exists "A", Examples.rootFoo.
    split; [vm_compute; apply list_elem_of_In; simpl; auto|].
    split; [|split; reflexivity].
    exists (Examples.schemaOf Examples.serviceA).
    split; [vm_compute; reflexivity|apply list_elem_of_In; simpl; auto]. }
  split.
  { exists "B", Examples.partialFooB.
    split; [vm_compute; apply list_elem_of_In; simpl; auto|].
    split; [|split; reflexivity].
    eexists. split; [vm_compute; reflexivity|apply list_elem_of_In; simpl; auto]. }
  repeat split; vm_compute; reflexivity.
Qed.

Section EntryChecks.

Context (O : MapOrder).
Context (mergeSchemaSlice :
  list IntrospectionQueryResult -> MergeMode -> result IntrospectionQueryResult).








End EntryChecks.


(** The first check to fail decides. In [keyMismatchMalformed] the entry
    B_Foo of service B takes the key age, which the root Foo of service A
    does not have; the Federation type of service B lists an entry without
    underscore before it, and the merge returns the error of that entry. *)
Theorem missing_key_behind_malformed_entry :
  let schemas := Examples.keyMismatchMalformed in
  let serviceNames := serviceNamesOf stdOrder schemas in
  keyMissing serviceNames (Examples.byNameOf schemas) "Foo" "age"
  /\ Examples.byNameOf schemas !! "B"
     = Some (Examples.schemaOf Examples.serviceBMalformed)
  /\ Examples.federationMalformedFirst ∈ Examples.serviceBMalformed
  /\ Examples.entryB_Foo ∈ type_Fields Examples.federationMalformedFirst
  /\ SplitN2 (field_Name Examples.entryB_Foo) = ["B"; "Foo"]
  /\ Examples.argumentKeys ∈ field_Args Examples.entryB_Foo
  /\ argHasKey (Examples.tableOf schemas) Examples.argumentKeys "age"
  /\ Examples.convert schemas = Err (ENoObjectName "Foo")
  /\ forall K, Examples.convert schemas <> Err (EInvalidFederationKey K).
Proof.
  split.
  { exists "A", Examples.rootFoo.
    split; [vm_compute; apply list_elem_of_In; simpl; auto|].
    split; [|split; [reflexivity|split; reflexivity]].
    exists (Examples.schemaOf Examples.serviceA).
    split; [vm_compute; reflexivity|apply list_elem_of_In; simpl; auto]. }
  split; [vm_compute; reflexivity|].
  split; [apply list_elem_of_In; simpl; auto|].
  split; [apply list_elem_of_In; simpl; auto|].
  split; [reflexivity|].
  split; [apply list_elem_of_In; simpl; auto|].
  split.
  { eexists _, _, _. split; [reflexivity|].
    split; [vm_compute; reflexivity|vm_compute; eauto]. }
  split; [vm_compute; reflexivity|].
  intros K. vm_compute. discriminate.
Qed.

Section MalformedEntries.

Context (O : MapOrder).
Context (mergeSchemaSlice :
  list IntrospectionQueryResult -> MergeMode -> result IntrospectionQueryResult).


End MalformedEntries.



(** ** The shadow-type check *)

Section ShadowCheck.

Context (O : MapOrder).

(** The innermost loop: it fails exactly when the Federation object has the
    field. *)
Lemma fedFields_loop (fedFields : gmap string Field) (name : string) (e : error) :
  (is_Some (fedFields !! name)
   /\ forEach (range O fedFields)
        (fun '(fName, _) => if bool_decide (fName = name) then Err e else Ok tt)
      = Err e)
  \/ (fedFields !! name = None
      /\ forEach (range O fedFields)
           (fun '(fName, _) => if bool_decide (fName = name) then Err e else Ok tt)
         = Ok tt).
Proof.
  set (body := fun '((fName, _) : string * Field) =>
         if bool_decide (fName = name) then Err e else Ok tt).
  destruct (forEach_uniform (range O fedFields) body e)
    as [[Hrun Hall]|[Hrun ([fName f] & Hin & Hbad)]].
  - intros [fName f] _. simpl. case_bool_decide; auto.
  - right. split; [|exact Hrun].
    destruct (fedFields !! name) as [f|] eqn:Hf; [|reflexivity].
    specialize (Hall (name, f)). simpl in Hall.
    rewrite bool_decide_eq_true_2 in Hall by reflexivity.
    discriminate Hall. by apply range_lookup.
  - left. split; [|exact Hrun]. simpl in Hbad.
    case_bool_decide as Hn; [|discriminate]. subst fName.
    apply range_lookup in Hin. eauto.
Qed.

(** What [checkShadow] does on the marker field of the returned object. *)
Lemma checkShadow_marker service field root T (fields : gmap string Field)
    types infos :
  is_Some (fields !! federationField) ->
  let federatedFieldName := service ++ "_" ++ typeRefString root in
  let rejected :=
    serviceAt infos (Some (ref_Name root, federationField)) service = false
    /\ field_Name field <> federatedFieldName
    /\ exists fedName fedFields,
         types !! "Federation" = Some (Object fedName fedFields)
         /\ is_Some (fedFields !! federatedFieldName) in
  (checkShadow O service field root T fields types infos federationField = Ok tt
   /\ ~ rejected)
  \/ (checkShadow O service field root T fields types infos federationField
      = Err (EShadowType (field_Name field) T) /\ rejected)
  \/ (checkShadow O service field root T fields types infos federationField
      = Panic NilDereference
      /\ infos !! Some (ref_Name root, federationField) = None).
Proof.
  intros [f Hf] federatedFieldName rejected. unfold checkShadow.
  rewrite bool_decide_eq_true_2 by reflexivity.
  unfold fieldPtr. rewrite Hf.
  destruct (infos !! _) as [info|] eqn:Hinfo; [|right; right; auto].
  assert (Hat : serviceAt infos (Some (ref_Name root, federationField)) service
                = lookupBool (Services info) service).
  { unfold serviceAt. by rewrite Hinfo. }
  destruct (lookupBool (Services info) service) eqn:Hs; simpl.
  { left. split; [reflexivity|]. intros (H & _). congruence. }
  fold federatedFieldName.
  case_bool_decide as Hname.
  { left. split; [reflexivity|]. intros (_ & H & _). by destruct H. }
  destruct (types !! "Federation") as [[fedName fedFields| | | |]|] eqn:Hfed;
    try (left; split; [reflexivity|];
         intros (_ & _ & n & fs & H & _); discriminate).
  destruct (fedFields_loop fedFields federatedFieldName
              (EShadowType (field_Name field) T)) as [[Hyes Hrun]|[Hno Hrun]].
  - right; left. split; [exact Hrun|]. unfold rejected. eauto 10.
  - left. split; [exact Hrun|].
    intros (_ & _ & n & fs & [= <- <-] & [? H]). congruence.
Qed.

Lemma checkShadow_other service field root T (fields : gmap string Field)
    types infos name :
  name <> federationField ->
  checkShadow O service field root T fields types infos name = Ok tt.
Proof. intros H. unfold checkShadow. by rewrite bool_decide_eq_false_2. Qed.

(** The loop over the fields of the returned object. *)
Lemma returnObj_loop service field root T (fields : gmap string Field)
    types infos :
  let run :=
    forEach (range O fields) (fun '(name, _) =>
      checkShadow O service field root T fields types infos name) in
  (run = Err (EShadowType (field_Name field) T) ->
     is_Some (fields !! federationField)
     /\ checkShadow O service field root T fields types infos federationField
        = Err (EShadowType (field_Name field) T))
  /\ (forall e, run = Err e -> e = EShadowType (field_Name field) T)
  /\ (is_Some (fields !! federationField) ->
      checkShadow O service field root T fields types infos federationField
      <> Ok tt ->
      run <> Ok tt).
Proof.
  intros run. unfold run.
  assert (Herr : forall e,
    forEach (range O fields) (fun '(name, _) =>
      checkShadow O service field root T fields types infos name) = Err e ->
    is_Some (fields !! federationField)
    /\ checkShadow O service field root T fields types infos federationField = Err e).
  { intros e Hrun. apply forEach_Err in Hrun as ([name f] & Hin & Hbad).
    simpl in Hbad. apply range_lookup in Hin.
    destruct (decide (name = federationField)) as [->|Hne].
    - split; [eauto|exact Hbad].
    - rewrite checkShadow_other in Hbad by done. discriminate. }
  split; [apply Herr|]. split.
  - intros e Hrun. destruct (Herr e Hrun) as [Hsome Hbad].
    destruct (checkShadow_marker service field root T fields types infos Hsome)
      as [[H _]|[[H _]|[H _]]]; congruence.
  - intros [f Hf] Hbad Hrun.
    pose proof (proj1 (forEach_Ok _ _) Hrun (federationField, f)) as H.
    simpl in H. apply Hbad, H. by apply range_lookup.
Qed.

End ShadowCheck.

Section ShadowValidator.

Context (O : MapOrder).





End ShadowValidator.

Section ShadowTypes.

Context (O : MapOrder).
Context (mergeSchemaSlice :
  list IntrospectionQueryResult -> MergeMode -> result IntrospectionQueryResult).

(** After the annotation pass a field of the table is annotated with a
    service exactly when that service declares the field. *)
Lemma services_exact serviceNames byName types0 types infos service T F :
  annotate O serviceNames byName types0 = Ok (types, infos) ->
  is_Some (objectFields types0 T !! F) ->
  serviceAt infos (Some (T, F)) service = true <->
  service ∈ serviceNames /\ declaresField byName service T F.
Proof.
  intros Hann Hfield. apply annotate_spec in Hann as (_ & _ & Hadds).
  specialize (Hadds (inr (Some (T, F), service))). simpl in Hadds.
  rewrite Hadds. unfold serviceAt at 1. rewrite lookup_empty. split.
  - intros [H|(s & Hs & schema & typ & Hrec & Htyp & -> & Hkind & field & Hf & Hptr)];
      [discriminate|].
    split; [exact Hs|].
    unfold fieldPtr in Hptr.
    destruct (objectFields types0 (type_Name typ) !! field_Name field);
      [|discriminate].
    injection Hptr as -> ->.
    exists schema, typ, field. auto 10.
  - intros [Hs (schema & typ & field & Hrec & Htyp & Hkind & <- & Hf & <-)].
    right. exists service. split; [exact Hs|].
    exists schema, typ. split; [exact Hrec|]. split; [exact Htyp|].
    split; [reflexivity|]. split; [exact Hkind|].
    exists field. split; [exact Hf|].
    unfold fieldPtr. destruct Hfield as [f ->]. reflexivity.
Qed.





End ShadowTypes.




(** * parseSchema *)





Section TypeNames.

Context (O : MapOrder).
Context (mergeSchemaSlice :
  list IntrospectionQueryResult -> MergeMode -> result IntrospectionQueryResult).



End TypeNames.




(** ** Where pass 2 can panic *)

Lemma lookupType_no_panic t p : lookupType t <> Panic p.
Proof.
  destruct t as [t|]; simpl; [|discriminate].
  induction t as [k n|k n t IH] using typeRef_ind; simpl;
    destruct (isNamedKind k); try discriminate;
    destruct (isWrapperKind k); try discriminate; exact IH.
Qed.

Lemma parseInputField_Panic all f fields p :
  parseInputField all f fields = Panic p ->
  exists e, lookupType (input_Type f) = Err e.
Proof.
  unfold parseInputField.
  destruct (lookupType (input_Type f)) as [raw|e|q] eqn:Hraw.
  - case_bool_decide; [|discriminate].
    destruct (lookupTypeRef (input_Type f) all) as [t|e|q] eqn:Href; simpl;
      try discriminate.
    by destruct (lookupTypeRef_no_panic (input_Type f) all q).
  - eauto.
  - by destruct (lookupType_no_panic (input_Type f) q).
Qed.

Lemma parseInputFields_Panic source all p :
  parseInputFields source all = Panic p ->
  exists f e, f ∈ source /\ lookupType (input_Type f) = Err e.
Proof.
  unfold parseInputFields. intros Hrun.
  destruct (forM_Panic (fun _ => True) source (parseInputField all) ∅ p)
    as (f & a & Hf & _ & Hbody); auto.
  apply parseInputField_Panic in Hbody as [e He]. eauto.
Qed.

Lemma parseField_Panic typName all field fields p :
  parseField typName all field fields = Panic p ->
  exists f e, f ∈ field_Args field /\ lookupType (input_Type f) = Err e.
Proof.
  unfold parseField.
  destruct (lookupTypeRef (field_Type field) all) as [t|e|q] eqn:Href; simpl;
    try discriminate.
  - destruct (parseInputFields (field_Args field) all) as [m|e|q] eqn:Hargs; simpl;
      try discriminate.
    intros _. by apply parseInputFields_Panic in Hargs.
  - by destruct (lookupTypeRef_no_panic (field_Type field) all q).
Qed.

(** A panic of pass 2 on one type, run on a table that holds the shell of
    every type of the schema. *)
Lemma populateType_Panic schema typ (all : gmap string GType) p :
  typ ∈ Types (Schema schema) ->
  (forall t g, t ∈ Types (Schema schema) -> shellOf t = Some g ->
     exists g', all !! type_Name t = Some g' /\ sameHead g g') ->
  populateType typ all = Panic p ->
  crashCause schema.
Proof.
  intros Htyp Hshells. unfold populateType.
  assert (Hhead : forall g, shellOf typ = Some g ->
            exists g', all !! type_Name typ = Some g' /\ sameHead g g').
  { intros g. by apply Hshells. }
  unfold shellOf in Hhead.
  destruct (decide (type_Kind typ = "OBJECT")) as [Hk|Hk1].
  { rewrite (bool_decide_eq_true_2 _ Hk) in *.
    destruct (Hhead _ eq_refl) as (g' & Hg' & Hsame). rewrite Hg'.
    destruct g'; simpl in Hsame; try tauto.
    destruct (forM (type_Fields typ) (parseField (type_Name typ) all) ∅)
      as [fs|e|q] eqn:Hfields; simpl; try discriminate.
    intros _.
    destruct (forM_Panic (fun _ => True) (type_Fields typ)
                (parseField (type_Name typ) all) ∅ q)
      as (field & a & Hfield & _ & Hbody); auto.
    apply parseField_Panic in Hbody as (f & e & Hf & He).
    left. exists f, e. split; [|exact He]. exists typ. split; [exact Htyp|].
    left. split; [exact Hk|]. exists field. auto. }
  rewrite (bool_decide_eq_false_2 _ Hk1) in *.
  destruct (decide (type_Kind typ = "INPUT_OBJECT")) as [Hk|Hk2].
  { rewrite (bool_decide_eq_true_2 _ Hk) in *.
    destruct (Hhead _ eq_refl) as (g' & Hg' & Hsame). rewrite Hg'.
    destruct g'; simpl in Hsame; try tauto.
    destruct (parseInputFields (type_InputFields typ) all) as [m|e|q] eqn:Hin;
      simpl; try discriminate.
    intros _. apply parseInputFields_Panic in Hin as (f & e & Hf & He).
    left. exists f, e. split; [|exact He]. exists typ. split; [exact Htyp|].
    right. auto. }
  rewrite (bool_decide_eq_false_2 _ Hk2) in *.
  destruct (decide (type_Kind typ = "SCALAR")) as [Hk|Hk3].
  { rewrite (bool_decide_eq_true_2 _ Hk) in *.
    destruct (decide (type_Kind typ = "UNION")) as [Hu|Hu]; [congruence|].
    rewrite (bool_decide_eq_false_2 _ Hu).
    destruct (decide (type_Kind typ = "ENUM")) as [He|He]; [congruence|].
    rewrite (bool_decide_eq_false_2 _ He). discriminate. }
  rewrite (bool_decide_eq_false_2 _ Hk3) in *.
  destruct (decide (type_Kind typ = "UNION")) as [Hk|Hk4].
  { rewrite (bool_decide_eq_true_2 _ Hk) in *.
    destruct (Hhead _ eq_refl) as (g' & Hg' & Hsame). rewrite Hg'.
    destruct g'; simpl in Hsame; try tauto.
    destruct (forM (type_PossibleTypes typ) (parsePossibleType (type_Name typ) all) ∅)
      as [ts|e|q] eqn:Hposs; simpl; try discriminate.
    intros _.
    destruct (forM_Panic (fun _ => True) (type_PossibleTypes typ)
                (parsePossibleType (type_Name typ) all) ∅ q)
      as (other & a & Hother & _ & Hbody); auto.
    unfold parsePossibleType in Hbody.
    case_bool_decide as Hok; [|discriminate].
    right. exists typ, other. repeat (split; [assumption|]).
    intros t Ht Hname Hkind.
    destruct (Hshells t (Object (type_Name t) ∅) Ht) as (g' & Hg'' & Hsame').
    { unfold shellOf. by rewrite (bool_decide_eq_true_2 _ Hkind). }
    rewrite Hname in Hg''. rewrite Hg'' in Hbody.
    destruct g'; simpl in Hsame'; try tauto. discriminate. }
  rewrite (bool_decide_eq_false_2 _ Hk4) in *.
  destruct (decide (type_Kind typ = "ENUM")) as [Hk|Hk5].
  { rewrite (bool_decide_eq_true_2 _ Hk) in *.
    destruct (Hhead _ eq_refl) as (g' & Hg' & Hsame). rewrite Hg'.
    destruct g'; simpl in Hsame; try tauto. discriminate. }
  rewrite (bool_decide_eq_false_2 _ Hk5) in *. discriminate.
Qed.

(** [parseSchema] panics only on an input with a crash cause. *)
Lemma parseSchema_Panic schema p :
  parseSchema schema = Panic p -> crashCause schema.
Proof.
  unfold parseSchema.
  destruct (declare_cases (Types (Schema schema)) ∅)
    as [(all1 & Hrun1 & Hnd & Hin & Hshells & Hout)
       |[(pre & t & post & _ & _ & Hrun1)|(t & _ & _ & Hrun1)]];
    rewrite Hrun1; simpl; try discriminate.
  intros Hrun.
  set (I := fun a : gmap string GType => sameHeads all1 a).
  destruct (forM_Panic I (Types (Schema schema)) populateType all1 p)
    as (typ & a & Htyp & Ha & Hbody); try assumption.
  - intros x a b _ Ha Hb. unfold I in *.
    apply populateType_Ok in Hb as [Hab _]. by etrans.
  - unfold I. reflexivity.
  - apply (populateType_Panic schema typ a p Htyp); [|exact Hbody].
    intros t g Ht Hg. specialize (Ha (type_Name t)).
    rewrite (Hshells t Ht), Hg in Ha. inversion Ha; subst. eauto.
Qed.

Section InputKinds.

Context (O : MapOrder).
Context (mergeSchemaSlice :
  list IntrospectionQueryResult -> MergeMode -> result IntrospectionQueryResult).


End InputKinds.




(** C10. An argument or input field whose innermost kind is OBJECT or UNION
    makes parseSchema and the merge return an error on the schemas without a
    cause of a crash, [input_kinds_checked]; on others they may return
    nothing. In [schemaTruncatedThenObject] the field f of Query has the
    argument b of innermost kind OBJECT, listed after the argument a whose
    reference lookupType rejects: parseInputFields crashes on a before it
    reaches b, so that parseSchema and the merge of this schema panic. With
    b alone, [schemaWithObjectArgument], both return the bad-type error. *)
Theorem object_argument_behind_crash :
  inputPosition Examples.schemaTruncatedThenObject Examples.objectArgumentB
  /\ lookupType (input_Type Examples.objectArgumentB)
     = Ok (mkTypeRef "OBJECT" "Foo" None)
  /\ parseSchema Examples.schemaTruncatedThenObject = Panic NilDereference
  /\ Examples.convert
       {[ "A" := {[ "" := Examples.schemaTruncatedThenObject ]} ]}
     = Panic NilDereference
  /\ parseSchema Examples.schemaWithObjectArgument
     = Err (EFieldInput "f" (EInputFieldBadTyp "a" "OBJECT"))
  /\ Examples.convert
       {[ "A" := {[ "" := Examples.schemaWithObjectArgument ]} ]}
     = Err (EFieldInput "f" (EInputFieldBadTyp "a" "OBJECT")).
Proof.
  split; [|repeat split; vm_compute; reflexivity].
  exists (Examples.object "Query"
            [ mkField "f" (Examples.named "SCALAR" "string")
                [ Examples.truncatedArgument; Examples.objectArgumentB ] ]).
  split; [apply list_elem_of_In; simpl; auto|]. left. split; [reflexivity|].
  exists (mkField "f" (Examples.named "SCALAR" "string")
            [ Examples.truncatedArgument; Examples.objectArgumentB ]).
  split; apply list_elem_of_In; simpl; auto.
Qed.

(** The two-pass construction: pass 2 resolves a reference to [Foo] inside
    [Foo] to the shell made in pass 1, by name. *)
Lemma parseSchema_cyclic :
  exists table,
    parseSchema Examples.cyclicFoo = Ok table
    /\ FType <$> (objectFields table "Foo" !! "s1nest") = Some (TNamed "Foo").
Proof. eexists. split; vm_compute; reflexivity. Qed.

(** C7. parseSchema is not total. Its recursion is on the finite input only
    (every function above is a structural recursion, and lookupTypeRef reads
    the table by name, [lookupTypeRef_dom]), and it parses a type that refers
    to itself, [parseSchema_cyclic]; but on an argument whose type reference
    [lookupType] rejects, and on a possible type of a UNION that does not
    name an object, it neither returns a table nor an error: it formats the
    error message through a nil pointer and panics. *)
Theorem parseSchema_panics :
  parseSchema Examples.schemaWithTruncatedArgument = Panic NilDereference
  /\ parseSchema Examples.schemaWithStrayUnionMember = Panic NilDereference
  /\ Examples.convert
       {[ "A" := {[ "" := Examples.schemaWithTruncatedArgument ]} ]}
     = Panic NilDereference.
Proof. repeat split; vm_compute; reflexivity. Qed.
(** * Further properties of the parser *)

(** ** Type references, continued *)

Lemma getRootType'_root t : ref_OfType (getRootType' t) = None.
Proof. induction t as [k n|k n t IH] using typeRef_ind; [reflexivity|exact IH]. Qed.

Lemma getRootType'_fixed t : ref_OfType t = None -> getRootType' t = t.
Proof. destruct t as [k n [t|]]; [discriminate|reflexivity]. Qed.

(** The reference [lookupType] returns lies on the OfType chain. *)
Lemma lookupType'_chain t r :
  lookupType' t = Ok r -> getRootType' r = getRootType' t.
Proof.
  induction t as [k n|k n t IH] using typeRef_ind; simpl.
  - destruct (isNamedKind k); [by intros [= <-]|].
    destruct (isWrapperKind k); discriminate.
  - destruct (isNamedKind k); [by intros [= <-]|].
    destruct (isWrapperKind k); [exact IH|discriminate].
Qed.

Lemma isNamedKind_not_wrapper k :
  isNamedKind k = true -> k <> "LIST" /\ k <> "NON_NULL".
Proof.
  unfold isNamedKind, namedKinds. rewrite bool_decide_eq_true.
  rewrite !elem_of_cons, elem_of_nil.
  intros [->|[->|[->|[->|[->|[]]]]]]; split; discriminate.
Qed.

Lemma isWrapperKind_cases k :
  isWrapperKind k = true <-> k = "LIST" \/ k = "NON_NULL".
Proof.
  unfold isWrapperKind. rewrite orb_true_iff, !bool_decide_eq_true. tauto.
Qed.

(** [lookupTypeRef] in terms of [lookupType]: the same walk down the
    wrappers, then the name of the reference reached is looked up. *)
Lemma lookupTypeRef'_Ok t all e :
  lookupTypeRef' t all = Ok e ->
  exists r, lookupType' t = Ok r
    /\ is_Some (all !! ref_Name r)
    /\ rootName e = ref_Name r
    /\ wrappersOf e = wrapperKinds t.
Proof.
  revert e. induction t as [k n|k n t IH] using typeRef_ind; intros e; simpl.
  - destruct (isNamedKind k) eqn:Hk.
    + destruct (all !! n) eqn:Hn; [|discriminate]. intros [= <-].
      exists (mkTypeRef k n None). simpl. rewrite Hn. eauto.
    + repeat case_bool_decide; discriminate.
  - destruct (isNamedKind k) eqn:Hk.
    + destruct (all !! n) eqn:Hn; [|discriminate]. intros [= <-].
      exists (mkTypeRef k n (Some t)). simpl. rewrite Hn. eauto.
    + unfold isWrapperKind.
      case_bool_decide as Hlist; simpl.
      { intros Hrun. apply bind_Ok in Hrun as (inner & Hinner & [= <-]).
        destruct (IH inner Hinner) as (r & Hr & Hsome & Hroot & Hwrap).
        exists r. simpl. rewrite Hwrap, Hlist. auto. }
      case_bool_decide as Hnn; simpl; [|discriminate].
      intros Hrun. apply bind_Ok in Hrun as (inner & Hinner & [= <-]).
      destruct (IH inner Hinner) as (r & Hr & Hsome & Hroot & Hwrap).
      exists r. simpl. rewrite Hwrap, Hnn. auto.
Qed.

Lemma lookupTypeRef'_complete t all r :
  lookupType' t = Ok r -> is_Some (all !! ref_Name r) ->
  exists e, lookupTypeRef' t all = Ok e.
Proof.
  induction t as [k n|k n t IH] using typeRef_ind; simpl.
  - destruct (isNamedKind k) eqn:Hk.
    + intros [= <-] [g Hg]. simpl in Hg. rewrite Hg. eauto.
    + destruct (isWrapperKind k); discriminate.
  - destruct (isNamedKind k) eqn:Hk.
    + intros [= <-] [g Hg]. simpl in Hg. rewrite Hg. eauto.
    + destruct (isWrapperKind k) eqn:Hw; [|discriminate].
      intros Hr Hsome. destruct (IH Hr Hsome) as [e He]. rewrite He.
      apply isWrapperKind_cases in Hw as [->| ->]; simpl; eauto.
Qed.

Lemma lookupTypeRef'_Err t all e :
  lookupType' t = Err e -> lookupTypeRef' t all = Err e.
Proof.
  induction t as [k n|k n t IH] using typeRef_ind; simpl.
  - destruct (isNamedKind k) eqn:Hk; [discriminate|].
    unfold isWrapperKind. repeat case_bool_decide; simpl; congruence.
  - destruct (isNamedKind k) eqn:Hk; [discriminate|].
    unfold isWrapperKind. repeat case_bool_decide; simpl;
      try congruence; intros Hr; by rewrite (IH Hr).
Qed.

Lemma lookupTypeRef'_not_found t all r :
  lookupType' t = Ok r -> all !! ref_Name r = None ->
  lookupTypeRef' t all = Err (ETypeNotFound (ref_Name r)).
Proof.
  induction t as [k n|k n t IH] using typeRef_ind; simpl.
  - destruct (isNamedKind k) eqn:Hk.
    + intros [= <-] Hn. simpl in Hn. by rewrite Hn.
    + destruct (isWrapperKind k); discriminate.
  - destruct (isNamedKind k) eqn:Hk.
    + intros [= <-] Hn. simpl in Hn. by rewrite Hn.
    + destruct (isWrapperKind k) eqn:Hw; [|discriminate].
      intros Hr Hn. rewrite (IH Hr Hn).
      apply isWrapperKind_cases in Hw as [->| ->]; reflexivity.
Qed.

(** The errors of [lookupType]. *)
Lemma lookupType'_Err t e :
  lookupType' t = Err e ->
  e = EMalformedTypeRef
  \/ exists k, e = EUnknownTypeKind k
       /\ isNamedKind k = false /\ isWrapperKind k = false.
Proof.
  induction t as [k n|k n t IH] using typeRef_ind; simpl.
  - destruct (isNamedKind k) eqn:Hk; [discriminate|].
    destruct (isWrapperKind k) eqn:Hw; intros [= <-]; eauto.
  - destruct (isNamedKind k) eqn:Hk; [discriminate|].
    destruct (isWrapperKind k) eqn:Hw; [exact IH|]. intros [= <-]; eauto.
Qed.

(** X1. [getRootType] follows the OfType links of a reference to their
    end, whatever the kinds on the way: the reference it returns has no
    OfType, and it is returned for itself. [lookupType] stops at the first
    reference of a named kind; that reference lies on the same chain, and it
    is the root when it has no OfType. *)
Theorem root_of_reference t :
  (exists root,
     getRootType (Some t) = Ok root
     /\ ref_OfType root = None
     /\ getRootType (Some root) = Ok root)
  /\ forall r,
       lookupType (Some t) = Ok r ->
       isNamedKind (ref_Kind r) = true
       /\ getRootType (Some r) = getRootType (Some t)
       /\ (ref_OfType r = None -> getRootType (Some t) = Ok r).
Proof.
  split.
  - exists (getRootType' t). split; [reflexivity|].
    split; [apply getRootType'_root|].
    simpl. by rewrite (getRootType'_fixed _ (getRootType'_root t)).
  - simpl. intros r Hr. split; [by eapply lookupType'_named|].
    pose proof (lookupType'_chain t r Hr) as Hchain.
    split; [by rewrite Hchain|].
    intros Hnone. by rewrite <- Hchain, (getRootType'_fixed r Hnone).
Qed.

Lemma root_of_reference_witness :
  lookupType (Examples.listOf (Examples.named "OBJECT" "Foo"))
  = Ok (mkTypeRef "OBJECT" "Foo" None)
  /\ getRootType (Examples.listOf (Examples.named "OBJECT" "Foo"))
     = Ok (mkTypeRef "OBJECT" "Foo" None).
Proof.
  split; [reflexivity|].
  apply (proj2 (root_of_reference
                  (mkTypeRef "LIST" "" (Examples.named "OBJECT" "Foo")))
           (mkTypeRef "OBJECT" "Foo" None)); reflexivity.
Defined.

(** X2. [lookupTypeRef] returns a type exactly when [lookupType] accepts
    the reference and the name of the reference it reaches is a key of the
    table. The type returned points to that name, below one List or NonNull
    wrapper for every LIST or NON_NULL of the reference, in the same
    order. *)
Theorem lookupTypeRef_resolves t all :
  (forall e,
     lookupTypeRef (Some t) all = Ok e ->
     exists r,
       lookupType (Some t) = Ok r
       /\ is_Some (all !! ref_Name r)
       /\ rootName e = ref_Name r
       /\ wrappersOf e = wrapperKinds t)
  /\ (forall r,
        lookupType (Some t) = Ok r -> is_Some (all !! ref_Name r) ->
        exists e, lookupTypeRef (Some t) all = Ok e).
Proof.
  split.
  - intros e. apply lookupTypeRef'_Ok.
  - intros r. apply lookupTypeRef'_complete.
Qed.

Lemma lookupTypeRef_resolves_witness :
  exists r,
    lookupType (Examples.listOf (Examples.named "OBJECT" "Foo")) = Ok r
    /\ is_Some (Examples.tableOf Examples.twoServices !! ref_Name r)
    /\ rootName (TList (TNamed "Foo")) = ref_Name r
    /\ wrappersOf (TList (TNamed "Foo"))
       = wrapperKinds (mkTypeRef "LIST" "" (Examples.named "OBJECT" "Foo")).
Proof.
  apply (proj1 (lookupTypeRef_resolves
                  (mkTypeRef "LIST" "" (Examples.named "OBJECT" "Foo"))
                  (Examples.tableOf Examples.twoServices))).
  vm_compute. reflexivity.
Defined.

(** X3. [lookupTypeRef] fails as [lookupType] does, with the same error:
    the malformed-typeref error for a nil reference or a wrapper without
    OfType, the unknown-kind error for a kind that is neither named nor a
    wrapper. When [lookupType] accepts the reference, the only error left is
    that the name reached is not in the table. Neither function panics. *)
Theorem lookupTypeRef_failures t all :
  (forall e,
     lookupType t = Err e ->
     lookupTypeRef t all = Err e
     /\ (e = EMalformedTypeRef
         \/ exists k, e = EUnknownTypeKind k
              /\ isNamedKind k = false /\ isWrapperKind k = false))
  /\ (forall r,
        lookupType t = Ok r -> all !! ref_Name r = None ->
        lookupTypeRef t all = Err (ETypeNotFound (ref_Name r)))
  /\ (forall p, lookupType t <> Panic p /\ lookupTypeRef t all <> Panic p).
Proof.
  split; [|split].
  - intros e. destruct t as [t|]; simpl.
    + intros He. split; [by apply lookupTypeRef'_Err|by eapply lookupType'_Err].
    + intros [= <-]. auto.
  - intros r. destruct t as [t|]; simpl; [apply lookupTypeRef'_not_found|discriminate].
  - intros p. split; [apply lookupType_no_panic|apply lookupTypeRef_no_panic].
Qed.

Lemma lookupTypeRef_failures_witness :
  lookupTypeRef (Examples.listOf None) ∅ = Err EMalformedTypeRef
  /\ lookupTypeRef (Examples.named "OBJECT" "Foo") ∅ = Err (ETypeNotFound "Foo").
Proof.
  split.
  - apply (proj1 (lookupTypeRef_failures (Examples.listOf None) ∅)). reflexivity.
  - apply (proj1 (proj2 (lookupTypeRef_failures (Examples.named "OBJECT" "Foo") ∅))
             (mkTypeRef "OBJECT" "Foo" None)); reflexivity.
Defined.
(** ** Loops that file a value under a name *)

Lemma forM_Err {A S : Type} (xs : list A) (body : A -> S -> result S) (s : S)
    (e : error) :
  forM xs body s = Err e -> exists x a, x ∈ xs /\ body x a = Err e.
Proof.
  revert s. induction xs as [|x xs IH]; intros s; simpl; [discriminate|].
  destruct (body x s) as [s'| |] eqn:Hx; simpl.
  - intros H. destruct (IH s' H) as (y & a & Hy & Hbody).
    exists y, a. split; [by right|exact Hbody].
  - intros [= <-]. exists x, s. split; [left|exact Hx].
  - discriminate.
Qed.

Lemma forM_ext {A S : Type} (xs : list A) (body body' : A -> S -> result S) (s : S) :
  (forall x a, x ∈ xs -> body x a = body' x a) ->
  forM xs body s = forM xs body' s.
Proof.
  revert s. induction xs as [|x xs IH]; intros s Hext; simpl; [reflexivity|].
  rewrite <- (Hext x s) by left.
  destruct (body x s) as [s'| |]; simpl; try reflexivity.
  apply IH. intros y a Hy. apply Hext. by right.
Qed.

(** A loop whose body files a value under the key of its element: the map
    it returns has the keys of the elements besides those it started from,
    and the last element of a key decides its value. *)
Lemma forM_insert {A V : Type} (key : A -> string) (P : A -> V -> Prop)
    (body : A -> gmap string V -> result (gmap string V)) (xs : list A)
    (acc fields : gmap string V) :
  (forall x a b, x ∈ xs -> body x a = Ok b ->
     exists v, P x v /\ b = <[key x := v]> a) ->
  forM xs body acc = Ok fields ->
  (forall n, is_Some (fields !! n) <-> is_Some (acc !! n) \/ n ∈ key <$> xs)
  /\ (forall n, n ∉ key <$> xs -> fields !! n = acc !! n)
  /\ (forall pre x post, xs = (pre ++ x :: post)%list -> key x ∉ key <$> post ->
        exists v, P x v /\ fields !! key x = Some v).
Proof.
  revert acc. induction xs as [|x xs IH]; intros acc Hbody; simpl.
  - intros [= <-]. split; [|split].
    + intros n. rewrite elem_of_nil. tauto.
    + auto.
    + intros [|] ? ? H; discriminate H.
  - intros Hrun. apply bind_Ok in Hrun as (acc' & Hx & Hrest).
    destruct (Hbody x acc acc' (ltac:(left)) Hx) as (v & Hv & ->).
    destruct (IH (<[key x := v]> acc)) as (Hdom & Hout & Hlast);
      [intros y a b Hy; apply Hbody; by right|exact Hrest|].
    split; [|split].
    + intros n. rewrite Hdom, elem_of_cons, lookup_insert_is_Some.
      destruct (decide (key x = n)) as [->|Hne]; [tauto|].
      split; [intros [[?|[_ ?]]|?]|intros [?|[?|?]]]; auto; congruence.
    + intros n Hn. apply not_elem_of_cons in Hn as [Hne Hn].
      rewrite (Hout n Hn). by rewrite lookup_insert_ne.
    + intros [|y pre] z post Heq Hz; simpl in Heq; injection Heq as -> ->.
      * exists v. split; [exact Hv|]. rewrite (Hout _ Hz). by rewrite lookup_insert_eq.
      * by apply (Hlast pre z post).
Qed.

(** ** parseInputFields, continued *)

(** The three outcomes of one iteration. *)
Lemma parseInputField_cases all f fields :
  (exists e, lookupType (input_Type f) = Err e
     /\ parseInputField all f fields = Panic NilDereference)
  \/ (exists r, lookupType (input_Type f) = Ok r
        /\ (ref_Kind r ∉ inputKinds)
        /\ parseInputField all f fields
           = Err (EInputFieldBadTyp (input_Name f) (ref_Kind r)))
  \/ (exists r, lookupType (input_Type f) = Ok r
        /\ ref_Kind r ∈ inputKinds
        /\ all !! ref_Name r = None
        /\ parseInputField all f fields
           = Err (EFieldBadTyp (input_Name f) (ETypeNotFound (ref_Name r))))
  \/ (exists r inputType, lookupType (input_Type f) = Ok r
        /\ ref_Kind r ∈ inputKinds
        /\ lookupTypeRef (input_Type f) all = Ok inputType
        /\ parseInputField all f fields
           = Ok (<[input_Name f := inputType]> fields)).
Proof.
  unfold parseInputField.
  destruct (lookupType (input_Type f)) as [r|e|p] eqn:Hr.
  - case_bool_decide as Hk.
    + destruct (all !! ref_Name r) as [g|] eqn:Hn.
      * right; right; right.
        destruct (input_Type f) as [t|]; [|discriminate].
        destruct (lookupTypeRef'_complete t all r Hr (ltac:(eauto))) as [e He].
        exists r, e. simpl. rewrite He. auto.
      * right; right; left. exists r.
        destruct (input_Type f) as [t|]; [|discriminate].
        simpl. rewrite (lookupTypeRef'_not_found t all r Hr Hn). auto.
    + right; left. exists r. auto.
  - left. eauto.
  - by destruct (lookupType_no_panic _ _ Hr).
Qed.

Lemma parseInputField_dom (all1 all2 : gmap string GType) f fields :
  (forall n, is_Some (all1 !! n) <-> is_Some (all2 !! n)) ->
  parseInputField all1 f fields = parseInputField all2 f fields.
Proof.
  intros Hdom. unfold parseInputField.
  by rewrite (lookupTypeRef_dom (input_Type f) all1 all2 Hdom).
Qed.

Lemma parseInputFields_dom (all1 all2 : gmap string GType) source :
  (forall n, is_Some (all1 !! n) <-> is_Some (all2 !! n)) ->
  parseInputFields source all1 = parseInputFields source all2.
Proof.
  intros Hdom. unfold parseInputFields. apply forM_ext.
  intros f a _. by apply parseInputField_dom.
Qed.

(** X4. When [parseInputFields] returns a map, its keys are the names of
    the input fields of the source. A name that occurs more than once is not
    refused: the last field of that name decides the entry. The entry is the
    type [lookupTypeRef] resolves the reference of that field to, and the
    reference reaches a kind INPUT_OBJECT, SCALAR or ENUM. *)
Theorem parseInputFields_last_wins source all fields :
  parseInputFields source all = Ok fields ->
  (forall n, is_Some (fields !! n) <-> n ∈ input_Name <$> source)
  /\ forall pre f post,
       source = (pre ++ f :: post)%list ->
       input_Name f ∉ input_Name <$> post ->
       exists r inputType,
         lookupType (input_Type f) = Ok r
         /\ ref_Kind r ∈ inputKinds
         /\ lookupTypeRef (input_Type f) all = Ok inputType
         /\ fields !! input_Name f = Some inputType.
Proof.
  unfold parseInputFields. intros Hrun.
  destruct (forM_insert input_Name
              (fun f inputType =>
                 exists r, lookupType (input_Type f) = Ok r
                   /\ ref_Kind r ∈ inputKinds
                   /\ lookupTypeRef (input_Type f) all = Ok inputType)
              (parseInputField all) source ∅ fields) as (Hdom & _ & Hlast);
    [|exact Hrun|].
  { intros f a b _ Hf.
    destruct (parseInputField_cases all f a)
      as [(e & _ & H)|[(r & _ & _ & H)|[(r & _ & _ & _ & H)|(r & t & Hr & Hk & Ht & H)]]];
      rewrite H in Hf; try discriminate.
    injection Hf as <-. eauto 10. }
  split.
  - intros n. rewrite Hdom, lookup_empty. split; [intros [[? ?]|?]|]; eauto; discriminate.
  - intros pre f post Heq Hf.
    destruct (Hlast pre f post Heq Hf) as (t & (r & Hr & Hk & Ht) & Hfield). eauto 10.
Qed.

Lemma parseInputFields_last_wins_witness :
  exists r inputType,
    lookupType (Examples.named "SCALAR" "int") = Ok r
    /\ ref_Kind r ∈ inputKinds
    /\ lookupTypeRef (Examples.named "SCALAR" "int")
         (Examples.tableOf Examples.twoServices) = Ok inputType
    /\ ({[ "id" := TNamed "int" ]} : gmap string TypeExpr) !! "id" = Some inputType.
Proof.
  assert (Hrun : parseInputFields
                   [ mkInputField "id" (Examples.named "SCALAR" "string");
                     mkInputField "id" (Examples.named "SCALAR" "int") ]
                   (Examples.tableOf Examples.twoServices)
                 = Ok ({[ "id" := TNamed "int" ]} : gmap string TypeExpr))
    by (vm_compute; reflexivity).
  apply (proj2 (parseInputFields_last_wins _ _ _ Hrun)
           [ mkInputField "id" (Examples.named "SCALAR" "string") ]
           (mkInputField "id" (Examples.named "SCALAR" "int")) []).
  - reflexivity.
  - simpl. apply not_elem_of_nil.
Defined.

(** X5. The errors of [parseInputFields]. An error names a field of the
    source whose reference [lookupType] accepts: either the kind reached is
    not INPUT_OBJECT, SCALAR or ENUM (the bad-type error with that kind), or
    it is, and the name reached is not in the table (the field error around
    the not-found error). No error is returned for a reference that
    [lookupType] rejects. *)
Theorem parseInputFields_errors source all e :
  parseInputFields source all = Err e ->
  exists f r,
    f ∈ source
    /\ lookupType (input_Type f) = Ok r
    /\ (((ref_Kind r ∉ inputKinds)
         /\ e = EInputFieldBadTyp (input_Name f) (ref_Kind r))
        \/ (ref_Kind r ∈ inputKinds
            /\ all !! ref_Name r = None
            /\ e = EFieldBadTyp (input_Name f) (ETypeNotFound (ref_Name r)))).
Proof.
  unfold parseInputFields. intros Hrun.
  apply forM_Err in Hrun as (f & a & Hf & Hbody).
  destruct (parseInputField_cases all f a)
    as [(e' & _ & H)|[(r & Hr & Hk & H)|[(r & Hr & Hk & Hn & H)|(r & t & _ & _ & _ & H)]]];
    rewrite H in Hbody; try discriminate; injection Hbody as <-;
    exists f, r; eauto 10.
Qed.

Lemma parseInputFields_errors_witness :
  exists f r,
    f ∈ [ Examples.objectArgument ]
    /\ lookupType (input_Type f) = Ok r
    /\ (((ref_Kind r ∉ inputKinds)
         /\ EInputFieldBadTyp "a" "OBJECT"
            = EInputFieldBadTyp (input_Name f) (ref_Kind r))
        \/ (ref_Kind r ∈ inputKinds
            /\ (∅ : gmap string GType) !! ref_Name r = None
            /\ EInputFieldBadTyp "a" "OBJECT"
               = EFieldBadTyp (input_Name f) (ETypeNotFound (ref_Name r)))).
Proof.
  apply (parseInputFields_errors [ Examples.objectArgument ] ∅
           (EInputFieldBadTyp "a" "OBJECT")).
  vm_compute. reflexivity.
Defined.
(** ** Pass 2 of parseSchema, type by type *)

Lemma parseField_dom (all1 all2 : gmap string GType) typName field fields :
  (forall n, is_Some (all1 !! n) <-> is_Some (all2 !! n)) ->
  parseField typName all1 field fields = parseField typName all2 field fields.
Proof.
  intros Hdom. unfold parseField.
  by rewrite (lookupTypeRef_dom _ all1 all2 Hdom),
             (parseInputFields_dom all1 all2 _ Hdom).
Qed.

Lemma parsePossibleType_heads (all1 all2 : gmap string GType) typName other types :
  sameHeads all1 all2 ->
  parsePossibleType typName all1 other types
  = parsePossibleType typName all2 other types.
Proof.
  intros Hheads. unfold parsePossibleType. specialize (Hheads (ref_Name other)).
  destruct Hheads as [g g' Hsame|]; [|reflexivity].
  destruct g, g'; simpl in Hsame; try tauto; subst; reflexivity.
Qed.

(** Pass 2 on one type changes the entry of that type only. *)
Lemma populateType_frame typ all all' :
  populateType typ all = Ok all' ->
  forall m, m <> type_Name typ -> all' !! m = all !! m.
Proof.
  unfold populateType. intros Hrun m Hm.
  repeat case_bool_decide.
  - apply bind_Ok in Hrun as (fields & _ & Hrun).
    destruct (all !! type_Name typ) as [[]|]; try discriminate.
    injection Hrun as <-. by rewrite lookup_insert_ne.
  - apply bind_Ok in Hrun as (parsed & _ & Hrun).
    destruct (all !! type_Name typ) as [[]|]; try discriminate.
    injection Hrun as <-. by rewrite lookup_insert_ne.
  - apply bind_Ok in Hrun as (types & _ & Hrun).
    destruct (all !! type_Name typ) as [[]|]; try discriminate.
    injection Hrun as <-. by rewrite lookup_insert_ne.
  - destruct (all !! type_Name typ) as [[]|]; try discriminate.
    injection Hrun as <-. by rewrite lookup_insert_ne.
  - by injection Hrun as <-.
  - discriminate.
Qed.

(** The entry pass 2 leaves for a type depends on the table through its
    names, the kinds filed under them, and the entry of the type itself. *)
Lemma populateType_heads typ (a b : gmap string GType) :
  sameHeads a b -> a !! type_Name typ = b !! type_Name typ ->
  entryOf (type_Name typ) (populateType typ a)
  = entryOf (type_Name typ) (populateType typ b).
Proof.
  intros Hheads Hentry.
  assert (Hdom : forall n, is_Some (a !! n) <-> is_Some (b !! n))
    by (intros n; by apply sameHeads_is_Some).
  unfold populateType. repeat case_bool_decide.
  - rewrite (forM_ext _ (parseField (type_Name typ) a) (parseField (type_Name typ) b))
      by (intros; by apply parseField_dom).
    destruct (forM _ _ _) as [fields| |]; simpl; try reflexivity.
    rewrite <- Hentry.
    destruct (a !! type_Name typ) as [[]|]; simpl; try reflexivity.
    by rewrite !lookup_insert_eq.
  - rewrite (parseInputFields_dom a b _ Hdom).
    destruct (parseInputFields _ _) as [parsed| |]; simpl; try reflexivity.
    rewrite <- Hentry.
    destruct (a !! type_Name typ) as [[]|]; simpl; try reflexivity.
    by rewrite !lookup_insert_eq.
  - rewrite (forM_ext _ (parsePossibleType (type_Name typ) a)
               (parsePossibleType (type_Name typ) b))
      by (intros; by apply parsePossibleType_heads).
    destruct (forM _ _ _) as [types| |]; simpl; try reflexivity.
    rewrite <- Hentry.
    destruct (a !! type_Name typ) as [[]|]; simpl; try reflexivity.
    by rewrite !lookup_insert_eq.
  - rewrite <- Hentry.
    destruct (a !! type_Name typ) as [[]|]; simpl; try reflexivity.
    by rewrite !lookup_insert_eq.
  - simpl. by rewrite Hentry.
  - reflexivity.
Qed.

(** Pass 2 over a list of types with distinct names, started from a table
    [a] that agrees with [all1] on the entries of these types: the entry of
    each type in the end is the one pass 2 on that type alone leaves in
    [all1]. *)
Lemma populate_pointwise types (all1 a all : gmap string GType) :
  NoDup (typeNames types) ->
  sameHeads all1 a ->
  (forall typ, typ ∈ types -> a !! type_Name typ = all1 !! type_Name typ) ->
  forM types populateType a = Ok all ->
  (forall typ, typ ∈ types ->
     entryOf (type_Name typ) (populateType typ all1)
     = Ok (all !! type_Name typ))
  /\ (forall m, m ∉ typeNames types -> all !! m = a !! m).
Proof.
  revert a. induction types as [|typ types IH]; intros a Hnd Hheads Hagree; simpl.
  - intros [= <-]. split; [intros ? H; by apply elem_of_nil in H|auto].
  - intros Hrun. apply bind_Ok in Hrun as (a' & Htyp & Hrest).
    change (NoDup (type_Name typ :: typeNames types)) in Hnd.
    apply NoDup_cons in Hnd as [Hfresh Hnd].
    destruct (populateType_Ok typ a a' Htyp) as [Hstep _].
    assert (Hagree' : forall t, t ∈ types -> a' !! type_Name t = all1 !! type_Name t).
    { intros t Ht. rewrite <- (Hagree t) by (by right).
      apply (populateType_frame typ a a' Htyp).
      intros Heq. apply Hfresh. rewrite <- Heq. apply list_elem_of_fmap. eauto. }
    destruct (IH a' Hnd ltac:(by etrans) Hagree' Hrest) as [Hin Hout].
    split.
    + intros t Ht. apply elem_of_cons in Ht as [->|Ht]; [|by apply Hin].
      rewrite (populateType_heads typ all1 a Hheads)
        by (symmetry; apply Hagree; left).
      rewrite Htyp. simpl. by rewrite (Hout _ Hfresh).
    + intros m Hm. change (m ∉ type_Name typ :: typeNames types) in Hm.
      apply not_elem_of_cons in Hm as [Hne Hm].
      rewrite (Hout m Hm). by apply (populateType_frame typ a a' Htyp).
Qed.

(** And pass 2 over the list succeeds when it succeeds on each type
    alone. *)
Lemma populate_complete types (all1 a : gmap string GType) :
  NoDup (typeNames types) ->
  sameHeads all1 a ->
  (forall typ, typ ∈ types -> a !! type_Name typ = all1 !! type_Name typ) ->
  (forall typ, typ ∈ types -> is_ok (populateType typ all1)) ->
  is_ok (forM types populateType a).
Proof.
  revert a. induction types as [|typ types IH]; intros a Hnd Hheads Hagree Hok; simpl.
  - by exists a.
  - change (NoDup (type_Name typ :: typeNames types)) in Hnd.
    apply NoDup_cons in Hnd as [Hfresh Hnd].
    destruct (Hok typ ltac:(left)) as [x Hx].
    pose proof (populateType_heads typ all1 a Hheads
                  ltac:(symmetry; apply Hagree; left)) as Hsame.
    rewrite Hx in Hsame. simpl in Hsame.
    destruct (populateType typ a) as [a'| |] eqn:Htyp; try discriminate. simpl.
    destruct (populateType_Ok typ a a' Htyp) as [Hstep _].
    apply IH; [exact Hnd|by etrans| |intros t Ht; apply Hok; by right].
    intros t Ht. rewrite <- (Hagree t) by (by right).
    apply (populateType_frame typ a a' Htyp).
    intros Heq. apply Hfresh. rewrite <- Heq. apply list_elem_of_fmap. eauto.
Qed.

(** A successful [parseSchema], type by type: pass 1 returns the table of
    shells, and the entry of each type is the one pass 2 on that type alone
    leaves in the table of shells. *)
Lemma parseSchema_pointwise schema all :
  parseSchema schema = Ok all ->
  exists all1,
    forM (Types (Schema schema)) declareType ∅ = Ok all1
    /\ (forall n, is_Some (all1 !! n) <-> is_Some (all !! n))
    /\ (forall n, n ∉ typeNames (Types (Schema schema)) -> all1 !! n = None)
    /\ forall typ, typ ∈ Types (Schema schema) ->
         all1 !! type_Name typ = shellOf typ
         /\ entryOf (type_Name typ) (populateType typ all1)
            = Ok (all !! type_Name typ).
Proof.
  unfold parseSchema. intros Hrun.
  apply bind_Ok in Hrun as (all1 & Hpass1 & Hpass2).
  exists all1. split; [exact Hpass1|].
  destruct (declare_cases (Types (Schema schema)) ∅)
    as [(all1' & Hrun1 & Hnd & Hin & Hshells & Hout)
       |[(pre & t & post & _ & _ & Hrun1)|(t & _ & _ & Hrun1)]];
    rewrite Hrun1 in Hpass1; try discriminate.
  injection Hpass1 as ->.
  destruct (populate_Ok _ _ _ Hpass2) as [Hheads _].
  destruct (populate_pointwise _ all1 all1 all Hnd ltac:(reflexivity)
              ltac:(reflexivity) Hpass2) as [Hpoint _].
  split; [intros n; by apply sameHeads_is_Some|].
  split; [intros n Hn; by rewrite (Hout n Hn)|].
  intros typ Htyp. split; [by apply Hshells|by apply Hpoint].
Qed.
(** ** The table of a parsed schema *)

Lemma last_occurrence {A : Type} (key : A -> string) (xs : list A) (n : string) :
  n ∈ key <$> xs ->
  exists pre x post,
    xs = (pre ++ x :: post)%list /\ key x = n /\ n ∉ key <$> post.
Proof.
  induction xs as [|y ys IH]; simpl; [intros H; by apply elem_of_nil in H|].
  intros Hn. destruct (decide (n ∈ key <$> ys)) as [Hin|Hout].
  - destruct (IH Hin) as (pre & x & post & -> & Hx & Hpost).
    by exists (y :: pre), x, post.
  - apply elem_of_cons in Hn as [Hn|Hn]; [|by destruct Hout].
    by exists [], y, ys.
Qed.

(** Every entry of the map [parseInputFields] returns is the resolved type
    of a field of the source. *)
Lemma parseInputFields_resolved source all fields n inputType :
  parseInputFields source all = Ok fields ->
  fields !! n = Some inputType ->
  exists f r,
    f ∈ source /\ input_Name f = n
    /\ lookupType (input_Type f) = Ok r
    /\ ref_Kind r ∈ inputKinds
    /\ lookupTypeRef (input_Type f) all = Ok inputType.
Proof.
  unfold parseInputFields. intros Hrun Hn.
  destruct (forM_insert input_Name
              (fun f inputType =>
                 exists r, lookupType (input_Type f) = Ok r
                   /\ ref_Kind r ∈ inputKinds
                   /\ lookupTypeRef (input_Type f) all = Ok inputType)
              (parseInputField all) source ∅ fields) as (Hdom & _ & Hlast);
    [|exact Hrun|].
  { intros f a b _ Hf.
    destruct (parseInputField_cases all f a)
      as [(e & _ & H)|[(r & _ & _ & H)|[(r & _ & _ & _ & H)|(r & t & Hr & Hk & Ht & H)]]];
      rewrite H in Hf; try discriminate.
    injection Hf as <-. eauto 10. }
  assert (Hin : n ∈ input_Name <$> source).
  { destruct (proj1 (Hdom n) ltac:(eauto)) as [[? H]|H]; [|exact H].
    by rewrite lookup_empty in H. }
  destruct (last_occurrence input_Name source n Hin)
    as (pre & f & post & Heq & Hf & Hpost).
  destruct (Hlast pre f post Heq ltac:(by rewrite Hf))
    as (t & (r & Hr & Hk & Ht) & Hfield).
  rewrite Hf, Hn in Hfield. injection Hfield as <-.
  exists f, r. repeat split; try assumption.
  rewrite Heq. apply elem_of_app. right. left.
Qed.

(** The type a resolved reference points to is in the table. *)
Lemma lookupTypeRef_root_present t all e :
  lookupTypeRef t all = Ok e -> is_Some (all !! rootName e).
Proof.
  destruct t as [t|]; simpl; [|discriminate].
  intros He. apply lookupTypeRef'_Ok in He as (r & _ & Hsome & -> & _). exact Hsome.
Qed.

(** One iteration of the loop over the fields of an OBJECT. *)
Lemma parseField_Ok typName all field fields fields' :
  parseField typName all field fields = Ok fields' ->
  exists fieldTyp parsed,
    lookupTypeRef (field_Type field) all = Ok fieldTyp
    /\ parseInputFields (field_Args field) all = Ok parsed
    /\ fields' = <[field_Name field :=
                     {| Args := parsed; FType := fieldTyp; FederatedKey := None |}]>
                   fields.
Proof.
  unfold parseField. intros Hrun.
  apply bind_Ok in Hrun as (fieldTyp & Htyp & Hrun).
  apply bind_Ok in Hrun as (parsed & Hparsed & Hrun).
  apply wrapErr_Ok in Htyp. apply wrapErr_Ok in Hparsed.
  injection Hrun as <-. eauto.
Qed.

(** The entry of an OBJECT. *)
Lemma parseSchema_entry_object schema all typ :
  parseSchema schema = Ok all ->
  typ ∈ Types (Schema schema) -> type_Kind typ = "OBJECT" ->
  exists fields,
    all !! type_Name typ = Some (Object (type_Name typ) fields)
    /\ forM (type_Fields typ) (parseField (type_Name typ) all) ∅ = Ok fields.
Proof.
  intros Hparse Htyp Hk.
  destruct (parseSchema_pointwise schema all Hparse) as (all1 & _ & Hdom & _ & Hpoint).
  destruct (Hpoint typ Htyp) as [Hshell Hentry].
  unfold shellOf in Hshell. unfold populateType in Hentry.
  rewrite Hk in Hshell, Hentry. simpl in Hshell, Hentry.
  rewrite (forM_ext _ _ (parseField (type_Name typ) all)) in Hentry
    by (intros; by apply parseField_dom).
  destruct (forM (type_Fields typ) _ _) as [fields| |]; simpl in Hentry; try discriminate.
  rewrite Hshell in Hentry. simpl in Hentry. rewrite lookup_insert_eq in Hentry.
  injection Hentry as Hentry. eauto.
Qed.

(** The entry of an INPUT_OBJECT. *)
Lemma parseSchema_entry_input_object schema all typ :
  parseSchema schema = Ok all ->
  typ ∈ Types (Schema schema) -> type_Kind typ = "INPUT_OBJECT" ->
  exists parsed,
    all !! type_Name typ = Some (InputObject (type_Name typ) parsed)
    /\ parseInputFields (type_InputFields typ) all = Ok parsed.
Proof.
  intros Hparse Htyp Hk.
  destruct (parseSchema_pointwise schema all Hparse) as (all1 & _ & Hdom & _ & Hpoint).
  destruct (Hpoint typ Htyp) as [Hshell Hentry].
  unfold shellOf in Hshell. unfold populateType in Hentry.
  rewrite Hk in Hshell, Hentry. simpl in Hshell, Hentry.
  rewrite (parseInputFields_dom all1 all _ Hdom) in Hentry.
  destruct (parseInputFields _ _) as [parsed| |]; simpl in Hentry; try discriminate.
  rewrite Hshell in Hentry. simpl in Hentry. rewrite lookup_insert_eq in Hentry.
  injection Hentry as Hentry. eauto.
Qed.

(** The entry of a UNION. *)
Lemma parseSchema_entry_union schema all typ :
  parseSchema schema = Ok all ->
  typ ∈ Types (Schema schema) -> type_Kind typ = "UNION" ->
  exists members,
    all !! type_Name typ = Some (Union (type_Name typ) members)
    /\ forM (type_PossibleTypes typ) (parsePossibleType (type_Name typ) all) ∅
       = Ok members.
Proof.
  intros Hparse Htyp Hk.
  destruct (parseSchema_pointwise schema all Hparse) as (all1 & Hpass1 & Hdom & _ & Hpoint).
  destruct (Hpoint typ Htyp) as [Hshell Hentry].
  unfold shellOf in Hshell. unfold populateType in Hentry.
  rewrite Hk in Hshell, Hentry. simpl in Hshell, Hentry.
  assert (Hheads : sameHeads all1 all).
  { unfold parseSchema in Hparse. rewrite Hpass1 in Hparse. simpl in Hparse.
    by apply populate_Ok in Hparse as [? _]. }
  rewrite (forM_ext _ _ (parsePossibleType (type_Name typ) all)) in Hentry
    by (intros; by apply parsePossibleType_heads).
  destruct (forM (type_PossibleTypes typ) _ _) as [members| |]; simpl in Hentry; try discriminate.
  rewrite Hshell in Hentry. simpl in Hentry. rewrite lookup_insert_eq in Hentry.
  injection Hentry as Hentry. eauto.
Qed.

(** The entry of an ENUM. *)
Lemma parseSchema_entry_enum schema all typ :
  parseSchema schema = Ok all ->
  typ ∈ Types (Schema schema) -> type_Kind typ = "ENUM" ->
  all !! type_Name typ
  = Some (Enum (type_Name typ) (map enum_Name (type_EnumValues typ))
            (fold_left (fun m v => <[v := v]> m)
               (map enum_Name (type_EnumValues typ)) ∅)).
Proof.
  intros Hparse Htyp Hk.
  destruct (parseSchema_pointwise schema all Hparse) as (all1 & _ & Hdom & _ & Hpoint).
  destruct (Hpoint typ Htyp) as [Hshell Hentry].
  unfold shellOf in Hshell. unfold populateType in Hentry.
  rewrite Hk in Hshell, Hentry. simpl in Hshell, Hentry.
  rewrite Hshell in Hentry. simpl in Hentry. rewrite lookup_insert_eq in Hentry.
  by injection Hentry as <-.
Qed.

Lemma reverseMap_lookup (values : list string) (acc : gmap string string) (v : string) :
  fold_left (fun m v => <[v := v]> m) values acc !! v
  = if decide (v ∈ values) then Some v else acc !! v.
Proof.
  revert acc. induction values as [|w values IH]; intros acc; simpl.
  - destruct (decide (v ∈ [])) as [H|_]; [by apply elem_of_nil in H|reflexivity].
  - rewrite IH. destruct (decide (v ∈ values)) as [Hin|Hout].
    + rewrite decide_True by (by right). reflexivity.
    + destruct (decide (w = v)) as [->|Hne].
      * rewrite decide_True by left. by rewrite lookup_insert_eq.
      * rewrite decide_False by (intros H; apply elem_of_cons in H as [?|?]; congruence).
        by rewrite lookup_insert_ne.
Qed.

(** One possible type of a UNION, in a table whose objects are filed under
    their own names. *)
Lemma parsePossibleType_Ok typName (all : gmap string GType) other types types' :
  (forall n name fields, all !! n = Some (Object name fields) -> name = n) ->
  parsePossibleType typName all other types = Ok types' ->
  ref_Kind other = "OBJECT"
  /\ (exists fields, all !! ref_Name other = Some (Object (ref_Name other) fields))
  /\ types' = <[ref_Name other := ref_Name other]> types.
Proof.
  intros Hnames. unfold parsePossibleType.
  case_bool_decide as Hk; [|discriminate].
  destruct (all !! ref_Name other) as [[name fields| | | |]|] eqn:Hn; try discriminate.
  intros [= <-]. rewrite (Hnames _ _ _ Hn) in *. eauto.
Qed.
(** Every entry of a map built by such a loop from the empty map is the
    value of an element of that key. *)
Lemma forM_insert_entries {A V : Type} (key : A -> string) (P : A -> V -> Prop)
    (body : A -> gmap string V -> result (gmap string V)) (xs : list A)
    (fields : gmap string V) :
  (forall x a b, x ∈ xs -> body x a = Ok b ->
     exists v, P x v /\ b = <[key x := v]> a) ->
  forM xs body ∅ = Ok fields ->
  forall k v, fields !! k = Some v -> exists x, x ∈ xs /\ key x = k /\ P x v.
Proof.
  intros Hbody Hrun k v Hk.
  destruct (forM_insert key P body xs ∅ fields Hbody Hrun) as (Hdom & _ & Hlast).
  assert (Hin : k ∈ key <$> xs).
  { destruct (proj1 (Hdom k) ltac:(eauto)) as [[? H]|H]; [|exact H].
    by rewrite lookup_empty in H. }
  destruct (last_occurrence key xs k Hin) as (pre & x & post & Heq & Hx & Hpost).
  destruct (Hlast pre x post Heq ltac:(by rewrite Hx)) as (v' & Hv' & Hfield).
  rewrite Hx, Hk in Hfield. injection Hfield as <-.
  exists x. split; [|by split].
  rewrite Heq. apply elem_of_app. right. left.
Qed.

Lemma shellOf_kind typ g :
  shellOf typ = Some g -> kindOf g = type_Kind typ /\ nameOf g = type_Name typ.
Proof.
  unfold shellOf. repeat case_bool_decide; intros [= <-]; simpl; auto.
Qed.

Lemma sameHead_kind g g' :
  sameHead g g' -> kindOf g = kindOf g' /\ nameOf g = nameOf g'.
Proof. destruct g, g'; simpl; intros H; try tauto; subst; auto. Qed.

(** X6. The table of a parsed schema and the types the schema lists
    correspond one to one: every listed type has an entry under its name,
    built from its kind and carrying its name; and every entry of the table
    comes from a listed type of that name and kind. *)
Theorem parseSchema_entries_declared schema all :
  parseSchema schema = Ok all ->
  (forall typ, typ ∈ Types (Schema schema) ->
     exists g, all !! type_Name typ = Some g
       /\ kindOf g = type_Kind typ /\ nameOf g = type_Name typ)
  /\ (forall n g, all !! n = Some g ->
        exists typ, typ ∈ Types (Schema schema)
          /\ type_Name typ = n /\ type_Kind typ = kindOf g /\ nameOf g = n).
Proof.
  intros Hparse.
  destruct (parseSchema_Ok schema all Hparse) as (_ & Hknown & Hdom & Hshells & _).
  assert (Hfwd : forall typ, typ ∈ Types (Schema schema) ->
            exists g, all !! type_Name typ = Some g
              /\ kindOf g = type_Kind typ /\ nameOf g = type_Name typ).
  { intros typ Htyp.
    destruct (proj2 (shellOf_known typ) (Hknown typ Htyp)) as [g0 Hg0].
    destruct (Hshells typ g0 Htyp Hg0) as (g & Hg & Hsame).
    destruct (shellOf_kind typ g0 Hg0) as [Hk Hn].
    destruct (sameHead_kind g0 g Hsame) as [Hk' Hn'].
    exists g. split; [exact Hg|]. split; congruence. }
  split; [exact Hfwd|].
  intros n g Hn.
  assert (Hin : n ∈ typeNames (Types (Schema schema))) by (apply Hdom; eauto).
  apply list_elem_of_fmap in Hin as (typ & -> & Htyp).
  destruct (Hfwd typ Htyp) as (g' & Hg' & Hk & Hname).
  rewrite Hn in Hg'. injection Hg' as <-. exists typ. auto.
Qed.

Lemma parseSchema_entries_declared_witness :
  exists g,
    Examples.zooTable !! "Pet" = Some g
    /\ kindOf g = "UNION" /\ nameOf g = "Pet".
Proof.
  apply (proj1 (parseSchema_entries_declared Examples.zoo Examples.zooTable
                  ltac:(vm_compute; reflexivity)) Examples.pet).
  apply list_elem_of_In. simpl. auto.
Defined.

(** X7. The entry of a listed OBJECT is an object of that name whose
    fields are those the type lists, by name. A field name listed more than
    once is not refused: the last field of the name decides. The merged
    field has the resolved type of the field, the arguments
    [parseInputFields] returns for it, both against the table returned, and
    no federated keys. *)
Theorem parseSchema_object_fields schema all typ :
  parseSchema schema = Ok all ->
  typ ∈ Types (Schema schema) ->
  type_Kind typ = "OBJECT" ->
  exists fields,
    all !! type_Name typ = Some (Object (type_Name typ) fields)
    /\ (forall n, is_Some (fields !! n) <-> n ∈ field_Name <$> type_Fields typ)
    /\ forall pre field post,
         type_Fields typ = (pre ++ field :: post)%list ->
         field_Name field ∉ field_Name <$> post ->
         exists fieldTyp parsed,
           lookupTypeRef (field_Type field) all = Ok fieldTyp
           /\ parseInputFields (field_Args field) all = Ok parsed
           /\ fields !! field_Name field
              = Some {| Args := parsed; FType := fieldTyp; FederatedKey := None |}.
Proof.
  intros Hparse Htyp Hk.
  destruct (parseSchema_entry_object schema all typ Hparse Htyp Hk)
    as (fields & Hentry & Hrun).
  exists fields. split; [exact Hentry|].
  destruct (forM_insert field_Name
              (fun field f =>
                 exists fieldTyp parsed,
                   lookupTypeRef (field_Type field) all = Ok fieldTyp
                   /\ parseInputFields (field_Args field) all = Ok parsed
                   /\ f = {| Args := parsed; FType := fieldTyp;
                             FederatedKey := None |})
              (parseField (type_Name typ) all) (type_Fields typ) ∅ fields)
    as (Hdom & _ & Hlast); [|exact Hrun|].
  { intros field a b _ Hfield.
    apply parseField_Ok in Hfield as (fieldTyp & parsed & ? & ? & ->). eauto 10. }
  split.
  - intros n. rewrite Hdom, lookup_empty. split; [intros [[? ?]|?]|]; eauto; discriminate.
  - intros pre field post Heq Hfield.
    destruct (Hlast pre field post Heq Hfield)
      as (f & (fieldTyp & parsed & ? & ? & ->) & Hf). eauto 10.
Qed.

Lemma parseSchema_object_fields_witness :
  exists fields,
    Examples.zooTable !! "Cat" = Some (Object "Cat" fields)
    /\ (forall n, is_Some (fields !! n) <-> n ∈ ["name"; "friends"; "name"])
    /\ forall pre field post,
         type_Fields Examples.cat = (pre ++ field :: post)%list ->
         field_Name field ∉ field_Name <$> post ->
         exists fieldTyp parsed,
           lookupTypeRef (field_Type field) Examples.zooTable = Ok fieldTyp
           /\ parseInputFields (field_Args field) Examples.zooTable = Ok parsed
           /\ fields !! field_Name field
              = Some {| Args := parsed; FType := fieldTyp; FederatedKey := None |}.
Proof.
  apply (parseSchema_object_fields Examples.zoo Examples.zooTable Examples.cat).
  - vm_compute. reflexivity.
  - apply list_elem_of_In. simpl. auto 10.
  - reflexivity.
Defined.

(** X8. The entry of a listed INPUT_OBJECT is an input object of that name
    whose input fields are what [parseInputFields] returns for the input
    fields the type lists, against the table returned. *)
Theorem parseSchema_input_object_fields schema all typ :
  parseSchema schema = Ok all ->
  typ ∈ Types (Schema schema) ->
  type_Kind typ = "INPUT_OBJECT" ->
  exists parsed,
    all !! type_Name typ = Some (InputObject (type_Name typ) parsed)
    /\ parseInputFields (type_InputFields typ) all = Ok parsed
    /\ forall n, is_Some (parsed !! n) <-> n ∈ input_Name <$> type_InputFields typ.
Proof.
  intros Hparse Htyp Hk.
  destruct (parseSchema_entry_input_object schema all typ Hparse Htyp Hk)
    as (parsed & Hentry & Hrun).
  exists parsed. split; [exact Hentry|]. split; [exact Hrun|].
  unfold parseInputFields in Hrun.
  destruct (forM_insert input_Name (fun _ _ => True)
              (parseInputField all) (type_InputFields typ) ∅ parsed)
    as (Hdom & _ & _); [|exact Hrun|].
  { intros f a b _ Hf.
    destruct (parseInputField_cases all f a)
      as [(e & _ & H)|[(r & _ & _ & H)|[(r & _ & _ & _ & H)|(r & t & _ & _ & _ & H)]]];
      rewrite H in Hf; try discriminate.
    injection Hf as <-. eauto. }
  intros n. rewrite Hdom, lookup_empty. split; [intros [[? ?]|?]|]; eauto; discriminate.
Qed.

Lemma parseSchema_input_object_fields_witness :
  exists parsed,
    Examples.zooTable !! "PetKeys" = Some (InputObject "PetKeys" parsed)
    /\ parseInputFields (type_InputFields Examples.petKeys) Examples.zooTable
       = Ok parsed
    /\ forall n, is_Some (parsed !! n) <-> n ∈ ["name"].
Proof.
  apply (parseSchema_input_object_fields Examples.zoo Examples.zooTable
           Examples.petKeys).
  - vm_compute. reflexivity.
  - apply list_elem_of_In. simpl. auto 10.
  - reflexivity.
Defined.

(** X9. The entry of a listed UNION is a union of that name. Every
    possible type the UNION lists has kind OBJECT and names an object of the
    table, and the union holds it under that name; the union holds nothing
    else. *)
Theorem parseSchema_union_members schema all typ :
  parseSchema schema = Ok all ->
  typ ∈ Types (Schema schema) ->
  type_Kind typ = "UNION" ->
  exists members,
    all !! type_Name typ = Some (Union (type_Name typ) members)
    /\ (forall other, other ∈ type_PossibleTypes typ ->
          ref_Kind other = "OBJECT"
          /\ members !! ref_Name other = Some (ref_Name other)
          /\ exists fields,
               all !! ref_Name other = Some (Object (ref_Name other) fields))
    /\ (forall m p, members !! m = Some p ->
          p = m /\ m ∈ ref_Name <$> type_PossibleTypes typ).
Proof.
  intros Hparse Htyp Hk.
  destruct (parseSchema_entry_union schema all typ Hparse Htyp Hk)
    as (members & Hentry & Hrun).
  exists members. split; [exact Hentry|].
  assert (Hbody : forall other a b,
            other ∈ type_PossibleTypes typ ->
            parsePossibleType (type_Name typ) all other a = Ok b ->
            exists v,
              (v = ref_Name other /\ ref_Kind other = "OBJECT"
               /\ exists fields,
                    all !! ref_Name other = Some (Object (ref_Name other) fields))
              /\ b = <[ref_Name other := v]> a).
  { intros other a b _ Hother.
    apply parsePossibleType_Ok in Hother as (Hkind & Hobj & ->);
      [eauto 10|].
    intros n name fields. apply (parseSchema_object_names schema all _ _ _ Hparse). }
  destruct (forM_insert ref_Name _ _ _ ∅ members Hbody Hrun) as (Hdom & _ & Hlast).
  split.
  - intros other Hother.
    destruct (last_occurrence ref_Name (type_PossibleTypes typ) (ref_Name other))
      as (pre & x & post & Heq & Hx & Hpost);
      [apply list_elem_of_fmap; eauto|].
    destruct (Hlast pre x post Heq ltac:(by rewrite Hx))
      as (v & (-> & _ & Hobj) & Hmember).
    rewrite Hx in Hmember, Hobj.
    destruct (forM_Ok_elem _ _ _ _ Hrun other Hother) as (a & b & Hb).
    destruct (Hbody other a b Hother Hb) as (v & (_ & Hkind & _) & _).
    auto.
  - intros m p Hm.
    destruct (forM_insert_entries ref_Name _ _ _ members Hbody Hrun m p Hm)
      as (other & Hother & <- & -> & _).
    split; [reflexivity|]. apply list_elem_of_fmap. eauto.
Qed.

Lemma parseSchema_union_members_witness :
  exists members,
    Examples.zooTable !! "Pet" = Some (Union "Pet" members)
    /\ (forall other, other ∈ type_PossibleTypes Examples.pet ->
          ref_Kind other = "OBJECT"
          /\ members !! ref_Name other = Some (ref_Name other)
          /\ exists fields,
               Examples.zooTable !! ref_Name other
               = Some (Object (ref_Name other) fields))
    /\ (forall m p, members !! m = Some p ->
          p = m /\ m ∈ ref_Name <$> type_PossibleTypes Examples.pet).
Proof.
  apply (parseSchema_union_members Examples.zoo Examples.zooTable Examples.pet).
  - vm_compute. reflexivity.
  - apply list_elem_of_In. simpl. auto 10.
  - reflexivity.
Defined.

(** X10. The entry of a listed ENUM is an enum of that name: its values
    are the names of the enum values the type lists, in their order and with
    their repetitions, and its reverse map sends each of these names to
    itself and holds nothing else. *)
Theorem parseSchema_enum_values schema all typ :
  parseSchema schema = Ok all ->
  typ ∈ Types (Schema schema) ->
  type_Kind typ = "ENUM" ->
  exists reverseMap,
    all !! type_Name typ
    = Some (Enum (type_Name typ) (map enum_Name (type_EnumValues typ)) reverseMap)
    /\ forall v,
         reverseMap !! v
         = if decide (v ∈ map enum_Name (type_EnumValues typ))
           then Some v else None.
Proof.
  intros Hparse Htyp Hk.
  eexists. split; [exact (parseSchema_entry_enum schema all typ Hparse Htyp Hk)|].
  intros v. by rewrite reverseMap_lookup, lookup_empty.
Qed.

Lemma parseSchema_enum_values_witness :
  exists reverseMap,
    Examples.zooTable !! "Color"
    = Some (Enum "Color" ["RED"; "GREEN"; "RED"] reverseMap)
    /\ forall v,
         reverseMap !! v
         = if decide (v ∈ ["RED"; "GREEN"; "RED"]) then Some v else None.
Proof.
  apply (parseSchema_enum_values Examples.zoo Examples.zooTable Examples.color).
  - vm_compute. reflexivity.
  - apply list_elem_of_In. simpl. auto 10.
  - reflexivity.
Defined.
(** X11. The table of a parsed schema is closed: the type of every field
    of every object, the type of every argument of such a field and the type
    of every input field of every input object point, below their wrappers,
    to a name of the table; every member of a union is an object of the
    table, held under its own name; and no field carries federated keys. *)
Theorem parseSchema_closed schema all :
  parseSchema schema = Ok all ->
  forall n g, all !! n = Some g ->
    match g with
    | Object _ fields =>
        forall k f, fields !! k = Some f ->
          is_Some (all !! rootName (FType f))
          /\ FederatedKey f = None
          /\ forall a e, Args f !! a = Some e -> is_Some (all !! rootName e)
    | InputObject _ inputFields =>
        forall k e, inputFields !! k = Some e -> is_Some (all !! rootName e)
    | Union _ members =>
        forall k p, members !! k = Some p ->
          p = k /\ exists fields, all !! p = Some (Object p fields)
    | Scalar _ | Enum _ _ _ => True
    end.
Proof.
  intros Hparse n g Hn.
  destruct (parseSchema_Ok schema all Hparse) as (_ & Hknown & Hdom & Hshells & _).
  assert (Hin : n ∈ typeNames (Types (Schema schema))) by (apply Hdom; eauto).
  apply list_elem_of_fmap in Hin as (typ & -> & Htyp).
  assert (Hkind : kindOf g = type_Kind typ).
  { destruct (proj2 (shellOf_known typ) (Hknown typ Htyp)) as [g0 Hg0].
    destruct (Hshells typ g0 Htyp Hg0) as (g' & Hg' & Hsame).
    rewrite Hn in Hg'. injection Hg' as <-.
    destruct (shellOf_kind typ g0 Hg0), (sameHead_kind g0 g Hsame). congruence. }
  destruct g as [name fields|name inputFields|name|name members|name values rmap];
    simpl in Hkind; [| | exact I | | exact I].
  - destruct (parseSchema_entry_object schema all typ Hparse Htyp (eq_sym Hkind))
      as (fields' & Hentry & Hrun).
    rewrite Hn in Hentry. injection Hentry as -> <-.
    intros k f Hk.
    destruct (forM_insert_entries field_Name
                (fun field f =>
                   exists fieldTyp parsed,
                     lookupTypeRef (field_Type field) all = Ok fieldTyp
                     /\ parseInputFields (field_Args field) all = Ok parsed
                     /\ f = {| Args := parsed; FType := fieldTyp;
                               FederatedKey := None |})
                (parseField (type_Name typ) all) (type_Fields typ) fields)
      with (k := k) (v := f)
      as (field & _ & _ & fieldTyp & parsed & Htype & Hargs & ->);
      [|exact Hrun|exact Hk|].
    { intros field a b _ Hfield.
      apply parseField_Ok in Hfield as (fieldTyp & parsed & ? & ? & ->). eauto 10. }
    simpl. split; [by eapply lookupTypeRef_root_present|]. split; [reflexivity|].
    intros a e Ha.
    destruct (parseInputFields_resolved _ _ _ _ _ Hargs Ha)
      as (arg & r & _ & _ & _ & _ & He).
    by eapply lookupTypeRef_root_present.
  - destruct (parseSchema_entry_input_object schema all typ Hparse Htyp (eq_sym Hkind))
      as (parsed & Hentry & Hrun).
    rewrite Hn in Hentry. injection Hentry as -> <-.
    intros k e Hk.
    destruct (parseInputFields_resolved _ _ _ _ _ Hrun Hk)
      as (arg & r & _ & _ & _ & _ & He).
    by eapply lookupTypeRef_root_present.
  - destruct (parseSchema_entry_union schema all typ Hparse Htyp (eq_sym Hkind))
      as (members' & Hentry & Hrun).
    rewrite Hn in Hentry. injection Hentry as -> <-.
    intros k p Hk.
    destruct (forM_insert_entries ref_Name
                (fun other v =>
                   v = ref_Name other
                   /\ exists fields,
                        all !! ref_Name other = Some (Object (ref_Name other) fields))
                (parsePossibleType (type_Name typ) all) (type_PossibleTypes typ)
                members)
      with (k := k) (v := p)
      as (other & _ & <- & -> & Hobj); [|exact Hrun|exact Hk|auto].
    intros other a b _ Hother.
    apply parsePossibleType_Ok in Hother as (_ & Hobj & ->); [eauto 10|].
    intros m name fields. apply (parseSchema_object_names schema all _ _ _ Hparse).
Qed.

Lemma parseSchema_closed_witness :
  Examples.zooTable !! "Pet" = Some (Union "Pet" {[ "Cat" := "Cat"; "Dog" := "Dog" ]})
  /\ forall k p,
       ({[ "Cat" := "Cat"; "Dog" := "Dog" ]} : gmap string string) !! k = Some p ->
       p = k /\ exists fields, Examples.zooTable !! p = Some (Object p fields).
Proof.
  assert (Hpet : Examples.zooTable !! "Pet"
                 = Some (Union "Pet" {[ "Cat" := "Cat"; "Dog" := "Dog" ]}))
    by (vm_compute; reflexivity).
  split; [exact Hpet|].
  assert (Hparse : parseSchema Examples.zoo = Ok Examples.zooTable)
    by (vm_compute; reflexivity).
  exact (parseSchema_closed Examples.zoo Examples.zooTable Hparse "Pet" _ Hpet).
Defined.

(** ** The order of the types *)

(** Pass 1 on two lists of the same types returns the same table. *)
Lemma declare_permutation types types' (all1 : gmap string GType) :
  types' ≡ₚ types ->
  forM types declareType ∅ = Ok all1 ->
  forM types' declareType ∅ = Ok all1.
Proof.
  intros Hperm Hrun.
  assert (Hnames : typeNames types' ≡ₚ typeNames types)
    by (unfold typeNames; by rewrite Hperm).
  destruct (declare_cases types ∅)
    as [(x & Hx & Hnd & Hin & Hshells & Hout)
       |[(pre & t & post & _ & _ & Hx)|(t & _ & _ & Hx)]];
    rewrite Hx in Hrun; try discriminate.
  injection Hrun as ->.
  destruct (declare_cases types' ∅)
    as [(all1' & Hrun' & Hnd' & Hin' & Hshells' & Hout')
       |[(pre & t & post & Heq & Hdup & _)|(t & Ht & Hk & _)]].
  - rewrite Hrun'. f_equal. apply map_eq. intros n.
    destruct (decide (n ∈ typeNames types)) as [Hyes|Hno].
    + apply list_elem_of_fmap in Hyes as (typ & -> & Htyp).
      rewrite (Hshells typ Htyp). apply Hshells'. by rewrite Hperm.
    + rewrite (Hout n Hno). apply Hout'. by rewrite Hnames.
  - exfalso. rewrite lookup_empty in Hdup.
    destruct Hdup as [Hdup|[? Hdup]]; [|discriminate].
    rewrite <- Hnames, Heq in Hnd. unfold typeNames in Hnd.
    rewrite fmap_app, fmap_cons in Hnd.
    apply NoDup_app in Hnd as (_ & Hnd & _).
    apply (Hnd (type_Name t) Hdup). left.
  - exfalso. apply Hk. apply Hin. by rewrite <- Hperm.
Qed.

(** X12. The table [parseSchema] returns does not depend on the order in
    which the schema lists its types: a schema that lists the same types in
    another order is parsed to the same table. References forward, backward
    and to the type itself resolve alike. *)
Theorem parseSchema_order_independent schema schema' all :
  Types (Schema schema') ≡ₚ Types (Schema schema) ->
  parseSchema schema = Ok all ->
  parseSchema schema' = Ok all.
Proof.
  intros Hperm Hparse.
  destruct (parseSchema_Ok schema all Hparse) as (Hnd & _).
  destruct (parseSchema_pointwise schema all Hparse)
    as (all1 & Hpass1 & Hdom & Hnone & Hpoint).
  assert (Hnames : typeNames (Types (Schema schema'))
                   ≡ₚ typeNames (Types (Schema schema)))
    by (unfold typeNames; by rewrite Hperm).
  assert (Hnd' : NoDup (typeNames (Types (Schema schema')))) by (by rewrite Hnames).
  unfold parseSchema.
  rewrite (declare_permutation _ _ all1 Hperm Hpass1). simpl.
  destruct (populate_complete (Types (Schema schema')) all1 all1 Hnd')
    as [all' Hrun']; [reflexivity|reflexivity| |].
  { intros typ Htyp. rewrite Hperm in Htyp.
    destruct (Hpoint typ Htyp) as [_ Hentry].
    destruct (populateType typ all1) as [x| |]; [by exists x|discriminate..]. }
  rewrite Hrun'. f_equal.
  destruct (populate_pointwise _ all1 all1 all' Hnd' ltac:(reflexivity)
              ltac:(reflexivity) Hrun') as [Hpoint' Hout'].
  apply map_eq. intros n.
  destruct (decide (n ∈ typeNames (Types (Schema schema)))) as [Hyes|Hno].
  - apply list_elem_of_fmap in Hyes as (typ & -> & Htyp).
    destruct (Hpoint typ Htyp) as [_ Hentry].
    rewrite (Hpoint' typ) in Hentry by (by rewrite Hperm). congruence.
  - rewrite (Hout' n) by (by rewrite Hnames). rewrite (Hnone n Hno).
    destruct (all !! n) eqn:Hn; [|reflexivity].
    destruct (proj2 (Hdom n) ltac:(eauto)) as [? Hsome].
    by rewrite (Hnone n Hno) in Hsome.
Qed.

Lemma parseSchema_order_independent_witness :
  parseSchema Examples.zooBackwards = Ok Examples.zooTable.
Proof.
  apply (parseSchema_order_independent Examples.zoo Examples.zooBackwards).
  - change (rev (Types (Schema Examples.zoo)) ≡ₚ Types (Schema Examples.zoo)).
    symmetry. apply Permutation_rev.
  - vm_compute. reflexivity.
Defined.

(** ** The panics of parseSchema *)

Lemma parseInputFields_Panic_nil source all p :
  parseInputFields source all = Panic p -> p = NilDereference.
Proof.
  unfold parseInputFields. intros Hrun.
  destruct (forM_Panic (fun _ => True) source (parseInputField all) ∅ p)
    as (f & a & _ & _ & Hbody); auto.
  destruct (parseInputField_cases all f a)
    as [(e & _ & H)|[(r & _ & _ & H)|[(r & _ & _ & _ & H)|(r & t & _ & _ & _ & H)]]];
    rewrite H in Hbody; congruence.
Qed.

Lemma parseField_Panic_nil typName all field fields p :
  parseField typName all field fields = Panic p -> p = NilDereference.
Proof.
  unfold parseField.
  destruct (lookupTypeRef (field_Type field) all) as [t|e|q] eqn:Href; simpl;
    try discriminate.
  - destruct (parseInputFields (field_Args field) all) as [m|e|q] eqn:Hargs; simpl;
      try discriminate.
    intros [= <-]. by eapply parseInputFields_Panic_nil.
  - by destruct (lookupTypeRef_no_panic (field_Type field) all q).
Qed.

(** Pass 2 on one type, in a table that files a type of its kind under its
    name: the assertion on the entry holds, and a panic is a nil
    dereference. *)
Lemma populateType_Panic_nil typ (all : gmap string GType) p :
  (forall g, shellOf typ = Some g ->
     exists g', all !! type_Name typ = Some g' /\ sameHead g g') ->
  populateType typ all = Panic p -> p = NilDereference.
Proof.
  intros Hhead. unfold populateType, shellOf in *.
  repeat case_bool_decide; try congruence; try discriminate;
    destruct (Hhead _ eq_refl) as (g' & Hg' & Hsame); rewrite Hg';
    destruct g'; simpl in Hsame; try tauto; try discriminate.
  - destruct (forM (type_Fields typ) _ _) as [fields|e|q] eqn:Hfields; simpl;
      try discriminate.
    intros [= <-].
    destruct (forM_Panic (fun _ => True) _ _ _ _ ltac:(auto) I Hfields)
      as (field & a & _ & _ & Hbody).
    by eapply parseField_Panic_nil.
  - destruct (parseInputFields _ _) as [parsed|e|q] eqn:Hparsed; simpl;
      try discriminate.
    intros [= <-]. by eapply parseInputFields_Panic_nil.
  - destruct (forM (type_PossibleTypes typ) _ _) as [types|e|q] eqn:Htypes; simpl;
      try discriminate.
    intros [= <-].
    destruct (forM_Panic (fun _ => True) _ _ _ _ ltac:(auto) I Htypes)
      as (other & a & _ & _ & Hbody).
    unfold parsePossibleType in Hbody.
    case_bool_decide; [|discriminate].
    destruct (all !! ref_Name other) as [[]|]; congruence.
Qed.

(** A panic of [parseSchema] is a nil dereference. *)
Lemma parseSchema_Panic_nil schema p :
  parseSchema schema = Panic p -> p = NilDereference.
Proof.
  intros Hparse. unfold parseSchema in Hparse.
  destruct (declare_cases (Types (Schema schema)) ∅)
    as [(all1 & Hrun1 & Hnd & Hin & Hshells & Hout)
       |[(pre & t & post & _ & _ & Hrun1)|(t & _ & _ & Hrun1)]];
    rewrite Hrun1 in Hparse; try discriminate.
  simpl in Hparse.
  destruct (forM_Panic (sameHeads all1) (Types (Schema schema)) populateType all1 p)
    as (typ & a & Htyp & Hheads & Hbody); [|reflexivity|exact Hparse|].
  { intros x a b _ Ha Hb. apply populateType_Ok in Hb as [Hb _]. by etrans. }
  apply (populateType_Panic_nil typ a p); [|exact Hbody].
  intros g Hg. specialize (Hheads (type_Name typ)).
  rewrite (Hshells typ Htyp), Hg in Hheads. inversion Hheads; subst. eauto.
Qed.

(** X13. The only panics of [parseSchema] are the two nil dereferences in
    the error messages of pass 2, on a schema with a cause of them. The type
    assertions of pass 2 on the entries of the table, written without
    comma-ok, never fail: pass 1 filed a type of the asserted kind under
    that name. *)
Theorem parseSchema_assertions_hold schema p :
  parseSchema schema = Panic p -> p = NilDereference /\ crashCause schema.
Proof.
  intros Hparse. split; [by eapply parseSchema_Panic_nil|by eapply parseSchema_Panic].
Qed.

Lemma parseSchema_assertions_hold_witness :
  NilDereference = NilDereference
  /\ crashCause Examples.schemaWithStrayUnionMember.
Proof.
  apply (parseSchema_assertions_hold Examples.schemaWithStrayUnionMember
           NilDereference).
  vm_compute. reflexivity.
Defined.
(** * Further properties of the validators *)

(** The first loop of [validateFederatedObjects] returns no error; it
    panics when it reaches a service name without a schema on record. *)
Lemma federatedOnOneService_missing serviceNames byName objName service
    (found : bool) :
  service ∈ serviceNames -> byName !! service = None ->
  forM serviceNames (fun service found =>
    typesOf byName service ≫= fun types =>
      forM types (fun typ found =>
        if bool_decide (type_Name typ = objName) && hasField federationField typ
        then Ok true else Ok found) found) found
  = Panic NilDereference.
Proof.
  revert found. induction serviceNames as [|s names IH]; intros found Hin Hnone.
  - by apply elem_of_nil in Hin.
  - simpl. destruct (byName !! s) as [schema|] eqn:Hs.
    2:{ assert (Ht : typesOf byName s = Panic NilDereference)
          by (unfold typesOf; by rewrite Hs).
        by rewrite Ht. }
    assert (Ht : typesOf byName s = Ok (Types (Schema schema)))
      by (unfold typesOf; by rewrite Hs).
    rewrite Ht. simpl.
    destruct (forM_flag (Types (Schema schema))
                (fun typ => bool_decide (type_Name typ = objName)
                            && hasField federationField typ) found)
      as (b & Hb & _).
    rewrite Hb. simpl. apply IH; [|exact Hnone].
    apply elem_of_cons in Hin as [->|Hin]; [congruence|exact Hin].
Qed.

(** X14. The validators read the schema of every service name they are
    given through the map of schemas on record. A name without a schema on
    record is a nil pointer there: [validateFederatedObjects] panics on it,
    and [validateFederationKeys] does not pass. *)
Theorem validators_need_schemas_on_record serviceNames byName objName K service :
  service ∈ serviceNames ->
  byName !! service = None ->
  validateFederatedObjects serviceNames byName objName = Panic NilDereference
  /\ validateFederationKeys serviceNames byName objName K <> Ok tt.
Proof.
  intros Hin Hnone. split.
  - unfold validateFederatedObjects.
    by rewrite (federatedOnOneService_missing _ _ _ service false Hin Hnone).
  - unfold validateFederationKeys.
    apply (forEach_not_Ok _ _ service Hin).
    unfold typesOf. by rewrite Hnone.
Qed.

Lemma validators_need_schemas_on_record_witness :
  validateFederatedObjects ["A"] ∅ "Foo" = Panic NilDereference
  /\ validateFederationKeys ["A"] ∅ "Foo" "name" <> Ok tt.
Proof.
  apply (validators_need_schemas_on_record ["A"] ∅ "Foo" "name" "A").
  - left.
  - reflexivity.
Defined.

(** X15. [validateFederatedObjects] exempts the root types: for the names
    Query and Mutation it passes whatever the services declare, with or
    without the _federation field. It passes as well for a name that no
    service declares with that field. *)
Theorem root_types_exempt serviceNames byName objName :
  allPresent serviceNames byName ->
  objName = "Query" \/ objName = "Mutation"
  \/ ~ declaredWithMarker serviceNames byName objName true ->
  validateFederatedObjects serviceNames byName objName = Ok tt.
Proof.
  intros Hall Hcase.
  destruct (validateFederatedObjects_spec serviceNames byName objName Hall)
    as [[Hok _]|[_ (Hmarker & Hq & Hm & _)]]; [exact Hok|].
  destruct Hcase as [->|[->|Hno]]; [by destruct Hq|by destruct Hm|by destruct Hno].
Qed.

Lemma root_types_exempt_witness :
  validateFederatedObjects ["A"; "B"]
    {[ "A" := Examples.schemaOf
                [ Examples.object "Query"
                    [ mkField "_federation" (Examples.named "OBJECT" "Query") [] ] ];
       "B" := Examples.schemaOf [ Examples.queryG ] ]}
    "Query"
  = Ok tt.
Proof.
  apply root_types_exempt.
  - intros service Hin. apply list_elem_of_In in Hin.
    destruct Hin as [<-|[<-|[]]]; vm_compute; eauto.
  - left. reflexivity.
Defined.

Section ReturnTypes.

Context (O : MapOrder).
Context (mergeSchemaSlice :
  list IntrospectionQueryResult -> MergeMode -> result IntrospectionQueryResult).

(** What the last validation has checked of every field when it passes. *)
Lemma returnTypes_checked serviceNames byName types infos :
  validateFieldsReturningFederatedObject O serviceNames byName types infos = Ok tt ->
  forall service schema typ field,
    byName !! service = Some schema ->
    typ ∈ Types (Schema schema) ->
    type_Kind typ = "OBJECT" ->
    field ∈ type_Fields typ ->
    exists root,
      getRootType (field_Type field) = Ok root
      /\ (ref_Kind root = "OBJECT" ->
          exists name fields, types !! ref_Name root = Some (Object name fields)).
Proof.
  unfold validateFieldsReturningFederatedObject.
  intros Hrun service schema typ field Hrec Htyp Hkind Hfield.
  pose proof (proj1 (forEach_Ok _ _) Hrun (service, schema)
                (proj2 (range_lookup O byName service schema) Hrec)) as Hs.
  simpl in Hs.
  pose proof (proj1 (forEach_Ok _ _) Hs typ Htyp) as Ht. cbv beta in Ht.
  rewrite bool_decide_eq_true_2 in Ht by exact Hkind. simpl in Ht.
  pose proof (proj1 (forEach_Ok _ _) Ht field Hfield) as Hf. cbv beta in Hf.
  destruct (getRootType (field_Type field)) as [root| |]; try discriminate.
  exists root. split; [reflexivity|]. intros Hroot. simpl in Hf.
  rewrite bool_decide_eq_true_2 in Hf by exact Hroot. simpl in Hf.
  destruct (types !! ref_Name root) as [[name fields| | | |]|]; try discriminate.
  eauto.
Qed.

(** X16. In a merged schema every field of every OBJECT type of the
    version-intersected schema of a service has a type reference, and when
    the reference at the end of its OfType chain has kind OBJECT, it names
    an object of the merged table: a field that returns, as an object, a
    name under which the merged schema has no object makes the merge
    fail. *)
Theorem object_returns_resolve schemas types info :
  ConvertVersionedSchemas O mergeSchemaSlice schemas = Ok (types, info) ->
  forall service versions schema typ field,
    schemas !! service = Some versions ->
    intersectVersions O mergeSchemaSlice versions = Ok schema ->
    typ ∈ Types (Schema schema) ->
    type_Kind typ = "OBJECT" ->
    field ∈ type_Fields typ ->
    exists root,
      getRootType (field_Type field) = Ok root
      /\ (ref_Kind root = "OBJECT" ->
          exists name fields, types !! ref_Name root = Some (Object name fields)).
Proof.
  intros Hrun service versions schema typ field Hs Hv Htyp Hkind Hfield.
  apply ConvertVersionedSchemas_Ok in Hrun
    as (byName & slice & merged & Hfirst & Hmerge & Hrun).
  apply convertMerged_Ok in Hrun as (types0 & _ & _ & _ & Hvalid & _).
  destruct (intersected_on_record O mergeSchemaSlice schemas byName slice
              service versions schema Hfirst Hs Hv) as [_ Hrec].
  by apply (returnTypes_checked _ _ _ _ Hvalid service schema typ field).
Qed.

End ReturnTypes.

Lemma object_returns_resolve_witness :
  exists root,
    getRootType (Examples.listOf (Examples.named "OBJECT" "Foo")) = Ok root
    /\ (ref_Kind root = "OBJECT" ->
        exists name fields,
          Examples.twoServicesTypes !! ref_Name root = Some (Object name fields)).
Proof.
  apply (object_returns_resolve stdOrder mergeSchemaSliceModel Examples.twoServices
           Examples.twoServicesTypes Examples.twoServicesInfo
           twoServices_converted
           "schema1" (Examples.oneVersion Examples.schema1)
           (Examples.schemaOf Examples.schema1)
           (Examples.object "Query"
              [ mkField "s1f" (Examples.named "OBJECT" "Foo") [];
                mkField "s1fff" (Examples.listOf (Examples.named "OBJECT" "Foo")) [];
                mkField "barsFromFederationKeys"
                  (Examples.listOf (Examples.named "OBJECT" "Bar"))
                  [mkInputField "keys"
                     (Examples.listOf (Examples.named "SCALAR" "int64"))] ])
           (mkField "s1fff" (Examples.listOf (Examples.named "OBJECT" "Foo")) [])).
  - vm_compute. reflexivity.
  - vm_compute. reflexivity.
  - apply list_elem_of_In. simpl. auto.
  - reflexivity.
  - apply list_elem_of_In. simpl. auto.
Defined.
(** * Further properties of the merger *)

(** ** The order of the services *)

Lemma string_leb_trans (s1 s2 s3 : string) :
  String.leb s1 s2 = true -> String.leb s2 s3 = true -> String.leb s1 s3 = true.
Proof.
  unfold String.leb. revert s2 s3.
  induction s1 as [|c1 s1 IH]; intros [|c2 s2] [|c3 s3]; simpl; try done.
  unfold Ascii.compare.
  destruct (N.compare_spec (N_of_ascii c1) (N_of_ascii c2)) as [H12|H12|H12],
           (N.compare_spec (N_of_ascii c2) (N_of_ascii c3)) as [H23|H23|H23],
           (N.compare_spec (N_of_ascii c1) (N_of_ascii c3)) as [H13|H13|H13];
    try done; try (exfalso; lia).
  apply IH.
Qed.

#[global] Instance string_le_trans : Transitive string_le.
Proof. intros a b c. apply string_leb_trans. Qed.

#[global] Instance string_le_total : Total string_le.
Proof. intros a b. apply String.leb_total. Qed.

#[global] Instance string_le_antisym : AntiSymm eq string_le.
Proof. intros a b. apply String.leb_antisym. Qed.

(** Sorting decides the order of a list of names without repetition,
    whatever order they come in. *)
Lemma sortStrings_permutation (l1 l2 : list string) :
  l1 ≡ₚ l2 -> sortStrings l1 = sortStrings l2.
Proof.
  intros Hperm. unfold sortStrings.
  apply (Sorted_unique string_le); try apply Sorted_merge_sort; try apply _.
  by rewrite !merge_sort_Permutation.
Qed.

Lemma range_keys_permutation (O1 O2 : MapOrder) {A : Type} (m : gmap string A) :
  (fst <$> range O1 m) ≡ₚ (fst <$> range O2 m).
Proof. by rewrite (range_perm O1 A m), (range_perm O2 A m). Qed.

Lemma serviceNamesOf_order (O1 O2 : MapOrder) schemas :
  serviceNamesOf O1 schemas = serviceNamesOf O2 schemas.
Proof. apply sortStrings_permutation, range_keys_permutation. Qed.

Lemma serviceNamesOf_NoDup (O : MapOrder) schemas : NoDup (serviceNamesOf O schemas).
Proof.
  unfold serviceNamesOf, sortStrings.
  rewrite merge_sort_Permutation, (range_perm O _ schemas).
  apply NoDup_fst_map_to_list.
Qed.

(** ** The schemas on record and the slice that is merged *)

Section MergedSlice.

Context (O : MapOrder).
Context (mergeSchemaSlice :
  list IntrospectionQueryResult -> MergeMode -> result IntrospectionQueryResult).

Lemma intersectServices_slice schemas serviceNames byName slice :
  NoDup serviceNames ->
  intersectServices O mergeSchemaSlice schemas serviceNames = Ok (byName, slice) ->
  Forall2 (fun service schema => byName !! service = Some schema)
    serviceNames slice.
Proof.
  unfold intersectServices.
  set (body := fun (service : string)
                   '((byName, slice) :
                      gmap string IntrospectionQueryResult
                      * list IntrospectionQueryResult) =>
    intersectVersions O mergeSchemaSlice (default ∅ (schemas !! service))
      ≫= fun serviceSchema =>
           Ok (<[service := serviceSchema]> byName, app slice [serviceSchema])).
  assert (Hgen : forall names b0 l0 b l,
    NoDup names ->
    forM names body (b0, l0) = Ok (b, l) ->
    (forall k, k ∉ names -> b !! k = b0 !! k)
    /\ exists added, l = (l0 ++ added)%list
         /\ Forall2 (fun service schema => b !! service = Some schema) names added).
  { induction names as [|name names IH]; intros b0 l0 b l Hnd Hrun.
    - injection Hrun as <- <-. split; [auto|].
      exists []. split; [by rewrite app_nil_r|constructor].
    - simpl in Hrun. apply bind_Ok in Hrun as ([b1 l1] & Hstep & Hrest).
      simpl in Hstep. apply bind_Ok in Hstep as (s1 & Hs1 & Hstep).
      injection Hstep as <- <-.
      apply NoDup_cons in Hnd as [Hfresh Hnd].
      destruct (IH _ _ _ _ Hnd Hrest) as (Hout & added & -> & Hall).
      split.
      + intros k Hk. apply not_elem_of_cons in Hk as [Hne Hk].
        rewrite (Hout k Hk). by rewrite lookup_insert_ne.
      + exists (s1 :: added). split; [by rewrite <- app_assoc|].
        constructor; [|exact Hall].
        rewrite (Hout name Hfresh). by rewrite lookup_insert_eq. }
  intros Hnd Hrun. destruct (Hgen _ _ _ _ _ Hnd Hrun) as (_ & added & -> & Hall).
  exact Hall.
Qed.

(** X18. The first loop of [ConvertVersionedSchemas] records one schema
    for every service, the intersection of its versions, and no other; and
    the slice it hands to the union merge lists these schemas once each, in
    the ascending order of the service names. *)
Theorem services_merged_in_order schemas byName slice :
  intersectServices O mergeSchemaSlice schemas (sortStrings (fst <$> range O schemas))
  = Ok (byName, slice) ->
  (forall service, is_Some (byName !! service) <-> is_Some (schemas !! service))
  /\ Forall2 (fun service schema =>
                byName !! service = Some schema
                /\ exists versions,
                     schemas !! service = Some versions
                     /\ intersectVersions O mergeSchemaSlice versions = Ok schema)
       (sortStrings (fst <$> range O schemas)) slice.
Proof.
  intros Hrun.
  pose proof (intersectServices_spec O mergeSchemaSlice schemas _ byName slice Hrun)
    as Hspec.
  pose proof (intersectServices_present O mergeSchemaSlice schemas _ byName slice Hrun)
    as Hall.
  split.
  - intros service. split.
    + intros [schema Hs]. apply Hspec in Hs as [Hin _].
      by apply (serviceNamesOf_elem O) in Hin.
    + intros Hs. apply Hall. by apply (serviceNamesOf_elem O).
  - eapply Forall2_impl;
      [apply (intersectServices_slice schemas _ byName slice
                (serviceNamesOf_NoDup O schemas) Hrun)|].
    intros service schema Hs. split; [exact Hs|].
    apply Hspec in Hs as [Hin Hv].
    apply (serviceNamesOf_elem O) in Hin as [versions Hversions].
    exists versions. split; [exact Hversions|]. by rewrite Hversions in Hv.
Qed.

End MergedSlice.

Lemma services_merged_in_order_witness :
  (forall service,
     is_Some (Examples.byNameOf Examples.twoServices !! service)
     <-> is_Some (Examples.twoServices !! service))
  /\ Forall2 (fun service schema =>
                Examples.byNameOf Examples.twoServices !! service = Some schema
                /\ exists versions,
                     Examples.twoServices !! service = Some versions
                     /\ intersectVersions stdOrder mergeSchemaSliceModel versions
                        = Ok schema)
       (sortStrings (fst <$> range stdOrder Examples.twoServices))
       (Examples.sliceOf Examples.twoServices).
Proof.
  apply (services_merged_in_order stdOrder mergeSchemaSliceModel
           Examples.twoServices).
  vm_compute. reflexivity.
Defined.

(** ** What the annotation pass leaves untouched *)

Lemma eraseKeys_setFederatedKey objName fName service (types : gmap string GType) :
  eraseKeys <$> setFederatedKey objName fName service types = eraseKeys <$> types.
Proof.
  unfold setFederatedKey.
  destruct (types !! objName) as [[name fields| | | |]|] eqn:Hobj; try reflexivity.
  destruct (fields !! fName) as [f|] eqn:Hf; [|reflexivity].
  rewrite fmap_insert. apply insert_id.
  rewrite lookup_fmap, Hobj. simpl. f_equal. f_equal.
  rewrite fmap_insert. symmetry. apply insert_id.
  rewrite lookup_fmap, Hf. reflexivity.
Qed.

Lemma noKeys_eraseKeys (types : gmap string GType) :
  noKeys types -> eraseKeys <$> types = types.
Proof.
  intros Hno. apply map_eq. intros n. rewrite lookup_fmap.
  destruct (types !! n) as [g|] eqn:Hn; [|reflexivity]. simpl. f_equal.
  destruct g as [name fields| | | |]; try reflexivity. simpl. f_equal.
  apply map_eq. intros k. rewrite lookup_fmap.
  destruct (fields !! k) as [f|] eqn:Hk; [|reflexivity]. simpl. f_equal.
  pose proof (Hno n name fields k f Hn Hk) as Hkey.
  destruct f as [a t keys]. simpl in Hkey. subst keys. reflexivity.
Qed.

Lemma markKeys_frame objName service (inputFields : gmap string TypeExpr)
    (l : list (string * Field)) (types : gmap string GType) :
  eraseKeys <$> fold_left (fun tys '(fName, _) =>
                             if bool_decide (is_Some (inputFields !! fName))
                             then setFederatedKey objName fName service tys
                             else tys) l types
  = eraseKeys <$> types.
Proof.
  revert types. induction l as [|[fName f] l IH]; intros types; simpl; [reflexivity|].
  rewrite IH. case_bool_decide; [apply eraseKeys_setFederatedKey|reflexivity].
Qed.

Section AnnotationFrame.

Context (O : MapOrder).
Context (mergeSchemaSlice :
  list IntrospectionQueryResult -> MergeMode -> result IntrospectionQueryResult).

Lemma annotateArg_frame serviceNames byName service field objName arg types types' :
  annotateArg O serviceNames byName service field objName arg types = Ok types' ->
  eraseKeys <$> types' = eraseKeys <$> types.
Proof.
  unfold annotateArg. intros Hrun.
  apply bind_Ok in Hrun as (root & _ & Hrun).
  destruct (types !! ref_Name root) as [[|name inputFields| | |]|]; try discriminate.
  apply bind_Ok in Hrun as (u & _ & Hrun). injection Hrun as <-.
  apply markKeys_frame.
Qed.

Lemma annotateEntry_frame serviceNames byName service field types types' :
  annotateEntry O serviceNames byName service field types = Ok types' ->
  eraseKeys <$> types' = eraseKeys <$> types.
Proof.
  unfold annotateEntry.
  destruct (SplitN2 (field_Name field)) as [|? [|objName [|]]]; try discriminate.
  destruct (types !! objName) as [[]|]; try discriminate.
  apply (forM_invariant (fun t => eraseKeys <$> t = eraseKeys <$> types));
    [|reflexivity].
  intros arg a b _ Ha Hb. rewrite <- Ha. by eapply annotateArg_frame.
Qed.

Lemma annotateType_frame serviceNames byName service typ (st st' : AnnState) :
  annotateType O serviceNames byName service typ st = Ok st' ->
  eraseKeys <$> st'.1 = eraseKeys <$> st.1.
Proof.
  unfold annotateType. intros Hrun.
  apply bind_Ok in Hrun as (types & Htypes & Hrun).
  assert (Hframe : eraseKeys <$> types = eraseKeys <$> st.1).
  { destruct (bool_decide (type_Name typ = "Federation"));
      [|by injection Htypes as <-].
    revert Htypes.
    apply (forM_invariant (fun t => eraseKeys <$> t = eraseKeys <$> st.1));
      [|reflexivity].
    intros field a b _ Ha Hb. rewrite <- Ha. by eapply annotateEntry_frame. }
  destruct (bool_decide (type_Kind typ = "OBJECT")).
  - destruct (types !! type_Name typ) as [[]|]; try discriminate.
    by injection Hrun as <-.
  - by injection Hrun as <-.
Qed.

Lemma annotate_frame serviceNames byName types0 types infos :
  annotate O serviceNames byName types0 = Ok (types, infos) ->
  eraseKeys <$> types = eraseKeys <$> types0.
Proof.
  unfold annotate. intros Hrun.
  change (eraseKeys <$> (types, infos).1 = eraseKeys <$> types0).
  revert Hrun.
  apply (forM_invariant
           (fun st : AnnState => eraseKeys <$> st.1 = eraseKeys <$> types0));
    [|reflexivity].
  intros service a b _ Ha Hb.
  apply bind_Ok in Hb as (serviceTypes & _ & Hb). revert Hb.
  apply (forM_invariant (fun st : AnnState => eraseKeys <$> st.1 = eraseKeys <$> types0));
    [|exact Ha].
  intros typ a' b' _ Ha' Hb'. rewrite <- Ha'. by eapply annotateType_frame.
Qed.

(** X19. The type table [ConvertVersionedSchemas] returns is the table
    parsed from the merged schema with federated keys added to fields of
    objects: without the federated keys the two tables are equal. The
    annotation pass adds no type and no field, and changes no name, field
    type, argument, input field, union member or enum value. *)
Theorem annotation_adds_keys_only schemas types info :
  ConvertVersionedSchemas O mergeSchemaSlice schemas = Ok (types, info) ->
  exists byName slice merged types0,
    intersectServices O mergeSchemaSlice schemas
      (sortStrings (fst <$> range O schemas)) = Ok (byName, slice)
    /\ mergeSchemaSlice slice Union_ = Ok merged
    /\ parseSchema merged = Ok types0
    /\ eraseKeys <$> types = types0.
Proof.
  intros Hrun.
  apply ConvertVersionedSchemas_Ok in Hrun
    as (byName & slice & merged & Hfirst & Hmerge & Hrun).
  apply convertMerged_Ok in Hrun as (types0 & Hparse & _ & Hann & _).
  exists byName, slice, merged, types0.
  split; [exact Hfirst|]. split; [exact Hmerge|]. split; [exact Hparse|].
  rewrite (annotate_frame _ _ _ _ _ Hann).
  apply noKeys_eraseKeys. by apply parseSchema_Ok in Hparse as (_ & _ & _ & _ & ?).
Qed.

End AnnotationFrame.

Lemma annotation_adds_keys_only_witness :
  exists byName slice merged types0,
    intersectServices stdOrder mergeSchemaSliceModel Examples.entryInB
      (sortStrings (fst <$> range stdOrder Examples.entryInB)) = Ok (byName, slice)
    /\ mergeSchemaSliceModel slice Union_ = Ok merged
    /\ parseSchema merged = Ok types0
    /\ eraseKeys <$> Examples.entryInBTypes = types0.
Proof.
  apply (annotation_adds_keys_only stdOrder mergeSchemaSliceModel Examples.entryInB
           Examples.entryInBTypes Examples.entryInBInfo).
  exact entryInB_converted.
Defined.
(** ** The result of the merger *)

Section MergerResult.

Context (O : MapOrder).
Context (mergeSchemaSlice :
  list IntrospectionQueryResult -> MergeMode -> result IntrospectionQueryResult).

(** X20. A service is recorded for a merged field only when it declares
    the field: when the side table returned by [ConvertVersionedSchemas] has
    [Services[S] = true] for the field F of the object T, the
    version-intersected schema of S lists an OBJECT type T with a field F,
    and F is a field of the merged object T. *)
Theorem services_only_declared schemas types info T F fieldInfo service :
  ConvertVersionedSchemas O mergeSchemaSlice schemas = Ok (types, info) ->
  swf_Fields info !! (Some (T, F) : FieldPtr) = Some fieldInfo ->
  Services fieldInfo !! service = Some true ->
  is_Some (objectFields types T !! F)
  /\ exists versions schema typ field,
       schemas !! service = Some versions
       /\ intersectVersions O mergeSchemaSlice versions = Ok schema
       /\ typ ∈ Types (Schema schema)
       /\ type_Kind typ = "OBJECT"
       /\ type_Name typ = T
       /\ field ∈ type_Fields typ
       /\ field_Name field = F.
Proof.
  intros Hrun Hinfo Hservice.
  apply ConvertVersionedSchemas_Ok in Hrun
    as (byName & slice & merged & Hfirst & Hmerge & Hrun).
  apply convertMerged_Ok in Hrun as (types0 & Hparse & _ & Hann & _).
  destruct (annotate_spec O _ _ _ _ _ Hann) as (Hle & _ & Hexact).
  assert (Hat : annotated (types, swf_Fields info) (inr (Some (T, F), service))).
  { simpl. unfold serviceAt, lookupBool. by rewrite Hinfo, Hservice. }
  apply Hexact in Hat as [Hinit|(s & Hs & schema & typ & Hrec & Htyp & Hadds)].
  { simpl in Hinit. unfold serviceAt in Hinit. by rewrite lookup_empty in Hinit. }
  simpl in Hadds. destruct Hadds as [-> (Hkind & field & Hfield & Hptr)].
  unfold fieldPtr in Hptr.
  destruct (objectFields types0 (type_Name typ) !! field_Name field) as [f|] eqn:Hf;
    [|discriminate].
  injection Hptr as -> ->. split.
  - apply (typesLe_objectFields _ _ _ _ Hle). by rewrite Hf.
  - apply (intersectServices_spec O mergeSchemaSlice) with (service := s)
      (schema := schema) in Hfirst.
    apply Hfirst in Hrec as [Hin Hv].
    apply (serviceNamesOf_elem O) in Hin as [versions Hversions].
    rewrite Hversions in Hv. exists versions, schema, typ, field. auto 10.
Qed.

(** X21. [ConvertVersionedSchemas] requires no Query and no Mutation type.
    The pointers of the schema it returns are the entries the table has
    under these two names, whatever their kind, and nil when the merged
    schema lists no type of the name. *)
Theorem root_pointers schemas types info :
  ConvertVersionedSchemas O mergeSchemaSlice schemas = Ok (types, info) ->
  exists byName slice merged,
    intersectServices O mergeSchemaSlice schemas
      (sortStrings (fst <$> range O schemas)) = Ok (byName, slice)
    /\ mergeSchemaSlice slice Union_ = Ok merged
    /\ Query (swf_Schema info)
       = (if decide ("Query" ∈ typeNames (Types (Schema merged)))
          then Some (TNamed "Query") else None)
    /\ Mutation (swf_Schema info)
       = (if decide ("Mutation" ∈ typeNames (Types (Schema merged)))
          then Some (TNamed "Mutation") else None).
Proof.
  intros Hrun.
  apply ConvertVersionedSchemas_Ok in Hrun
    as (byName & slice & merged & Hfirst & Hmerge & Hrun).
  apply convertMerged_Ok in Hrun as (types0 & Hparse & _ & Hann & _ & Hschema).
  destruct (annotate_spec O _ _ _ _ _ Hann) as ([Hframe _] & _).
  destruct (parseSchema_Ok merged types0 Hparse) as (_ & _ & Hdom & _).
  exists byName, slice, merged.
  split; [exact Hfirst|]. split; [exact Hmerge|].
  assert (Hptr : forall n,
            typePtr types n
            = if decide (n ∈ typeNames (Types (Schema merged)))
              then Some (TNamed n) else None).
  { intros n. unfold typePtr. specialize (Hframe n). specialize (Hdom n).
    destruct (decide (n ∈ typeNames (Types (Schema merged)))) as [Hin|Hout].
    - apply Hdom in Hin as [g Hg]. rewrite Hg in Hframe.
      inversion Hframe; subst. reflexivity.
    - destruct (types0 !! n) as [g|] eqn:Hg; [destruct Hout; apply Hdom; eauto|].
      inversion Hframe; subst. reflexivity. }
  rewrite Hschema. simpl. by rewrite !Hptr.
Qed.

Lemma bind_ret {A B : Type} (a : A) (k : A -> result B) : Ok a ≫= k = k a.
Proof. reflexivity. Qed.

Lemma range_empty {A : Type} : range O (∅ : gmap string A) = [].
Proof.
  apply Permutation_nil_r. rewrite (range_perm O A ∅). by rewrite map_to_list_empty.
Qed.

(** X22. On an empty table of schemas [ConvertVersionedSchemas] merges the
    empty slice and validates nothing: its result is the table parsed from
    whatever the merge of no schema returns, without any annotation, and the
    error of the merge or of the parser otherwise. *)
Theorem no_services :
  ConvertVersionedSchemas O mergeSchemaSlice ∅
  = (mergeSchemaSlice [] Union_ ≫= fun merged =>
     parseSchema merged ≫= fun types =>
     Ok (types,
         {| swf_Schema := {| Query := typePtr types "Query";
                             Mutation := typePtr types "Mutation" |};
            swf_Fields := ∅ |})).
Proof.
  unfold ConvertVersionedSchemas. rewrite range_empty.
  change (sortStrings (fst <$> [])) with (@nil string).
  change (intersectServices O mergeSchemaSlice ∅ [])
    with (Ok (∅ : gmap string IntrospectionQueryResult,
              @nil IntrospectionQueryResult)).
  rewrite bind_ret.
  destruct (mergeSchemaSlice [] Union_) as [merged| |]; [|reflexivity..].
  rewrite !bind_ret. unfold convertMerged.
  destruct (parseSchema merged) as [types| |]; [|reflexivity..].
  rewrite !bind_ret.
  assert (Hvalid : forEach (range O types) (fun '(name, _) =>
            wrapErr (EExpectedFederated name)
              (validateFederatedObjects [] ∅ name)) = Ok tt).
  { apply forEach_Ok. by intros [name g] _. }
  rewrite Hvalid, bind_ret.
  change (annotate O [] ∅ types) with (Ok (types, ∅) : result AnnState).
  rewrite bind_ret.
  assert (Hshadow : validateFieldsReturningFederatedObject O [] ∅ types ∅ = Ok tt).
  { unfold validateFieldsReturningFederatedObject. by rewrite range_empty. }
  by rewrite Hshadow.
Qed.

(** The version loop for a service with the one version [""]. *)
Lemma intersectVersions_single schema :
  intersectVersions O mergeSchemaSlice {[ "" := schema ]}
  = mergeSchemaSlice [schema] Intersection.
Proof.
  unfold intersectVersions.
  assert (Hrange : range O ({[ "" := schema ]} : gmap string IntrospectionQueryResult)
                   = [("", schema)]).
  { apply Permutation_singleton_r.
    rewrite (range_perm O _ _). by rewrite map_to_list_singleton. }
  rewrite Hrange. simpl.
  change (sortStrings [""]) with [""]. simpl.
  by rewrite lookup_singleton_eq.
Qed.

Lemma intersectServices_single
    (schemas : gmap string IntrospectionQueryResult) (names : list string)
    (b0 : gmap string IntrospectionQueryResult)
    (l0 : list IntrospectionQueryResult) :
  (forall schema, mergeSchemaSlice [schema] Intersection = Ok schema) ->
  (forall service, service ∈ names -> is_Some (schemas !! service)) ->
  exists b : gmap string IntrospectionQueryResult,
    forM names (fun service '((byName, slice) :
                                gmap string IntrospectionQueryResult
                                * list IntrospectionQueryResult) =>
      intersectVersions O mergeSchemaSlice
        (default ∅ (((fun schema => {[ "" := schema ]}) <$> schemas) !! service))
        ≫= fun serviceSchema =>
             Ok (<[service := serviceSchema]> byName, app slice [serviceSchema]))
      (b0, l0)
    = Ok (b, (l0 ++ omap (fun service => schemas !! service) names)%list)
    /\ forall k, b !! k = if decide (k ∈ names) then schemas !! k else b0 !! k.
Proof.
  intros Hsingle. revert b0 l0.
  induction names as [|name names IH]; intros b0 l0 Hall.
  - exists b0. split; [simpl; by rewrite app_nil_r|].
    intros k. destruct (decide (k ∈ [])) as [H|_]; [by apply elem_of_nil in H|].
    reflexivity.
  - destruct (Hall name ltac:(left)) as [schema Hschema].
    destruct (IH (<[name := schema]> b0) (l0 ++ [schema])%list) as (b & Hrun & Hb);
      [intros s Hs; apply Hall; by right|].
    exists b. split.
    + simpl. rewrite lookup_fmap, Hschema. simpl.
      rewrite intersectVersions_single, Hsingle. simpl.
      rewrite Hrun. by rewrite <- app_assoc.
    + intros k. rewrite Hb.
      destruct (decide (k ∈ names)) as [Hin|Hout].
      * rewrite decide_True by (by right). reflexivity.
      * destruct (decide (k = name)) as [->|Hne].
        -- rewrite decide_True by left. by rewrite lookup_insert_eq.
        -- rewrite decide_False
             by (intros H; apply elem_of_cons in H as [?|?]; congruence).
           by rewrite lookup_insert_ne.
Qed.

(** X23. [convertSchema] files every schema as the one version of its
    service. With a merge that returns a single schema as it is, the schemas
    on record are the schemas given, and their union is taken in the
    ascending order of the service names. *)
Theorem convertSchema_single_version (schemas : gmap string IntrospectionQueryResult) :
  (forall schema, mergeSchemaSlice [schema] Intersection = Ok schema) ->
  let serviceNames := sortStrings (fst <$> range O schemas) in
  convertSchema O mergeSchemaSlice schemas
  = (mergeSchemaSlice (omap (fun service => schemas !! service) serviceNames) Union_
     ≫= fun merged => convertMerged O serviceNames schemas merged).
Proof.
  intros Hsingle serviceNames.
  unfold convertSchema, ConvertVersionedSchemas.
  assert (Hnames : sortStrings
                     (fst <$> range O
                        ((fun schema =>
                            ({[ "" := schema ]}
                             : gmap string IntrospectionQueryResult)) <$> schemas))
                   = serviceNames).
  { apply sortStrings_permutation.
    rewrite (range_perm O _ _), (range_perm O _ schemas), map_to_list_fmap.
    rewrite <- list_fmap_compose. apply reflexive_eq. by apply list_fmap_ext. }
  rewrite Hnames. unfold intersectServices.
  destruct (intersectServices_single schemas serviceNames ∅ [] Hsingle)
    as (b & Hrun & Hb).
  { intros service Hin. unfold serviceNames in Hin.
    apply (proj1 (sortStrings_elem _ _)) in Hin.
    by apply (proj1 (range_keys O _ _)) in Hin. }
  rewrite Hrun. simpl.
  assert (Heq : b = schemas).
  { apply map_eq. intros k. rewrite Hb.
    destruct (decide (k ∈ serviceNames)) as [Hin|Hout]; [reflexivity|].
    rewrite lookup_empty. symmetry. apply eq_None_not_Some.
    intros Hsome. apply Hout. unfold serviceNames.
    apply (proj2 (sortStrings_elem _ _)). by apply (proj2 (range_keys O _ _)). }
  by rewrite Heq.
Qed.

End MergerResult.

Lemma services_only_declared_witness :
  is_Some (objectFields Examples.twoServicesTypes "Foo" !! "s2ok")
  /\ exists versions schema typ field,
       Examples.twoServices !! "schema2" = Some versions
       /\ intersectVersions stdOrder mergeSchemaSliceModel versions = Ok schema
       /\ typ ∈ Types (Schema schema)
       /\ type_Kind typ = "OBJECT"
       /\ type_Name typ = "Foo"
       /\ field ∈ type_Fields typ
       /\ field_Name field = "s2ok".
Proof.
  apply (services_only_declared stdOrder mergeSchemaSliceModel Examples.twoServices
           Examples.twoServicesTypes Examples.twoServicesInfo "Foo" "s2ok"
           {| Services := {[ "schema2" := true ]} |} "schema2").
  - exact twoServices_converted.
  - vm_compute. reflexivity.
  - vm_compute. reflexivity.
Defined.

Lemma root_pointers_witness :
  exists byName slice merged,
    intersectServices stdOrder mergeSchemaSliceModel Examples.twoServices
      (sortStrings (fst <$> range stdOrder Examples.twoServices))
    = Ok (byName, slice)
    /\ mergeSchemaSliceModel slice Union_ = Ok merged
    /\ Query (swf_Schema Examples.twoServicesInfo)
       = (if decide ("Query" ∈ typeNames (Types (Schema merged)))
          then Some (TNamed "Query") else None)
    /\ Mutation (swf_Schema Examples.twoServicesInfo)
       = (if decide ("Mutation" ∈ typeNames (Types (Schema merged)))
          then Some (TNamed "Mutation") else None).
Proof.
  apply (root_pointers stdOrder mergeSchemaSliceModel Examples.twoServices
           Examples.twoServicesTypes Examples.twoServicesInfo).
  exact twoServices_converted.
Defined.

Lemma convertSchema_single_version_witness :
  convertSchema stdOrder mergeSchemaSliceModel
    {[ "A" := Examples.schemaOf Examples.serviceA ]}
  = (mergeSchemaSliceModel
       (omap (fun service =>
                ({[ "A" := Examples.schemaOf Examples.serviceA ]}
                 : gmap string IntrospectionQueryResult) !! service)
          (sortStrings
             (fst <$> range stdOrder
                        ({[ "A" := Examples.schemaOf Examples.serviceA ]}
                         : gmap string IntrospectionQueryResult)))) Union_
     ≫= fun merged =>
          convertMerged stdOrder
            (sortStrings
               (fst <$> range stdOrder
                          ({[ "A" := Examples.schemaOf Examples.serviceA ]}
                           : gmap string IntrospectionQueryResult)))
            {[ "A" := Examples.schemaOf Examples.serviceA ]} merged).
Proof.
  apply (convertSchema_single_version stdOrder mergeSchemaSliceModel
           {[ "A" := Examples.schemaOf Examples.serviceA ]}).
  intros schema. reflexivity.
Defined.
(** ** The order of the map entries *)

Lemma fold_left_permutation {A B : Type} (f : B -> A -> B) (l1 l2 : list A) (b : B) :
  (forall b x y, f (f b x) y = f (f b y) x) ->
  l1 ≡ₚ l2 -> fold_left f l1 b = fold_left f l2 b.
Proof.
  intros Hcomm Hperm. revert b.
  induction Hperm as [|x l1 l2 _ IH|x y l|l1 l2 l3 _ IH1 _ IH2]; intros b; simpl.
  - reflexivity.
  - apply IH.
  - by rewrite Hcomm.
  - by rewrite IH1.
Qed.

Lemma forM_Ok_mono {A S : Type} (xs : list A) (body body' : A -> S -> result S)
    (s s' : S) :
  (forall x a b, x ∈ xs -> body x a = Ok b -> body' x a = Ok b) ->
  forM xs body s = Ok s' -> forM xs body' s = Ok s'.
Proof.
  revert s. induction xs as [|x xs IH]; intros s Hmono; simpl; [done|].
  intros Hrun. apply bind_Ok in Hrun as (a & Hx & Hrest).
  rewrite (Hmono x s a ltac:(left) Hx). simpl.
  apply IH; [|exact Hrest]. intros y c d Hy. apply Hmono. by right.
Qed.

(** Marking two fields of an object with a service can be done in either
    order. *)
Lemma setFederatedKey_comm objName k1 k2 service (types : gmap string GType) :
  setFederatedKey objName k1 service (setFederatedKey objName k2 service types)
  = setFederatedKey objName k2 service (setFederatedKey objName k1 service types).
Proof.
  destruct (decide (k1 = k2)) as [->|Hne]; [reflexivity|].
  unfold setFederatedKey.
  destruct (types !! objName) as [[name fields| | | |]|] eqn:Hobj;
    try (by rewrite !Hobj).
  destruct (fields !! k1) as [f1|] eqn:H1, (fields !! k2) as [f2|] eqn:H2;
    rewrite ?Hobj, ?H1, ?H2, ?lookup_insert_eq, ?lookup_insert_ne by done;
    rewrite ?Hobj, ?H1, ?H2, ?lookup_insert_eq, ?lookup_insert_ne by done;
    rewrite ?H1, ?H2; try reflexivity.
  rewrite !insert_insert_eq. f_equal. f_equal. by apply insert_insert_ne.
Qed.

Section MapOrders.

Context (O1 O2 : MapOrder).
Context (mergeSchemaSlice :
  list IntrospectionQueryResult -> MergeMode -> result IntrospectionQueryResult).

Lemma range_permutation {A : Type} (m : gmap string A) : range O1 m ≡ₚ range O2 m.
Proof. by rewrite (range_perm O1 A m), (range_perm O2 A m). Qed.

(** A loop over the entries of a map that passes in one order passes in
    every order. *)
Lemma forEach_range_Ok {A : Type} (m : gmap string A)
    (body body' : string * A -> result unit) :
  (forall x, x ∈ range O1 m -> body x = Ok tt -> body' x = Ok tt) ->
  forEach (range O1 m) body = Ok tt -> forEach (range O2 m) body' = Ok tt.
Proof.
  intros Hmono Hrun. apply forEach_Ok. intros x Hx.
  rewrite <- range_permutation in Hx.
  apply Hmono; [exact Hx|]. by apply (proj1 (forEach_Ok _ _) Hrun).
Qed.

Lemma intersectVersions_order versions :
  intersectVersions O1 mergeSchemaSlice versions
  = intersectVersions O2 mergeSchemaSlice versions.
Proof.
  unfold intersectVersions.
  by rewrite (sortStrings_permutation _ _ (range_keys_permutation O1 O2 versions)).
Qed.

Lemma intersectServices_order schemas serviceNames :
  intersectServices O1 mergeSchemaSlice schemas serviceNames
  = intersectServices O2 mergeSchemaSlice schemas serviceNames.
Proof.
  unfold intersectServices. apply forM_ext.
  intros service [byName slice] _. by rewrite intersectVersions_order.
Qed.

Lemma annotateArg_order serviceNames byName service field objName arg types types' :
  annotateArg O1 serviceNames byName service field objName arg types = Ok types' ->
  annotateArg O2 serviceNames byName service field objName arg types = Ok types'.
Proof.
  unfold annotateArg. intros Hrun.
  apply bind_Ok in Hrun as (root & Hroot & Hrun). rewrite Hroot. simpl.
  destruct (types !! ref_Name root) as [[|name inputFields| | |]|]; try discriminate.
  apply bind_Ok in Hrun as ([] & Hcheck & Hrun).
  rewrite (forEach_range_Ok inputFields _ _ (fun x _ H => H) Hcheck). simpl.
  rewrite <- Hrun. f_equal. apply fold_left_permutation.
  - intros b [k1 f1] [k2 f2].
    repeat case_bool_decide; try reflexivity. apply setFederatedKey_comm.
  - symmetry. apply range_permutation.
Qed.

Lemma annotateEntry_order serviceNames byName service field types types' :
  annotateEntry O1 serviceNames byName service field types = Ok types' ->
  annotateEntry O2 serviceNames byName service field types = Ok types'.
Proof.
  unfold annotateEntry.
  destruct (SplitN2 (field_Name field)) as [|? [|objName [|]]]; try discriminate.
  destruct (types !! objName) as [[]|]; try discriminate.
  apply forM_Ok_mono. intros arg a b _. apply annotateArg_order.
Qed.

Lemma annotateType_order serviceNames byName service typ (st st' : AnnState) :
  annotateType O1 serviceNames byName service typ st = Ok st' ->
  annotateType O2 serviceNames byName service typ st = Ok st'.
Proof.
  unfold annotateType. intros Hrun.
  apply bind_Ok in Hrun as (types & Htypes & Hrun).
  assert (Htypes' :
    (if bool_decide (type_Name typ = "Federation")
     then forM (type_Fields typ) (annotateEntry O2 serviceNames byName service) st.1
     else Ok st.1) = Ok types).
  { destruct (bool_decide (type_Name typ = "Federation")); [|exact Htypes].
    revert Htypes. apply forM_Ok_mono. intros field a b _. apply annotateEntry_order. }
  rewrite Htypes'. exact Hrun.
Qed.

Lemma annotate_order serviceNames byName types (st : AnnState) :
  annotate O1 serviceNames byName types = Ok st ->
  annotate O2 serviceNames byName types = Ok st.
Proof.
  unfold annotate. apply forM_Ok_mono. intros service a b _ Hrun.
  apply bind_Ok in Hrun as (serviceTypes & Htypes & Hrun). rewrite Htypes. simpl.
  revert Hrun. apply forM_Ok_mono. intros typ c d _. apply annotateType_order.
Qed.

Lemma checkShadow_order service field root T (fields : gmap string Field)
    types infos name :
  checkShadow O1 service field root T fields types infos name = Ok tt ->
  checkShadow O2 service field root T fields types infos name = Ok tt.
Proof.
  unfold checkShadow.
  destruct (bool_decide (name = federationField)); [|done].
  destruct (infos !! _) as [info|]; [|done].
  destruct (negb _); [|done].
  destruct (bool_decide (field_Name field = _)); [done|].
  destruct (types !! "Federation") as [[fedName fedFields| | | |]|]; try done.
  apply forEach_range_Ok. auto.
Qed.

Lemma validateFieldsReturningFederatedObject_order serviceNames byName types infos :
  validateFieldsReturningFederatedObject O1 serviceNames byName types infos = Ok tt ->
  validateFieldsReturningFederatedObject O2 serviceNames byName types infos = Ok tt.
Proof.
  unfold validateFieldsReturningFederatedObject.
  apply forEach_range_Ok. intros [service schema] _ Hs.
  apply forEach_Ok. intros typ Htyp.
  pose proof (proj1 (forEach_Ok _ _) Hs typ Htyp) as Ht. cbv beta in Ht |- *.
  destruct (negb (bool_decide (type_Kind typ = "OBJECT"))); [done|].
  apply forEach_Ok. intros field Hfield.
  pose proof (proj1 (forEach_Ok _ _) Ht field Hfield) as Hf. cbv beta in Hf |- *.
  destruct (getRootType (field_Type field)) as [root| |]; try discriminate.
  simpl in Hf |- *.
  destruct (negb (bool_decide (ref_Kind root = "OBJECT"))); [done|].
  destruct (types !! ref_Name root) as [[name fields| | | |]|]; try discriminate.
  revert Hf. apply forEach_range_Ok. intros [fname f] _. apply checkShadow_order.
Qed.

Lemma convertMerged_order serviceNames byName merged r :
  convertMerged O1 serviceNames byName merged = Ok r ->
  convertMerged O2 serviceNames byName merged = Ok r.
Proof.
  unfold convertMerged. intros Hrun.
  apply bind_Ok in Hrun as (types0 & Hparse & Hrun). rewrite Hparse. simpl.
  apply bind_Ok in Hrun as ([] & Hvalid & Hrun).
  rewrite (forEach_range_Ok types0 _ _ (fun x _ H => H) Hvalid). simpl.
  apply bind_Ok in Hrun as ([types infos] & Hann & Hrun).
  rewrite (annotate_order _ _ _ _ Hann). simpl.
  apply bind_Ok in Hrun as ([] & Hshadow & Hrun).
  apply wrapErr_Ok in Hshadow.
  rewrite (validateFieldsReturningFederatedObject_order _ _ _ _ Hshadow). simpl.
  exact Hrun.
Qed.

(** X24. A merge that succeeds does not depend on the order in which
    the maps hand out their entries: with the entries of every map taken in
    any other order, [ConvertVersionedSchemas] returns the same table and
    the same annotations. The service and version names are sorted, the
    validations pass entry by entry, and marking the federated keys of two
    fields commutes. *)
Theorem success_independent_of_map_order schemas r :
  ConvertVersionedSchemas O1 mergeSchemaSlice schemas = Ok r ->
  ConvertVersionedSchemas O2 mergeSchemaSlice schemas = Ok r.
Proof.
  unfold ConvertVersionedSchemas. intros Hrun.
  apply bind_Ok in Hrun as ([byName slice] & Hfirst & Hrun).
  apply bind_Ok in Hrun as (merged & Hmerge & Hrun).
  change (sortStrings (fst <$> range O2 schemas)) with (serviceNamesOf O2 schemas).
  change (sortStrings (fst <$> range O1 schemas)) with (serviceNamesOf O1 schemas)
    in Hfirst, Hrun.
  rewrite <- (serviceNamesOf_order O1 O2 schemas).
  rewrite <- intersectServices_order, Hfirst. simpl. rewrite Hmerge. simpl.
  by apply convertMerged_order.
Qed.

End MapOrders.

Lemma success_independent_of_map_order_witness :
  ConvertVersionedSchemas Examples.backwards mergeSchemaSliceModel
    Examples.twoServices
  = Ok (Examples.twoServicesTypes, Examples.twoServicesInfo).
Proof.
  apply (success_independent_of_map_order stdOrder Examples.backwards
           mergeSchemaSliceModel Examples.twoServices).
  exact twoServices_converted.
Defined.
(** ** The errors of parseSchema *)

Lemma forM_Err_inv {A S : Type} (I : S -> Prop) (xs : list A)
    (body : A -> S -> result S) (s : S) (e : error) :
  (forall x a b, x ∈ xs -> I a -> body x a = Ok b -> I b) ->
  I s -> forM xs body s = Err e ->
  exists x a, x ∈ xs /\ I a /\ body x a = Err e.
Proof.
  revert s. induction xs as [|x xs IH]; intros s Hstep Hs; simpl; [discriminate|].
  destruct (body x s) as [s'| |] eqn:Hx; simpl.
  - intros H. destruct (IH s') as (y & a & Hy & Ha & Hbody); [| |exact H|].
    + intros y a b Hy. apply Hstep. by right.
    + apply (Hstep x s s'); [left|exact Hs|exact Hx].
    + exists y, a. split; [by right|]. by split.
  - intros [= <-]. exists x, s. split; [left|]. by split.
  - discriminate.
Qed.

Lemma wrapErr_Err {A : Type} (w : error -> error) (r : result A) (e : error) :
  wrapErr w r = Err e -> exists cause, r = Err cause /\ e = w cause.
Proof. destruct r; simpl; try discriminate. intros [= <-]. eauto. Qed.

(** An error of pass 2 on one type of a known kind. *)
Lemma populateType_Err typ (all : gmap string GType) e :
  knownKind typ ->
  populateType typ all = Err e ->
  (type_Kind typ = "OBJECT"
   /\ exists field cause,
        field ∈ type_Fields typ
        /\ ((lookupTypeRef (field_Type field) all = Err cause
             /\ e = ETypFieldBadTyp (type_Name typ) (field_Name field) cause)
            \/ (parseInputFields (field_Args field) all = Err cause
                /\ e = EFieldInput (field_Name field) cause)))
  \/ (type_Kind typ = "INPUT_OBJECT"
      /\ exists cause,
           parseInputFields (type_InputFields typ) all = Err cause
           /\ e = ETypInput (type_Name typ) cause)
  \/ (type_Kind typ = "UNION"
      /\ exists other,
           other ∈ type_PossibleTypes typ
           /\ ref_Kind other <> "OBJECT"
           /\ e = EPossibleTypeNotObject (type_Name typ) other).
Proof.
  intros Hknown. unfold populateType.
  destruct (decide (type_Kind typ = "OBJECT")) as [Hk|Hk1].
  { rewrite Hk. simpl. intros Hrun. left. split; [reflexivity|].
    destruct (forM (type_Fields typ) _ _) as [fields|e'|] eqn:Hfields; simpl in Hrun.
    - destruct (all !! type_Name typ) as [[]|]; discriminate.
    - injection Hrun as ->.
      apply forM_Err in Hfields as (field & a & Hfield & Hbody).
      exists field. unfold parseField in Hbody.
      destruct (lookupTypeRef (field_Type field) all) as [t|cause|] eqn:Ht;
        simpl in Hbody; [|injection Hbody as <-; eauto|discriminate].
      destruct (parseInputFields (field_Args field) all) as [p|cause|] eqn:Hp;
        simpl in Hbody; [discriminate|injection Hbody as <-; eauto|discriminate].
    - discriminate. }
  rewrite (bool_decide_eq_false_2 _ Hk1).
  destruct (decide (type_Kind typ = "INPUT_OBJECT")) as [Hk|Hk2].
  { rewrite Hk. simpl. intros Hrun. right; left. split; [reflexivity|].
    destruct (parseInputFields (type_InputFields typ) all) as [p|cause|] eqn:Hp;
      simpl in Hrun.
    - destruct (all !! type_Name typ) as [[]|]; discriminate.
    - injection Hrun as <-. eauto.
    - discriminate. }
  rewrite (bool_decide_eq_false_2 _ Hk2).
  destruct (decide (type_Kind typ = "UNION")) as [Hk|Hk3].
  { rewrite Hk. simpl. intros Hrun. right; right. split; [reflexivity|].
    destruct (forM (type_PossibleTypes typ) _ _) as [types|e'|] eqn:Htypes;
      simpl in Hrun.
    - destruct (all !! type_Name typ) as [[]|]; discriminate.
    - injection Hrun as ->.
      apply forM_Err in Htypes as (other & a & Hother & Hbody).
      exists other. unfold parsePossibleType in Hbody.
      case_bool_decide as Hkind.
      + destruct (all !! ref_Name other) as [[]|]; discriminate.
      + injection Hbody as <-. auto.
    - discriminate. }
  rewrite (bool_decide_eq_false_2 _ Hk3).
  destruct (decide (type_Kind typ = "ENUM")) as [Hk|Hk4].
  { rewrite Hk. simpl. destruct (all !! type_Name typ) as [[]|]; discriminate. }
  rewrite (bool_decide_eq_false_2 _ Hk4).
  destruct (decide (type_Kind typ = "SCALAR")) as [Hk|Hk5].
  { rewrite Hk. simpl. discriminate. }
  exfalso. unfold knownKind, isNamedKind, namedKinds in Hknown.
  apply bool_decide_eq_true in Hknown.
  rewrite !elem_of_cons, elem_of_nil in Hknown. tauto.
Qed.

(** X25. The errors of [parseSchema]. An error of pass 1 is the
    duplicate-type error or the unknown-kind error of a listed type. An
    error of pass 2 comes from a listed OBJECT (a field whose type does not
    resolve, or whose arguments [parseInputFields] refuses), from a listed
    INPUT_OBJECT (its input fields are refused), or from a listed UNION (a
    possible type whose kind is not OBJECT), each against the names that
    pass 1 filed. Pass 2 never returns the unknown-kind error of its own
    last branch: pass 1 has let through types of the five kinds only. *)
Theorem parseSchema_errors schema e :
  parseSchema schema = Err e ->
  let types := Types (Schema schema) in
  (forM types declareType ∅ = Err e
   /\ exists typ, typ ∈ types
        /\ (e = EDuplicateType (type_Name typ)
            \/ (~ knownKind typ /\ e = EUnknownTypeKind (type_Kind typ))))
  \/ exists all1 typ,
       forM types declareType ∅ = Ok all1
       /\ typ ∈ types
       /\ ((type_Kind typ = "OBJECT"
            /\ exists field cause,
                 field ∈ type_Fields typ
                 /\ ((lookupTypeRef (field_Type field) all1 = Err cause
                      /\ e = ETypFieldBadTyp (type_Name typ) (field_Name field) cause)
                     \/ (parseInputFields (field_Args field) all1 = Err cause
                         /\ e = EFieldInput (field_Name field) cause)))
           \/ (type_Kind typ = "INPUT_OBJECT"
               /\ exists cause,
                    parseInputFields (type_InputFields typ) all1 = Err cause
                    /\ e = ETypInput (type_Name typ) cause)
           \/ (type_Kind typ = "UNION"
               /\ exists other,
                    other ∈ type_PossibleTypes typ
                    /\ ref_Kind other <> "OBJECT"
                    /\ e = EPossibleTypeNotObject (type_Name typ) other)).
Proof.
  intros Hparse types. unfold parseSchema in Hparse. fold types in Hparse.
  destruct (declare_cases types ∅)
    as [(all1 & Hrun1 & Hnd & Hin & Hshells & Hout)
       |[(pre & t & post & Heq & _ & Hrun1)|(t & Ht & Hk & Hrun1)]];
    rewrite Hrun1 in Hparse; simpl in Hparse.
  - right. exists all1.
    destruct (forM_Err_inv (sameHeads all1) types populateType all1 e)
      as (typ & a & Htyp & Hheads & Hbody); [|reflexivity|exact Hparse|].
    { intros x a b _ Ha Hb. apply populateType_Ok in Hb as [Hb _]. by etrans. }
    exists typ. split; [exact Hrun1|]. split; [exact Htyp|].
    assert (Hdom : forall n, is_Some (a !! n) <-> is_Some (all1 !! n))
      by (intros n; symmetry; by apply sameHeads_is_Some).
    destruct (populateType_Err typ a e (proj1 (Hin typ Htyp)) Hbody)
      as [(Hk & field & cause & Hfield & Hcase)
         |[(Hk & cause & Hcause & ->)|(Hk & other & Hother & Hkind & ->)]].
    + left. split; [exact Hk|]. exists field, cause. split; [exact Hfield|].
      rewrite <- (lookupTypeRef_dom _ a all1 Hdom),
              <- (parseInputFields_dom a all1 _ Hdom). exact Hcase.
    + right; left. split; [exact Hk|]. exists cause.
      by rewrite <- (parseInputFields_dom a all1 _ Hdom).
    + right; right. eauto.
  - left. injection Hparse as <-. split; [exact Hrun1|].
    exists t. split; [|by left]. rewrite Heq. apply elem_of_app. right. left.
  - left. injection Hparse as <-. split; [exact Hrun1|]. exists t. auto.
Qed.

Lemma parseSchema_errors_witness :
  let types := Types (Schema Examples.schemaWithObjectArgument) in
  (forM types declareType ∅
   = Err (EFieldInput "f" (EInputFieldBadTyp "a" "OBJECT"))
   /\ exists typ, typ ∈ types
        /\ (EFieldInput "f" (EInputFieldBadTyp "a" "OBJECT")
            = EDuplicateType (type_Name typ)
            \/ (~ knownKind typ
                /\ EFieldInput "f" (EInputFieldBadTyp "a" "OBJECT")
                   = EUnknownTypeKind (type_Kind typ))))
  \/ exists all1 typ,
       forM types declareType ∅ = Ok all1
       /\ typ ∈ types
       /\ ((type_Kind typ = "OBJECT"
            /\ exists field cause,
                 field ∈ type_Fields typ
                 /\ ((lookupTypeRef (field_Type field) all1 = Err cause
                      /\ EFieldInput "f" (EInputFieldBadTyp "a" "OBJECT")
                         = ETypFieldBadTyp (type_Name typ) (field_Name field) cause)
                     \/ (parseInputFields (field_Args field) all1 = Err cause
                         /\ EFieldInput "f" (EInputFieldBadTyp "a" "OBJECT")
                            = EFieldInput (field_Name field) cause)))
           \/ (type_Kind typ = "INPUT_OBJECT"
               /\ exists cause,
                    parseInputFields (type_InputFields typ) all1 = Err cause
                    /\ EFieldInput "f" (EInputFieldBadTyp "a" "OBJECT")
                       = ETypInput (type_Name typ) cause)
           \/ (type_Kind typ = "UNION"
               /\ exists other,
                    other ∈ type_PossibleTypes typ
                    /\ ref_Kind other <> "OBJECT"
                    /\ EFieldInput "f" (EInputFieldBadTyp "a" "OBJECT")
                       = EPossibleTypeNotObject (type_Name typ) other)).
Proof.
  apply (parseSchema_errors Examples.schemaWithObjectArgument
           (EFieldInput "f" (EInputFieldBadTyp "a" "OBJECT"))).
  vm_compute. reflexivity.
Defined.
(** ** The values of the annotation maps *)

Lemma allTrue_insert (m : gmap string bool) (service : string) :
  (forall s b, m !! s = Some b -> b = true) ->
  allTrue (<[service := true]> m).
Proof.
  intros Hm. split; [apply insert_non_empty|].
  intros s b. destruct (decide (service = s)) as [->|Hne].
  - rewrite lookup_insert_eq. congruence.
  - rewrite lookup_insert_ne by done. apply Hm.
Qed.

Lemma setFederatedKey_true (objName fName service : string)
    (types : gmap string GType) :
  keysTrue types -> keysTrue (setFederatedKey objName fName service types).
Proof.
  intros Htrue. unfold setFederatedKey.
  destruct (types !! objName) as [[name fields| | | |]|] eqn:Hobj; try exact Htrue.
  destruct (fields !! fName) as [f|] eqn:Hf; [|exact Htrue].
  intros n name' fields' k f' keys Hn Hk Hkeys.
  destruct (decide (objName = n)) as [<-|Hne].
  2:{ rewrite lookup_insert_ne in Hn by done. by eapply Htrue. }
  rewrite lookup_insert_eq in Hn. injection Hn as <- <-.
  destruct (decide (fName = k)) as [<-|Hne].
  2:{ rewrite lookup_insert_ne in Hk by done. by eapply Htrue. }
  rewrite lookup_insert_eq in Hk. injection Hk as <-.
  simpl in Hkeys. injection Hkeys as <-.
  apply allTrue_insert. intros s b.
  destruct (FederatedKey f) as [old|] eqn:Hold; simpl.
  - by apply (Htrue objName name fields fName f old Hobj Hf Hold).
  - by rewrite lookup_empty.
Qed.

Lemma addService_true (f : FieldPtr) (service : string)
    (infos : gmap FieldPtr FieldInfo) :
  servicesTrue infos -> servicesTrue (addService f service infos).
Proof.
  intros Htrue p info. unfold addService.
  destruct (decide (f = p)) as [<-|Hne].
  - rewrite lookup_insert_eq. intros [= <-]. simpl.
    apply allTrue_insert. intros s b.
    destruct (infos !! f) as [old|] eqn:Hold; simpl.
    + by apply (Htrue f old Hold).
    + by rewrite lookup_empty.
  - rewrite lookup_insert_ne by done. apply Htrue.
Qed.

Section AnnotationValues.

Context (O : MapOrder).
Context (mergeSchemaSlice :
  list IntrospectionQueryResult -> MergeMode -> result IntrospectionQueryResult).

Lemma annotateArg_true serviceNames byName service field objName arg types types' :
  annotateArg O serviceNames byName service field objName arg types = Ok types' ->
  keysTrue types -> keysTrue types'.
Proof.
  unfold annotateArg. intros Hrun.
  apply bind_Ok in Hrun as (root & _ & Hrun).
  destruct (types !! ref_Name root) as [[|name inputFields| | |]|]; try discriminate.
  apply bind_Ok in Hrun as (u & _ & Hrun). injection Hrun as <-.
  generalize (range O (objectFields types objName)). intros l. revert types.
  induction l as [|[fName f] l IH]; intros types Htrue; simpl; [exact Htrue|].
  apply IH. case_bool_decide; [by apply setFederatedKey_true|exact Htrue].
Qed.

Lemma annotateEntry_true serviceNames byName service field types types' :
  annotateEntry O serviceNames byName service field types = Ok types' ->
  keysTrue types -> keysTrue types'.
Proof.
  unfold annotateEntry.
  destruct (SplitN2 (field_Name field)) as [|? [|objName [|]]]; try discriminate.
  destruct (types !! objName) as [[]|]; try discriminate.
  intros Hrun Htrue. revert Hrun.
  apply (forM_invariant keysTrue); [|exact Htrue].
  intros arg a b _ Ha Hb. by eapply annotateArg_true.
Qed.

Lemma annotateType_true serviceNames byName service typ (st st' : AnnState) :
  annotateType O serviceNames byName service typ st = Ok st' ->
  keysTrue st.1 /\ servicesTrue st.2 -> keysTrue st'.1 /\ servicesTrue st'.2.
Proof.
  unfold annotateType. intros Hrun [Hkeys Hservices].
  apply bind_Ok in Hrun as (types & Htypes & Hrun).
  assert (Hkeys' : keysTrue types).
  { destruct (bool_decide (type_Name typ = "Federation"));
      [|by injection Htypes as <-].
    revert Htypes. apply (forM_invariant keysTrue); [|exact Hkeys].
    intros field a b _ Ha Hb. by eapply annotateEntry_true. }
  destruct (bool_decide (type_Kind typ = "OBJECT")).
  - destruct (types !! type_Name typ) as [[name fields| | | |]|]; try discriminate.
    injection Hrun as <-. split; [exact Hkeys'|]. simpl.
    generalize (type_Fields typ). intros l. generalize dependent (st.2).
    induction l as [|field l IH]; intros infos Hinfos; simpl; [exact Hinfos|].
    apply IH. by apply addService_true.
  - by injection Hrun as <-.
Qed.

Lemma annotate_true serviceNames byName types0 types infos :
  annotate O serviceNames byName types0 = Ok (types, infos) ->
  keysTrue types0 -> keysTrue types /\ servicesTrue infos.
Proof.
  unfold annotate. intros Hrun Htrue.
  change (keysTrue (types, infos).1 /\ servicesTrue (types, infos).2).
  revert Hrun.
  apply (forM_invariant (fun st : AnnState => keysTrue st.1 /\ servicesTrue st.2)).
  - intros service a b _ Ha Hb.
    apply bind_Ok in Hb as (serviceTypes & _ & Hb). revert Hb.
    apply (forM_invariant (fun st : AnnState => keysTrue st.1 /\ servicesTrue st.2));
      [|exact Ha].
    intros typ a' b' _ Ha' Hb'. by eapply annotateType_true.
  - split; [exact Htrue|]. intros p info Hp. simpl in Hp.
    by rewrite lookup_empty in Hp.
Qed.

(** X26. The annotation maps of a merged schema hold true and nothing
    else: every FederatedKey map that has been made and the Services map of
    every entry of the side table has an entry, every entry is true, and
    every key is the name of a service of the table of schemas. No service
    is ever recorded as false. *)
Theorem annotations_hold_true schemas types info :
  ConvertVersionedSchemas O mergeSchemaSlice schemas = Ok (types, info) ->
  (forall T name fields F f keys,
     types !! T = Some (Object name fields) -> fields !! F = Some f ->
     FederatedKey f = Some keys ->
     keys <> ∅
     /\ forall s b, keys !! s = Some b -> b = true /\ is_Some (schemas !! s))
  /\ (forall p fieldInfo,
        swf_Fields info !! p = Some fieldInfo ->
        Services fieldInfo <> ∅
        /\ forall s b,
             Services fieldInfo !! s = Some b ->
             b = true /\ is_Some (schemas !! s)).
Proof.
  intros Hrun.
  destruct (federated_keys_exact O mergeSchemaSlice schemas types info Hrun)
    as (byName' & slice' & _ & Hkeys).
  apply ConvertVersionedSchemas_Ok in Hrun
    as (byName & slice & merged & Hfirst & Hmerge & Hrun).
  apply convertMerged_Ok in Hrun as (types0 & Hparse & _ & Hann & _).
  destruct (annotate_spec O _ _ _ _ _ Hann) as (_ & _ & Hexact).
  destruct (annotate_true _ _ _ _ _ Hann) as [Htypes Hinfos].
  { intros n name fields k f keys Hn Hk Hkey.
    apply parseSchema_Ok in Hparse as (_ & _ & _ & _ & Hno).
    rewrite (Hno n name fields k f Hn Hk) in Hkey. discriminate. }
  split.
  - intros T name fields F f keys HT HF Hkey.
    destruct (Htypes T name fields F f keys HT HF Hkey) as [Hne Hall].
    split; [exact Hne|]. intros s b Hs.
    pose proof (Hall s b Hs) as ->. split; [reflexivity|].
    assert (Hat : keyAt types T F s = true).
    { unfold keyAt. rewrite HT, HF, Hkey. simpl. unfold lookupBool. by rewrite Hs. }
    apply Hkeys in Hat as [Hin _]. by apply (serviceNamesOf_elem O) in Hin.
  - intros p fieldInfo Hp.
    destruct (Hinfos p fieldInfo Hp) as [Hne Hall].
    split; [exact Hne|]. intros s b Hs.
    pose proof (Hall s b Hs) as ->. split; [reflexivity|].
    assert (Hat : annotated (types, swf_Fields info) (inr (p, s))).
    { simpl. unfold serviceAt, lookupBool. by rewrite Hp, Hs. }
    apply Hexact in Hat as [Hinit|(s' & Hs' & schema & typ & _ & _ & Hadds)].
    { simpl in Hinit. unfold serviceAt in Hinit. by rewrite lookup_empty in Hinit. }
    simpl in Hadds. destruct Hadds as [-> _].
    by apply (serviceNamesOf_elem O) in Hs'.
Qed.

End AnnotationValues.

Lemma annotations_hold_true_witness :
  (forall T name fields F f keys,
     Examples.entryInBTypes !! T = Some (Object name fields) ->
     fields !! F = Some f ->
     FederatedKey f = Some keys ->
     keys <> ∅
     /\ forall s b, keys !! s = Some b ->
          b = true /\ is_Some (Examples.entryInB !! s))
  /\ (forall p fieldInfo,
        swf_Fields Examples.entryInBInfo !! p = Some fieldInfo ->
        Services fieldInfo <> ∅
        /\ forall s b,
             Services fieldInfo !! s = Some b ->
             b = true /\ is_Some (Examples.entryInB !! s)).
Proof.
  apply (annotations_hold_true stdOrder mergeSchemaSliceModel Examples.entryInB
           Examples.entryInBTypes Examples.entryInBInfo).
  exact entryInB_converted.
Defined.
(** ** The errors of the merger *)

Lemma typesOf_not_Err byName service e : typesOf byName service <> Err e.
Proof. unfold typesOf. by destruct (byName !! service). Qed.

Lemma validateFederationKeys_Err serviceNames byName objName K e :
  validateFederationKeys serviceNames byName objName K = Err e ->
  e = EInvalidFederationKey K.
Proof.
  unfold validateFederationKeys. intros Hrun.
  apply forEach_Err in Hrun as (service & _ & Hrun).
  destruct (typesOf byName service) as [types| |] eqn:Htypes; simpl in Hrun;
    [|by destruct (typesOf_not_Err _ _ _ Htypes)|discriminate].
  apply forEach_Err in Hrun as (typ & _ & Hrun).
  destruct (bool_decide (type_Name typ = objName)); [|discriminate].
  destruct (hasField federationField typ
            && negb (hasField federationField typ && hasField K typ));
    [|discriminate].
  by injection Hrun as <-.
Qed.

Lemma validateFederatedObjects_Err serviceNames byName objName e :
  validateFederatedObjects serviceNames byName objName = Err e ->
  e = ENotFederated objName.
Proof.
  unfold validateFederatedObjects.
  destruct (forM serviceNames _ false) as [found|e'|] eqn:Hfirst; simpl;
    [| |discriminate].
  - destruct (found && _ && _); [|discriminate]. intros Hrun.
    apply forEach_Err in Hrun as (service & _ & Hrun).
    destruct (typesOf byName service) as [types| |] eqn:Htypes; simpl in Hrun;
      [|by destruct (typesOf_not_Err _ _ _ Htypes)|discriminate].
    apply forEach_Err in Hrun as (typ & _ & Hrun).
    destruct (bool_decide (type_Name typ = objName)); [|discriminate].
    destruct (negb (hasField federationField typ)); [|discriminate].
    by injection Hrun as <-.
  - exfalso. apply forM_Err in Hfirst as (service & found & _ & Hbody).
    destruct (typesOf byName service) as [types| |] eqn:Htypes; simpl in Hbody;
      [|by destruct (typesOf_not_Err _ _ _ Htypes)|discriminate].
    apply forM_Err in Hbody as (typ & found' & _ & Hbody).
    by destruct (bool_decide (type_Name typ = objName) && hasField federationField typ).
Qed.

Section MergerErrors.

Context (O : MapOrder).
Context (mergeSchemaSlice :
  list IntrospectionQueryResult -> MergeMode -> result IntrospectionQueryResult).

Lemma annotateArg_Err serviceNames byName service field objName arg types e :
  annotateArg O serviceNames byName service field objName arg types = Err e ->
  entryError e.
Proof.
  unfold annotateArg, entryError.
  destruct (getRootType (input_Type arg)) as [root| |] eqn:Hroot; simpl;
    [|by destruct (input_Type arg)|discriminate].
  destruct (types !! ref_Name root) as [[|name inputFields| | |]|];
    try (intros [= <-]; eauto 10).
  destruct (forEach (range O inputFields) _) as [u|e'|] eqn:Hcheck; simpl;
    try discriminate.
  intros [= <-]. apply forEach_Err in Hcheck as ([fName t] & _ & Hbody).
  destruct (validateFederationKeys _ _ _ fName) as [u|e''|] eqn:Hvalid;
    simpl in Hbody; [|injection Hbody as <-|discriminate].
  - case_bool_decide; [discriminate|]. injection Hbody as <-. eauto 10.
  - apply validateFederationKeys_Err in Hvalid as ->. eauto 10.
Qed.

Lemma annotateEntry_Err serviceNames byName service field types e :
  annotateEntry O serviceNames byName service field types = Err e ->
  entryError e.
Proof.
  unfold annotateEntry.
  destruct (SplitN2 (field_Name field)) as [|? [|objName [|]]];
    try (intros [= <-]; left; eauto).
  destruct (types !! objName) as [[]|];
    try (intros [= <-]; right; left; eauto).
  intros Hrun. apply forM_Err in Hrun as (arg & a & _ & Hbody).
  by eapply annotateArg_Err.
Qed.

Lemma annotateType_Err serviceNames byName service typ (st : AnnState) e :
  annotateType O serviceNames byName service typ st = Err e -> entryError e.
Proof.
  unfold annotateType.
  destruct (bool_decide (type_Name typ = "Federation")).
  - destruct (forM (type_Fields typ) _ _) as [types|e'|] eqn:Hentries; simpl.
    + destruct (bool_decide (type_Kind typ = "OBJECT")); [|discriminate].
      destruct (types !! type_Name typ) as [[]|]; discriminate.
    + intros [= <-]. apply forM_Err in Hentries as (field & a & _ & Hbody).
      by eapply annotateEntry_Err.
    + discriminate.
  - simpl. destruct (bool_decide (type_Kind typ = "OBJECT")); [|discriminate].
    destruct (st.1 !! type_Name typ) as [[]|]; discriminate.
Qed.

Lemma annotate_Err serviceNames byName types e :
  annotate O serviceNames byName types = Err e -> entryError e.
Proof.
  unfold annotate. intros Hrun.
  apply forM_Err in Hrun as (service & st & _ & Hbody).
  destruct (typesOf byName service) as [serviceTypes| |] eqn:Htypes; simpl in Hbody;
    [|by destruct (typesOf_not_Err _ _ _ Htypes)|discriminate].
  apply forM_Err in Hbody as (typ & st' & _ & Hbody).
  by eapply annotateType_Err.
Qed.

Lemma validateFieldsReturningFederatedObject_Err serviceNames byName types infos e :
  validateFieldsReturningFederatedObject O serviceNames byName types infos = Err e ->
  shadowError e.
Proof.
  unfold validateFieldsReturningFederatedObject, shadowError. intros Hrun.
  apply forEach_Err in Hrun as ([service schema] & _ & Hrun).
  apply forEach_Err in Hrun as (typ & _ & Hrun).
  destruct (negb (bool_decide (type_Kind typ = "OBJECT"))); [discriminate|].
  apply forEach_Err in Hrun as (field & _ & Hrun).
  destruct (getRootType (field_Type field)) as [root| |] eqn:Hroot; simpl in Hrun;
    [|by destruct (field_Type field)|discriminate].
  destruct (negb (bool_decide (ref_Kind root = "OBJECT"))); [discriminate|].
  destruct (types !! ref_Name root) as [[name fields| | | |]|];
    try (injection Hrun as <-; eauto).
  destruct (returnObj_loop O service field root name fields types infos)
    as (_ & Honly & _).
  rewrite (Honly e Hrun). eauto.
Qed.

(** X27. The errors of [ConvertVersionedSchemas], stage by stage. An error
    of the merge of the versions of a service, of the union merge and of
    [parseSchema] is returned as it is. The error of
    [validateFederatedObjects] is the not-federated error for a name of the
    parsed table, wrapped with that name. An error of the annotation pass is
    one of the five errors about a Federation entry, unwrapped. An error of
    the last validation is the not-an-object error or the shadow-type error,
    wrapped. *)
Theorem merger_errors schemas e :
  ConvertVersionedSchemas O mergeSchemaSlice schemas = Err e ->
  (exists service versions,
     schemas !! service = Some versions
     /\ intersectVersions O mergeSchemaSlice versions = Err e)
  \/ exists byName slice,
       intersectServices O mergeSchemaSlice schemas
         (sortStrings (fst <$> range O schemas)) = Ok (byName, slice)
       /\ (mergeSchemaSlice slice Union_ = Err e
           \/ exists merged,
                mergeSchemaSlice slice Union_ = Ok merged
                /\ (parseSchema merged = Err e
                    \/ exists types0,
                         parseSchema merged = Ok types0
                         /\ ((exists n, is_Some (types0 !! n)
                                /\ e = EExpectedFederated n (ENotFederated n))
                             \/ entryError e
                             \/ exists cause,
                                  e = EShadowObjects cause /\ shadowError cause))).
Proof.
  unfold ConvertVersionedSchemas. intros Hrun.
  destruct (intersectServices O mergeSchemaSlice schemas _)
    as [[byName slice]|e'|] eqn:Hfirst; simpl in Hrun; [|injection Hrun as ->|discriminate].
  2:{ left. unfold intersectServices in Hfirst.
      apply forM_Err in Hfirst as (service & [b l] & Hin & Hbody).
      apply (serviceNamesOf_elem O) in Hin as [versions Hversions].
      exists service, versions. split; [exact Hversions|].
      rewrite Hversions in Hbody. simpl in Hbody.
      destruct (intersectVersions O mergeSchemaSlice versions);
        simpl in Hbody; [discriminate|by injection Hbody as ->|discriminate]. }
  right. exists byName, slice. split; [reflexivity|].
  destruct (mergeSchemaSlice slice Union_) as [merged|e'|] eqn:Hmerge;
    simpl in Hrun; [|injection Hrun as ->; by left|discriminate].
  right. exists merged. split; [reflexivity|].
  unfold convertMerged in Hrun.
  destruct (parseSchema merged) as [types0|e'|] eqn:Hparse;
    simpl in Hrun; [|injection Hrun as ->; by left|discriminate].
  right. exists types0. split; [reflexivity|].
  destruct (forEach (range O types0) _) as [u|e'|] eqn:Hvalid;
    simpl in Hrun; [|injection Hrun as ->|discriminate].
  2:{ left. apply forEach_Err in Hvalid as ([n g] & Hin & Hbody).
      apply (range_lookup O) in Hin.
      apply wrapErr_Err in Hbody as (cause & Hcause & ->).
      apply validateFederatedObjects_Err in Hcause as ->. eauto. }
  destruct (annotate O _ byName types0) as [[types infos]|e'|] eqn:Hann;
    simpl in Hrun; [|injection Hrun as ->|discriminate].
  2:{ right; left. by eapply annotate_Err. }
  destruct (validateFieldsReturningFederatedObject O _ byName types infos)
    as [u'|cause|] eqn:Hshadow; simpl in Hrun; try discriminate.
  injection Hrun as <-. right; right. exists cause. split; [reflexivity|].
  by eapply validateFieldsReturningFederatedObject_Err.
Qed.

End MergerErrors.

Lemma merger_errors_witness :
  (exists service versions,
     Examples.noUnderscore !! service = Some versions
     /\ intersectVersions stdOrder mergeSchemaSliceModel versions
        = Err (ENoObjectName "Foo"))
  \/ exists byName slice,
       intersectServices stdOrder mergeSchemaSliceModel Examples.noUnderscore
         (sortStrings (fst <$> range stdOrder Examples.noUnderscore))
       = Ok (byName, slice)
       /\ (mergeSchemaSliceModel slice Union_ = Err (ENoObjectName "Foo")
           \/ exists merged,
                mergeSchemaSliceModel slice Union_ = Ok merged
                /\ (parseSchema merged = Err (ENoObjectName "Foo")
                    \/ exists types0,
                         parseSchema merged = Ok types0
                         /\ ((exists n, is_Some (types0 !! n)
                                /\ ENoObjectName "Foo"
                                   = EExpectedFederated n (ENotFederated n))
                             \/ entryError (ENoObjectName "Foo")
                             \/ exists cause,
                                  ENoObjectName "Foo" = EShadowObjects cause
                                  /\ shadowError cause))).
Proof.
  apply (merger_errors stdOrder mergeSchemaSliceModel Examples.noUnderscore
           (ENoObjectName "Foo")).
  vm_compute. reflexivity.
Defined.
(** ** The panics of the merger *)

Lemma forEach_Panic {A : Type} (xs : list A) (body : A -> result unit) (p : panic) :
  forEach xs body = Panic p -> exists x, x ∈ xs /\ body x = Panic p.
Proof.
  unfold forEach. intros Hrun.
  destruct (forM_Panic (fun _ => True) xs (fun x _ => body x) tt p)
    as (x & a & Hx & _ & Hbody); auto.
  eauto.
Qed.

Lemma getRootType_Panic t p :
  getRootType t = Panic p -> t = None /\ p = NilDereference.
Proof. destruct t; simpl; [discriminate|]. by intros [= <-]. Qed.

Section MergerPanics.

Context (O : MapOrder).
Context (mergeSchemaSlice :
  list IntrospectionQueryResult -> MergeMode -> result IntrospectionQueryResult).

Lemma annotateArg_Panic serviceNames byName service field objName arg types p :
  allPresent serviceNames byName ->
  annotateArg O serviceNames byName service field objName arg types = Panic p ->
  input_Type arg = None /\ p = NilDereference.
Proof.
  intros Hall. unfold annotateArg.
  destruct (getRootType (input_Type arg)) as [root| |] eqn:Hroot; simpl;
    [|discriminate|intros [= <-]; by apply getRootType_Panic].
  destruct (types !! ref_Name root) as [[|name inputFields| | |]|]; try discriminate.
  destruct (forEach (range O inputFields) _) as [u|e|q] eqn:Hcheck; simpl;
    try discriminate.
  intros _. exfalso.
  apply forEach_Panic in Hcheck as ([fName t] & _ & Hbody).
  destruct (validateFederationKeys_spec serviceNames byName
              (objectName types objName) fName Hall) as [[H _]|[H _]];
    rewrite H in Hbody; simpl in Hbody; [|discriminate].
  by case_bool_decide.
Qed.

Lemma annotateEntry_Panic serviceNames byName service field types p :
  allPresent serviceNames byName ->
  annotateEntry O serviceNames byName service field types = Panic p ->
  exists arg, arg ∈ field_Args field /\ input_Type arg = None /\ p = NilDereference.
Proof.
  intros Hall. unfold annotateEntry.
  destruct (SplitN2 (field_Name field)) as [|? [|objName [|]]]; try discriminate.
  destruct (types !! objName) as [[]|]; try discriminate.
  intros Hrun.
  destruct (forM_Panic (fun _ => True) _ _ _ _ ltac:(auto) I Hrun)
    as (arg & a & Harg & _ & Hbody).
  exists arg. split; [exact Harg|]. by eapply annotateArg_Panic.
Qed.

Lemma annotateType_Panic serviceNames byName service typ (st : AnnState) p :
  allPresent serviceNames byName ->
  annotateType O serviceNames byName service typ st = Panic p ->
  (type_Name typ = "Federation"
   /\ exists field arg,
        field ∈ type_Fields typ /\ arg ∈ field_Args field
        /\ input_Type arg = None /\ p = NilDereference)
  \/ (type_Kind typ = "OBJECT"
      /\ (forall name fields, st.1 !! type_Name typ <> Some (Object name fields))
      /\ p = FailedTypeAssertion).
Proof.
  intros Hall. unfold annotateType.
  assert (Hobject : forall types,
            typesLe st.1 types ->
            (if bool_decide (type_Kind typ = "OBJECT")
             then match types !! type_Name typ with
                  | Some (Object _ fields) =>
                      Ok (types,
                          fold_left (fun infos field =>
                                       addService
                                         (fieldPtr (type_Name typ) fields
                                            (field_Name field)) service infos)
                            (type_Fields typ) st.2)
                  | _ => Panic FailedTypeAssertion
                  end
             else Ok (types, st.2)) = Panic p ->
            type_Kind typ = "OBJECT"
            /\ (forall name fields, st.1 !! type_Name typ <> Some (Object name fields))
            /\ p = FailedTypeAssertion).
  { intros types Hle.
    destruct (decide (type_Kind typ = "OBJECT")) as [Hkind|Hkind];
      [rewrite (bool_decide_eq_true_2 _ Hkind)
      |rewrite (bool_decide_eq_false_2 _ Hkind); discriminate].
    destruct (types !! type_Name typ) as [g|] eqn:Hn.
    - destruct g as [name fields| | | |]; try discriminate;
        intros [= <-]; (split; [exact Hkind|]); (split; [|reflexivity]);
        intros name' fields' Hst;
        destruct (typesLe_lookup_Object _ _ _ _ _ Hle Hst) as (? & Hn' & _);
        congruence.
    - intros [= <-]. split; [exact Hkind|]. split; [|reflexivity].
      intros name' fields' Hst.
      destruct (typesLe_lookup_Object _ _ _ _ _ Hle Hst) as (? & Hn' & _).
      congruence. }
  destruct (decide (type_Name typ = "Federation")) as [Hname|Hname];
    [rewrite (bool_decide_eq_true_2 _ Hname)
    |rewrite (bool_decide_eq_false_2 _ Hname)].
  - destruct (forM (type_Fields typ) _ _) as [types|e|q] eqn:Hentries; simpl.
    + intros Hrun. right. apply (Hobject types); [|exact Hrun].
      by apply (annotateEntries_spec O) in Hentries as [? _].
    + discriminate.
    + intros [= <-]. left. split; [exact Hname|].
      destruct (forM_Panic (fun _ => True) _ _ _ _ ltac:(auto) I Hentries)
        as (field & a & Hfield & _ & Hbody).
      apply annotateEntry_Panic in Hbody as (arg & Harg & Hnil & ->); [|exact Hall].
      exists field, arg. auto.
  - simpl. intros Hrun. right. by apply (Hobject st.1).
Qed.

Lemma annotate_Panic serviceNames byName types0 p :
  allPresent serviceNames byName ->
  annotate O serviceNames byName types0 = Panic p ->
  exists service schema typ,
    byName !! service = Some schema
    /\ typ ∈ Types (Schema schema)
    /\ ((type_Name typ = "Federation"
         /\ exists field arg,
              field ∈ type_Fields typ /\ arg ∈ field_Args field
              /\ input_Type arg = None /\ p = NilDereference)
        \/ (type_Kind typ = "OBJECT"
            /\ (forall name fields,
                  types0 !! type_Name typ <> Some (Object name fields))
            /\ p = FailedTypeAssertion)).
Proof.
  intros Hall. unfold annotate. intros Hrun.
  match type of Hrun with
  | forM ?xs ?body ?s = _ =>
      destruct (forM_Panic (fun st : AnnState => typesLe types0 st.1) xs body s p)
        as (service & st & Hservice & Hle & Hbody); [| |exact Hrun|]
  end.
  { intros s a b _ Ha Hb. apply bind_Ok in Hb as (serviceTypes & _ & Hb).
    etrans; [exact Ha|].
    by apply (annotateTypes_spec O) in Hb as [? _]. }
  { reflexivity. }
  destruct (Hall service Hservice) as [schema Hschema].
  unfold typesOf in Hbody. rewrite Hschema in Hbody. simpl in Hbody.
  match type of Hbody with
  | forM ?xs ?body ?s = _ =>
      destruct (forM_Panic (fun st' : AnnState => typesLe types0 st'.1) xs body s p)
        as (typ & st' & Htyp & Hle' & Hbody'); [| |exact Hbody|]
  end.
  { intros t a b _ Ha Hb. etrans; [exact Ha|].
    by apply (annotateType_spec O) in Hb as [? _]. }
  { exact Hle. }
  exists service, schema, typ. split; [exact Hschema|]. split; [exact Htyp|].
  destruct (annotateType_Panic _ _ _ _ _ _ Hall Hbody')
    as [Hentry|(Hkind & Hno & ->)]; [by left|right].
  split; [exact Hkind|]. split; [|reflexivity].
  intros name fields Hn.
  destruct (typesLe_lookup_Object _ _ _ _ _ Hle' Hn) as (fields' & Hn' & _).
  by apply (Hno name fields').
Qed.

Lemma checkShadow_Panic service field root T (fields : gmap string Field)
    types infos name p :
  checkShadow O service field root T fields types infos name = Panic p ->
  name = federationField
  /\ infos !! fieldPtr (ref_Name root) fields federationField = None
  /\ p = NilDereference.
Proof.
  unfold checkShadow. case_bool_decide as Hname; [subst name|discriminate].
  destruct (infos !! _) as [info|] eqn:Hinfo; [|by intros [= <-]].
  destruct (negb _); [|discriminate].
  destruct (bool_decide (field_Name field = _)); [discriminate|].
  destruct (types !! "Federation") as [[fedName fedFields| | | |]|]; try discriminate.
  intros Hrun. apply forEach_Panic in Hrun as ([fName f] & _ & Hbody).
  by case_bool_decide.
Qed.

Lemma validateFieldsReturningFederatedObject_Panic serviceNames byName types infos p :
  validateFieldsReturningFederatedObject O serviceNames byName types infos
  = Panic p ->
  exists service schema typ field,
    byName !! service = Some schema
    /\ typ ∈ Types (Schema schema)
    /\ type_Kind typ = "OBJECT"
    /\ field ∈ type_Fields typ
    /\ p = NilDereference
    /\ (field_Type field = None
        \/ exists root,
             getRootType (field_Type field) = Ok root
             /\ ref_Kind root = "OBJECT"
             /\ is_Some (objectFields types (ref_Name root) !! federationField)
             /\ infos !! (Some (ref_Name root, federationField) : FieldPtr) = None).
Proof.
  unfold validateFieldsReturningFederatedObject. intros Hrun.
  apply forEach_Panic in Hrun as ([service schema] & Hin & Hrun).
  apply (range_lookup O) in Hin.
  apply forEach_Panic in Hrun as (typ & Htyp & Hrun).
  case_bool_decide as Hkind; simpl in Hrun; [|discriminate].
  apply forEach_Panic in Hrun as (field & Hfield & Hrun).
  exists service, schema, typ, field.
  do 4 (split; [assumption|]).
  destruct (getRootType (field_Type field)) as [root| |] eqn:Hroot; simpl in Hrun;
    [|discriminate|].
  2:{ injection Hrun as <-. apply getRootType_Panic in Hroot as [Hnil ->]. auto. }
  case_bool_decide as Hobj; simpl in Hrun; [|discriminate].
  destruct (types !! ref_Name root) as [[name fields| | | |]|] eqn:Hn;
    try discriminate.
  apply forEach_Panic in Hrun as ([fname f] & Hin' & Hrun).
  apply (range_lookup O) in Hin'.
  apply checkShadow_Panic in Hrun as (-> & Hnone & ->).
  split; [reflexivity|]. right. exists root.
  split; [reflexivity|]. split; [exact Hobj|].
  unfold objectFields. rewrite Hn. split; [eauto|].
  unfold fieldPtr in Hnone. by rewrite Hin' in Hnone.
Qed.

(** X28. The panics of [ConvertVersionedSchemas], stage by stage. Apart
    from a panic of [mergeSchemaSlice] itself, the merger panics in these
    cases only: [parseSchema] panics on the merged schema; an argument of a
    field of a type named Federation has no type reference; an OBJECT type
    of a service has no object of its name in the merged table, so that the
    type assertion without comma-ok fails; a field of an OBJECT type of a
    service has no type reference; or a field of a service returns an
    object of the merged table whose _federation field no service declares,
    so that the field has no entry in the side table. The validators never
    meet a service without a schema on record. *)
Theorem merger_panics schemas p :
  ConvertVersionedSchemas O mergeSchemaSlice schemas = Panic p ->
  (exists service versions,
     schemas !! service = Some versions
     /\ intersectVersions O mergeSchemaSlice versions = Panic p)
  \/ exists byName slice,
       intersectServices O mergeSchemaSlice schemas
         (sortStrings (fst <$> range O schemas)) = Ok (byName, slice)
       /\ (mergeSchemaSlice slice Union_ = Panic p
           \/ exists merged,
                mergeSchemaSlice slice Union_ = Ok merged
                /\ ((parseSchema merged = Panic p
                     /\ p = NilDereference /\ crashCause merged)
                    \/ exists types0 service schema typ,
                         parseSchema merged = Ok types0
                         /\ byName !! service = Some schema
                         /\ typ ∈ Types (Schema schema)
                         /\ ((type_Name typ = "Federation"
                              /\ p = NilDereference
                              /\ exists field arg,
                                   field ∈ type_Fields typ
                                   /\ arg ∈ field_Args field
                                   /\ input_Type arg = None)
                             \/ (type_Kind typ = "OBJECT"
                                 /\ p = FailedTypeAssertion
                                 /\ forall name fields,
                                      types0 !! type_Name typ
                                      <> Some (Object name fields))
                             \/ (type_Kind typ = "OBJECT"
                                 /\ p = NilDereference
                                 /\ exists field,
                                      field ∈ type_Fields typ
                                      /\ (field_Type field = None
                                          \/ exists root,
                                               getRootType (field_Type field) = Ok root
                                               /\ ref_Kind root = "OBJECT"
                                               /\ is_Some
                                                    (objectFields types0 (ref_Name root)
                                                     !! federationField)
                                               /\ forall s,
                                                    ~ declaresField byName s
                                                        (ref_Name root)
                                                        federationField))))).
Proof.
  unfold ConvertVersionedSchemas. intros Hrun.
  destruct (intersectServices O mergeSchemaSlice schemas _)
    as [[byName slice]|e'|q] eqn:Hfirst; simpl in Hrun;
    [|discriminate|injection Hrun as ->].
  2:{ left. unfold intersectServices in Hfirst.
      destruct (forM_Panic (fun _ => True) _ _ _ _ ltac:(auto) I Hfirst)
        as (service & [b l] & Hin & _ & Hbody).
      apply (serviceNamesOf_elem O) in Hin as [versions Hversions].
      exists service, versions. split; [exact Hversions|].
      rewrite Hversions in Hbody. simpl in Hbody.
      destruct (intersectVersions O mergeSchemaSlice versions);
        simpl in Hbody; [discriminate|discriminate|by injection Hbody as ->]. }
  pose proof (intersectServices_present O mergeSchemaSlice _ _ _ _ Hfirst) as Hall.
  pose proof (intersectServices_spec O mergeSchemaSlice _ _ _ _ Hfirst) as Hspec.
  right. exists byName, slice. split; [reflexivity|].
  destruct (mergeSchemaSlice slice Union_) as [merged|e'|q] eqn:Hmerge;
    simpl in Hrun; [|discriminate|injection Hrun as ->; by left].
  right. exists merged. split; [reflexivity|].
  unfold convertMerged in Hrun.
  destruct (parseSchema merged) as [types0|e'|q] eqn:Hparse;
    simpl in Hrun; [|discriminate|injection Hrun as ->].
  2:{ left. split; [reflexivity|].
      split; [by eapply parseSchema_Panic_nil|by eapply parseSchema_Panic]. }
  right. exists types0.
  destruct (forEach (range O types0) _) as [u|e'|q] eqn:Hvalid;
    simpl in Hrun; [|discriminate|exfalso].
  2:{ apply forEach_Panic in Hvalid as ([n g] & _ & Hbody).
      destruct (validateFederatedObjects_spec _ byName n Hall) as [[H _]|[H _]];
        rewrite H in Hbody; discriminate. }
  destruct (annotate O _ byName types0) as [[types infos]|e'|q] eqn:Hann;
    simpl in Hrun; [|discriminate|injection Hrun as ->].
  2:{ destruct (annotate_Panic _ _ _ _ Hall Hann)
        as (service & schema & typ & Hrec & Htyp & Hcase).
      exists service, schema, typ.
      split; [reflexivity|]. split; [exact Hrec|]. split; [exact Htyp|].
      destruct Hcase as [(Hname & field & arg & Hfield & Harg & Hnil & ->)
                        |(Hkind & Hno & ->)].
      - left. split; [exact Hname|]. split; [reflexivity|]. eauto.
      - right; left. auto. }
  destruct (validateFieldsReturningFederatedObject O _ byName types infos)
    as [u'|cause|q] eqn:Hshadow; simpl in Hrun; try discriminate.
  injection Hrun as ->.
  destruct (validateFieldsReturningFederatedObject_Panic _ _ _ _ _ Hshadow)
    as (service & schema & typ & field & Hrec & Htyp & Hkind & Hfield & -> & Hcase).
  exists service, schema, typ.
  split; [reflexivity|]. split; [exact Hrec|]. split; [exact Htyp|].
  right; right. split; [exact Hkind|]. split; [reflexivity|].
  exists field. split; [exact Hfield|].
  destruct Hcase as [Hnil|(root & Hroot & Hobj & Hmarker & Hnone)]; [by left|right].
  destruct (annotate_spec O _ _ _ _ _ Hann) as (Hle & _ & _).
  exists root. split; [exact Hroot|]. split; [exact Hobj|].
  assert (Hmarker0 : is_Some (objectFields types0 (ref_Name root) !! federationField))
    by (by apply (typesLe_objectFields _ _ _ _ Hle)).
  split; [exact Hmarker0|].
  intros s Hdecl.
  assert (Hin : s ∈ serviceNamesOf O schemas).
  { destruct Hdecl as (sch & ? & ? & Hs & _). by apply Hspec in Hs as [? _]. }
  pose proof (proj2 (services_exact O _ _ _ _ _ s (ref_Name root) federationField
                       Hann Hmarker0) (conj Hin Hdecl)) as Hat.
  unfold serviceAt in Hat. by rewrite Hnone in Hat.
Qed.

End MergerPanics.

Lemma merger_panics_witness :
  (exists service versions,
     ({[ "A" := {[ "" := Examples.schemaWithTruncatedArgument ]} ]}
      : gmap string (gmap string IntrospectionQueryResult)) !! service
     = Some versions
     /\ intersectVersions stdOrder mergeSchemaSliceModel versions
        = Panic NilDereference)
  \/ exists byName slice,
       intersectServices stdOrder mergeSchemaSliceModel
         {[ "A" := {[ "" := Examples.schemaWithTruncatedArgument ]} ]}
         (sortStrings
            (fst <$> range stdOrder
                       ({[ "A" := {[ "" := Examples.schemaWithTruncatedArgument ]} ]}
                        : gmap string (gmap string IntrospectionQueryResult))))
       = Ok (byName, slice)
       /\ (mergeSchemaSliceModel slice Union_ = Panic NilDereference
           \/ exists merged,
                mergeSchemaSliceModel slice Union_ = Ok merged
                /\ ((parseSchema merged = Panic NilDereference
                     /\ NilDereference = NilDereference /\ crashCause merged)
                    \/ exists types0 service schema typ,
                         parseSchema merged = Ok types0
                         /\ byName !! service = Some schema
                         /\ typ ∈ Types (Schema schema)
                         /\ ((type_Name typ = "Federation"
                              /\ NilDereference = NilDereference
                              /\ exists field arg,
                                   field ∈ type_Fields typ
                                   /\ arg ∈ field_Args field
                                   /\ input_Type arg = None)
                             \/ (type_Kind typ = "OBJECT"
                                 /\ NilDereference = FailedTypeAssertion
                                 /\ forall name fields,
                                      types0 !! type_Name typ
                                      <> Some (Object name fields))
                             \/ (type_Kind typ = "OBJECT"
                                 /\ NilDereference = NilDereference
                                 /\ exists field,
                                      field ∈ type_Fields typ
                                      /\ (field_Type field = None
                                          \/ exists root,
                                               getRootType (field_Type field) = Ok root
                                               /\ ref_Kind root = "OBJECT"
                                               /\ is_Some
                                                    (objectFields types0 (ref_Name root)
                                                     !! federationField)
                                               /\ forall s,
                                                    ~ declaresField byName s
                                                        (ref_Name root)
                                                        federationField))))).
Proof.
  apply (merger_panics stdOrder mergeSchemaSliceModel
           {[ "A" := {[ "" := Examples.schemaWithTruncatedArgument ]} ]}
           NilDereference).
  vm_compute. reflexivity.
Defined.
